(** * Amass discovery engine: scope test, alias traversal, sessions, scrape plugin

    A shallow embedding of the parts of the engine that the specification
    talks about, and the properties proved about them.

    - [GoStrings]   the functions of Go's [strings] package the code calls
    - [StringSet]   the [caffix/stringset] set of strings
    - [Subs]        [domainNameInScope] of cmd/amass/subs.go
    - [OAM]         assets, entities, relations and edges of the asset graph
    - [Addr]        utils/addr.go: [NamesToAddrs], [getAddr], [oneMoreName],
                    [cnameQuery]
    - [Sessions]    the session ([Kill], [Done]) and the session manager
                    ([NewManager], [GetSession], [CancelSession])
    - [LetItGo]     the scrape plugin in its variants
    - [Prefixes]    utils/addr.go: [ReadASPrefixes]
    - [SubsData]    cmd/amass/subs.go: [getNames], [addAddresses],
                    [addInfrastructureInfo], [showData]
    - [Manager]     the session manager: [AddSession], [NewSession],
                    [Shutdown]
    - [SessionDB]   the graph store of a session: [selectDBMS]
    - [RDAP]        the RDAP plugin: [getJSONLink], [storeEntity]
    - [Retry]       the scrape plugin that asks a second time
    - [Associated]  engine/plugins/scrape/letitgo.go: the edges of [store]

    Go strings are byte sequences; they are modelled as [string], one
    [ascii] per byte. The functions of [GoStrings] are those of Go's
    library on strings of ASCII bytes, which domain names are. *)

From Stdlib Require Import ZArith Lia Ascii.
From stdpp Require Import gmap strings list.

Open Scope Z_scope.

(** ** Go's [strings] package *)

Module GoStrings.

(** [c < utf8.RuneSelf]. The library has a path for strings of such bytes
    and a path through the Unicode tables for the others; the functions
    below are the first path, so they are the library's on the strings
    with [is_ascii], and only there. *)
Definition ascii_byte (c : ascii) : bool := (Ascii.N_of_ascii c <? 128)%N.

Fixpoint is_ascii (s : string) : bool :=
  match s with
  | EmptyString => true
  | String c s' => ascii_byte c && is_ascii s'
  end.

(** [c += 'a' - 'A'] for ['A' <= c && c <= 'Z'], every other byte is kept.
    This is [strings.ToLower] on its ASCII path; the Unicode path of the
    library, taken when a byte is [>= 0x80], is outside the model. *)
Definition lower_byte (c : ascii) : ascii :=
  let n := Ascii.N_of_ascii c in
  if ((65 <=? n) && (n <=? 90))%N then Ascii.ascii_of_N (n + 32) else c.

(** [strings.ToLower] on a string of ASCII bytes. A string with a byte
    [>= 0x80] is folded by the library rune by rune ([unicode.ToLower]),
    which this function does not do. *)
Fixpoint ToLower (s : string) : string :=
  match s with
  | EmptyString => EmptyString
  | String c s' => String (lower_byte c) (ToLower s')
  end.

Definition is_upper (c : ascii) : bool :=
  let n := Ascii.N_of_ascii c in ((65 <=? n) && (n <=? 90))%N.

Fixpoint has_upper (s : string) : bool :=
  match s with
  | EmptyString => false
  | String c s' => is_upper c || has_upper s'
  end.

(** The table [asciiSpace] of the library: tab, newline, vertical tab,
    form feed, carriage return and space. *)
Definition asciiSpace (c : ascii) : bool :=
  let n := Ascii.N_of_ascii c in
  ((n =? 9) || (n =? 10) || (n =? 11) || (n =? 12) || (n =? 13) || (n =? 32))%N.

Fixpoint trim_left (s : string) : string :=
  match s with
  | EmptyString => EmptyString
  | String c s' => if asciiSpace c then trim_left s' else s
  end.

Fixpoint trim_right (s : string) : string :=
  match s with
  | EmptyString => EmptyString
  | String c s' =>
      match trim_right s' with
      | EmptyString => if asciiSpace c then EmptyString else String c EmptyString
      | t => String c t
      end
  end.

(** [strings.TrimSpace] on a string of ASCII bytes: [s[start:stop]], where
    [start] skips the leading and [stop] the trailing white space of the
    table [asciiSpace]. At a byte [>= 0x80] the library goes on with
    [unicode.IsSpace], which this function does not do. *)
Definition TrimSpace (s : string) : string := trim_right (trim_left s).

(** [len(s) >= len(suffix) && s[len(s)-len(suffix):] == suffix] *)
Definition HasSuffix (s suffix : string) : bool :=
  (String.length suffix <=? String.length s)%nat &&
  String.eqb
    (String.substring (String.length s - String.length suffix)
                      (String.length suffix) s)
    suffix.

(** [strings.EqualFold] on strings of ASCII bytes; the library compares
    other strings under Unicode simple folding. *)
Definition EqualFold (s t : string) : bool :=
  String.eqb (ToLower s) (ToLower t).

(** [strings.Split(s, ".")] *)
Fixpoint split_dot_go (cur : string) (s : string) : list string :=
  match s with
  | EmptyString => [String.rev cur]
  | String c s' =>
      if Ascii.eqb c "."%char
      then String.rev cur :: split_dot_go EmptyString s'
      else split_dot_go (String c cur) s'
  end.

Definition SplitDot (s : string) : list string := split_dot_go EmptyString s.

End GoStrings.

(** ** cmd/amass/subs.go *)

Module Subs.
Import GoStrings.

(** The body of the [for _, d := range scope] loop with its [break]. *)
Fixpoint scope_loop (n : string) (scope : list string) : bool :=
  match scope with
  | [] => false
  | d :: rest =>
      let d := ToLower d in
      if String.eqb n d || HasSuffix n ("." +:+ d) then true
      else scope_loop n rest
  end.

Definition domainNameInScope (name : string) (scope : list string) : bool :=
  let n := ToLower (TrimSpace name) in
  scope_loop n scope.

(** The membership rule in the words of the specification: [d] equals a
    root domain or ends with ["." + root], compared case-insensitively. *)
Definition suffix_match (d r : string) : Prop :=
  ToLower d = ToLower r ∨ ∃ p : string, ToLower d = p +:+ "." +:+ ToLower r.

Definition in_scope_spec (d : string) (scope : list string) : Prop :=
  ∃ r, r ∈ scope ∧ suffix_match d r.

(** A byte of a domain name as it is written: a visible ASCII character
    (the letters, digits, hyphens and underscores of the labels and the
    dots between them are such), neither white space nor a byte
    [>= 0x80]. An internationalized name is written in its [xn--] form. *)
Definition name_byte (c : ascii) : bool :=
  let n := Ascii.N_of_ascii c in ((33 <=? n) && (n <=? 126))%N.

Fixpoint domain_name (s : string) : bool :=
  match s with
  | EmptyString => true
  | String c s' => name_byte c && domain_name s'
  end.

End Subs.

(** ** github.com/caffix/stringset

    A set of strings whose elements are stored in lower case: [Insert] and
    [Has] both apply [strings.ToLower] to their argument. [Slice] lists the
    elements in an order the library does not specify. *)

Module StringSet.
Import GoStrings.

Definition New : gset string := ∅.

Definition Has (s : gset string) (element : string) : bool :=
  bool_decide (ToLower element ∈ s).

Definition Insert (s : gset string) (element : string) : gset string :=
  {[ ToLower element ]} ∪ s.

Definition Len (s : gset string) : nat := size s.

Definition Slice (s : gset string) : list string := elements s.

End StringSet.

(** ** Results of fallible calls: [(value, error)] *)

Inductive result (A : Type) : Type :=
| Ok (a : A)
| Err (msg : string).
Arguments Ok {A} a.
Arguments Err {A} msg.

Definition is_ok {A} (r : result A) : bool :=
  match r with Ok _ => true | Err _ => false end.

(** ** The asset graph (open-asset-model, asset-db types) *)

Module OAM.

(** The assets the modelled code meets: names, addresses, and two of the
    other kinds. *)
Inductive Asset : Type :=
| FQDN (Name : string)
| IPAddress (Address : string)
| Netblock (CIDR : string)
| ContactRecord (DiscoveredAt : string).

(** [Asset.Key()] *)
Definition Key (a : Asset) : string :=
  match a with
  | FQDN n => n
  | IPAddress a => a
  | Netblock c => c
  | ContactRecord d => d
  end.

Global Instance Asset_eq_dec : EqDecision Asset.
Proof. solve_decision. Defined.

Record Entity : Type := { ID : string; EAsset : Asset }.

Record RRHeader : Type := { RRType : Z }.

(** The relation of an edge, with the record type code of the DNS
    relations in its header. *)
Inductive Relation : Type :=
| BasicDNSRelation (Header : RRHeader)
| PrefDNSRelation (Header : RRHeader)
| SRVDNSRelation (Header : RRHeader)
| SimpleRelation (Name : string).

Record Edge : Type :=
  { ERelation : Relation; FromEntity : Entity; ToEntity : Entity }.

(** The repository interface as far as the traversal uses it. A call
    that comes back with [err != nil] is [None]; time stamps are
    instants on the integer line. A repository returns either an error
    or an entity, never [(nil, nil)]. *)
Record Repository : Type := {
  FindEntityById : string → option Entity;
  FindEntityByContent : Asset → Z → option (list Entity);
  OutgoingEdges : Entity → Z → string → option (list Edge)
}.

End OAM.

(** ** utils/addr.go *)

Module Addr.
Import GoStrings OAM.

Record NameAddrPair : Type := { PFQDN : string; PAddr : string }.

(** What a Go function leaves behind: a value, or a run-time panic (here
    the unchecked type assertion of [fqdn.Asset] to an FQDN). *)
Inductive outcome (A : Type) : Type :=
| Done (a : A)
| Panicked.
Arguments Done {A} a.
Arguments Panicked {A}.

Definition getAddr (db : Repository) (ip : Entity) (since : Z) : result string :=
  match FindEntityById db (ID ip) with
  | Some entity =>
      match EAsset entity with
      | IPAddress a => Ok a
      | _ => Err "failed to extract the IP address"
      end
  | None => Err "failed to extract the IP address"
  end.

Definition is_addr_type (rr : Z) : bool := (rr =? 1) || (rr =? 28).

(** The [for _, edge := range edges] loop of [oneMoreName]: the first
    basic relation of type A or AAAA decides, whatever [getAddr] says. *)
Fixpoint oneMoreName_edges (db : Repository) (since : Z) (edges : list Edge)
  : option (result string) :=
  match edges with
  | [] => None
  | edge :: rest =>
      match ERelation edge with
      | BasicDNSRelation h =>
          if is_addr_type (RRType h)
          then Some (getAddr db (ToEntity edge) since)
          else oneMoreName_edges db since rest
      | _ => oneMoreName_edges db since rest
      end
  end.

Definition oneMoreName (db : Repository) (fqdn : Entity) (since : Z)
  : result string :=
  match OutgoingEdges db fqdn since "dns_record" with
  | Some edges =>
      match oneMoreName_edges db since edges with
      | Some r => r
      | None => Err "failed to traverse the FQDN"
      end
  | None => Err "failed to traverse the FQDN"
  end.

(** The inner loop of [cnameQuery] over the edges of one node. *)
Inductive scan : Type :=
| ScanReturn (r : result string)   (* [return getAddr(...)] *)
| ScanFollow (next : Entity)       (* [next = edge.ToEntity; continue loop] *)
| ScanNone.                        (* the edges are exhausted *)

Fixpoint cname_scan (db : Repository) (since : Z) (edges : list Edge) : scan :=
  match edges with
  | [] => ScanNone
  | edge :: rest =>
      match ERelation edge with
      | BasicDNSRelation h =>
          if is_addr_type (RRType h)
          then ScanReturn (getAddr db (ToEntity edge) since)
          else if RRType h =? 5 then ScanFollow (ToEntity edge)
          else cname_scan db since rest
      | _ => cname_scan db since rest
      end
  end.

Definition traversal_failure : result string :=
  Err "failed to traverse the aliases".

(** The loop [for i := 0; i < 10; i++] of [cnameQuery], by recursion on
    the iterations that remain. Next to the result it hands back the
    nodes fetched with [FindEntityById], in order: the hops of the walk. *)
Fixpoint cname_walk (db : Repository) (since : Z) (remaining : nat)
    (set : gset string) (next : Entity) : result string * list Entity :=
  match remaining with
  | O => (traversal_failure, [])
  | S remaining' =>
      match FindEntityById db (ID next) with
      | None => (traversal_failure, [])
      | Some n =>
          if StringSet.Has set (Key (EAsset n)) then (traversal_failure, [n])
          else
            let set' := StringSet.Insert set (Key (EAsset n)) in
            let go next' :=
              let '(r, hops) := cname_walk db since remaining' set' next' in
              (r, n :: hops) in
            match OutgoingEdges db n since "dns_record" with
            | Some edges =>
                match cname_scan db since edges with
                | ScanReturn r => (r, [n])
                | ScanFollow next' => go next'
                | ScanNone => go next
                end
            | None => go next
            end
      end
  end.

Definition cnameQuery (db : Repository) (fqdn : Entity) (since : Z)
  : result string :=
  fst (cname_walk db since 10 StringSet.New fqdn).

Definition ok_addr (r : result string) : option string :=
  match r with Ok ip => Some ip | Err _ => None end.

(** One pass of the type switch of [NamesToAddrs] on an edge: the address
    when the branch taken ends in [err == nil], otherwise the loop goes
    on with the next edge. *)
Definition edge_addr (db : Repository) (since : Z) (edge : Edge) : option string :=
  match ERelation edge with
  | BasicDNSRelation h =>
      if is_addr_type (RRType h) then ok_addr (getAddr db (ToEntity edge) since)
      else if RRType h =? 5 then ok_addr (cnameQuery db (ToEntity edge) since)
      else None
  | PrefDNSRelation h =>
      if (RRType h =? 2) || (RRType h =? 15)
      then ok_addr (oneMoreName db (ToEntity edge) since)
      else None
  | SRVDNSRelation h =>
      if RRType h =? 33 then ok_addr (oneMoreName db (ToEntity edge) since)
      else None
  | SimpleRelation _ => None
  end.

Fixpoint edges_loop (db : Repository) (since : Z) (edges : list Edge)
  : option string :=
  match edges with
  | [] => None
  | edge :: rest =>
      match edge_addr db since edge with
      | Some ip => Some ip                         (* [continue loop] *)
      | None => edges_loop db since rest
      end
  end.

(** The first loop: a name is kept when the store knows exactly one
    entity for it. *)
Fixpoint locate (db : Repository) (since : Z) (names : list string) : list Entity :=
  match names with
  | [] => []
  | name :: rest =>
      match FindEntityByContent db (FQDN name) since with
      | Some [e] => e :: locate db since rest
      | _ => locate db since rest
      end
  end.

(** The loop labelled [loop] over the located entities. *)
Fixpoint names_loop (db : Repository) (since : Z) (fqdns : list Entity)
    (results : list NameAddrPair) : outcome (list NameAddrPair) :=
  match fqdns with
  | [] => Done results
  | fqdn :: rest =>
      match OutgoingEdges db fqdn since "dns_record" with
      | Some edges =>
          match edges_loop db since edges with
          | Some ip =>
              match EAsset fqdn with
              | FQDN n =>
                  names_loop db since rest
                    (results ++ [{| PFQDN := n; PAddr := ip |}])
              | _ => Panicked
              end
          | None => names_loop db since rest results
          end
      | None => names_loop db since rest results
      end
  end.

Definition NamesToAddrs (db : Repository) (since : Z) (names : list string)
  : outcome (list NameAddrPair) :=
  names_loop db since (locate db since names) [].

(** *** The traversal in the words of the specification *)

(** [ent] is the node of the address [ip]. *)
Definition AddressOf (db : Repository) (ent : Entity) (ip : string) : Prop :=
  ∃ entity, FindEntityById db (ID ent) = Some entity ∧ EAsset entity = IPAddress ip.

(** The record types: an address record (A, AAAA), an alias (CNAME), and
    the records that name another host (NS, MX, SRV). *)
Definition address_record (e : Edge) : Prop :=
  ∃ h, ERelation e = BasicDNSRelation h ∧ (RRType h = 1 ∨ RRType h = 28).

Definition alias_record (e : Edge) : Prop :=
  ∃ h, ERelation e = BasicDNSRelation h ∧ RRType h = 5.

Definition indirect_record (e : Edge) : Prop :=
  (∃ h, ERelation e = PrefDNSRelation h ∧ (RRType h = 2 ∨ RRType h = 15)) ∨
  (∃ h, ERelation e = SRVDNSRelation h ∧ RRType h = 33).

(** A name server record on a basic relation: the record has no
    preference value that would ask for a preference relation. *)
Definition basic_ns_record (e : Edge) : Prop :=
  ∃ h, ERelation e = BasicDNSRelation h ∧ RRType h = 2.

(** [e] is the first of [edges] with the property [P]. *)
Definition first_edge (P : Edge → Prop) (edges : list Edge) (e : Edge) : Prop :=
  ∃ pre post, edges = pre ++ e :: post ∧ P e ∧ Forall (λ e', ¬ P e') pre.

(** One more hop: the first address record of the referenced name. *)
Definition OneHop (db : Repository) (since : Z) (name : Entity) (ip : string) : Prop :=
  ∃ edges e,
    OutgoingEdges db name since "dns_record" = Some edges ∧
    first_edge address_record edges e ∧
    AddressOf db (ToEntity e) ip.

(** The alias chain from [next] ends in the address [ip] after at most
    [k] names, none of which has its key in [set] or occurs twice. At
    each name the first address or alias record decides. *)
Inductive AliasChain (db : Repository) (since : Z)
  : nat → gset string → Entity → string → Prop :=
| chain_end k set next n edges e ip :
    FindEntityById db (ID next) = Some n →
    StringSet.Has set (Key (EAsset n)) = false →
    OutgoingEdges db n since "dns_record" = Some edges →
    first_edge (λ e, address_record e ∨ alias_record e) edges e →
    address_record e →
    AddressOf db (ToEntity e) ip →
    AliasChain db since (S k) set next ip
| chain_step k set next n edges e ip :
    FindEntityById db (ID next) = Some n →
    StringSet.Has set (Key (EAsset n)) = false →
    OutgoingEdges db n since "dns_record" = Some edges →
    first_edge (λ e, address_record e ∨ alias_record e) edges e →
    alias_record e →
    AliasChain db since k (StringSet.Insert set (Key (EAsset n))) (ToEntity e) ip →
    AliasChain db since (S k) set next ip.

(** The edge [e] resolves to [ip] according to its record type. *)
Inductive Resolves (db : Repository) (since : Z) (e : Edge) (ip : string) : Prop :=
| resolves_address :
    address_record e → AddressOf db (ToEntity e) ip → Resolves db since e ip
| resolves_alias :
    alias_record e → AliasChain db since 10 StringSet.New (ToEntity e) ip →
    Resolves db since e ip
| resolves_indirect :
    indirect_record e → OneHop db since (ToEntity e) ip → Resolves db since e ip.

(** The store knows exactly the node [f] for [name]. *)
Definition Located (db : Repository) (since : Z) (name : string) (f : Entity) : Prop :=
  FindEntityByContent db (FQDN name) since = Some [f].

(** The nodes of a name are FQDN nodes. *)
Definition content_typed (db : Repository) (since : Z) : Prop :=
  ∀ name f, Located db since name f → ∃ n, EAsset f = FQDN n.

(** *** A store given by tables, for the examples *)

Definition assoc_find {A} (k : string) (l : list (string * A)) : option A :=
  snd <$> List.find (λ p, String.eqb (fst p) k) l.

Definition table_repo (entities : list (string * Entity))
    (edges : list (string * list Edge)) : Repository :=
  {| FindEntityById id := assoc_find id entities;
     FindEntityByContent a _ :=
       Some (List.filter (λ e, bool_decide (EAsset e = a)) (snd <$> entities));
     OutgoingEdges e _ label :=
       if String.eqb label "dns_record"
       then Some (default [] (assoc_find (ID e) edges)) else Some [] |}.

Definition name_entity (n : string) : Entity := {| ID := n; EAsset := FQDN n |}.
Definition addr_entity (a : string) : Entity := {| ID := a; EAsset := IPAddress a |}.
Definition dns_edge (rel : Relation) (from to : Entity) : Edge :=
  {| ERelation := rel; FromEntity := from; ToEntity := to |}.
Definition basic (rr : Z) : Relation := BasicDNSRelation {| RRType := rr |}.
Definition pref (rr : Z) : Relation := PrefDNSRelation {| RRType := rr |}.
Definition srv (rr : Z) : Relation := SRVDNSRelation {| RRType := rr |}.

(** The alias cycle [a → b → a]. *)
Definition cycle_repo : Repository :=
  let a := name_entity "a.example.com" in
  let b := name_entity "b.example.com" in
  table_repo [("a.example.com", a); ("b.example.com", b)]
             [("a.example.com", [dns_edge (basic 5) a b]);
              ("b.example.com", [dns_edge (basic 5) b a])].

(** [www] is an alias of [web], which has an address; [example.com] has a
    mail exchanger with an address of its own; [_sip._tcp] is a service
    record that names [web]. *)
Definition sample_repo : Repository :=
  let www := name_entity "www.example.com" in
  let web := name_entity "web.example.com" in
  let apex := name_entity "example.com" in
  let mx := name_entity "mx.example.com" in
  let sip := name_entity "_sip._tcp.example.com" in
  let ip1 := addr_entity "192.0.2.1" in
  let ip2 := addr_entity "192.0.2.2" in
  table_repo
    [("www.example.com", www); ("web.example.com", web);
     ("example.com", apex); ("mx.example.com", mx);
     ("_sip._tcp.example.com", sip);
     ("192.0.2.1", ip1); ("192.0.2.2", ip2)]
    [("www.example.com", [dns_edge (basic 5) www web]);
     ("web.example.com", [dns_edge (basic 1) web ip1]);
     ("example.com", [dns_edge (pref 15) apex mx]);
     ("mx.example.com", [dns_edge (basic 28) mx ip2]);
     ("_sip._tcp.example.com", [dns_edge (srv 33) sip web])].

(** A name server record twice: [ns-pref.example.com] carries it on a
    preference relation, [ns-basic.example.com] on a basic relation. *)
Definition ns_repo : Repository :=
  let p := name_entity "ns-pref.example.com" in
  let b := name_entity "ns-basic.example.com" in
  let ns := name_entity "ns1.example.net" in
  let ip := addr_entity "198.51.100.7" in
  table_repo
    [("ns-pref.example.com", p); ("ns-basic.example.com", b);
     ("ns1.example.net", ns); ("198.51.100.7", ip)]
    [("ns-pref.example.com", [dns_edge (pref 2) p ns]);
     ("ns-basic.example.com", [dns_edge (basic 2) b ns]);
     ("ns1.example.net", [dns_edge (basic 1) ns ip])].

End Addr.

(** ** engine/sessions: the session and the session manager *)

Module Sessions.

(** The [done chan struct{}] of a session. Nothing is ever sent on it; it
    is only closed, and closing it is the broadcast of the done-signal. *)
Inductive chan : Type := ChanOpen | ChanClosed.

(** [case <-c:] of a [select] with a [default]: a receive on a closed
    channel is ready at once, on an open one it is not. *)
Definition chan_ready (c : chan) : bool :=
  match c with ChanClosed => true | ChanOpen => false end.

(** [close(c)]; closing a closed channel panics ([None]). *)
Definition chan_close (c : chan) : option chan :=
  match c with ChanOpen => Some ChanClosed | ChanClosed => None end.

Record SessionStats : Type :=
  { WorkItemsCompleted : Z; WorkItemsTotal : Z }.

(** The graph store handle; [Close] may come back with an error. *)
Record DBHandle : Type := { close_error : option string }.

(** A session, as far as the manager looks at it. [c], [db] and [set] are
    [None] for a nil handle. *)
Record Session : Type := {
  id : string;
  c : option string;
  tmpdir : string;
  db : option DBHandle;
  set : option string;
  done : chan
}.

Definition with_done (s : Session) (d : chan) : Session :=
  {| id := id s; c := c s; tmpdir := tmpdir s; db := db s; set := set s;
     done := d |}.

(** What a call does to the world outside the registry. *)
Inductive effect : Type :=
| DoneBroadcast (sid : string)       (* [close(s.done)] *)
| SessionDelete (sid : string)       (* the call [s.Delete()] *)
| CacheClose (sid : string)          (* [c.Close()] *)
| RemoveAll (dir : string)           (* [os.RemoveAll(dir)] *)
| DBClose (sid : string)             (* [db.Close()] *)
| EventSetClose (sid : string)       (* [set.Close()] *)
| LogError (msg : string)
| LogInfo (msg : string).

(** The effects that give a resource of the session back. *)
Definition is_release (e : effect) : bool :=
  match e with
  | CacheClose _ | RemoveAll _ | DBClose _ | EventSetClose _ => true
  | _ => false
  end.

Definition Done (s : Session) : bool :=
  if chan_ready (done s) then true else false.

(** [Kill]: the session afterwards and the broadcasts made, or [None]
    for a panic. *)
Definition Kill (s : Session) : option (Session * list effect) :=
  if chan_ready (done s) then Some (s, [])
  else
    match chan_close (done s) with
    | Some d => Some (with_done s d, [DoneBroadcast (id s)])
    | None => None
    end.

(** [n] calls of [Kill] one after the other. *)
Fixpoint Kill_times (n : nat) (s : Session) : option (Session * list effect) :=
  match n with
  | O => Some (s, [])
  | S n' =>
      match Kill s with
      | Some (s1, ev1) =>
          match Kill_times n' s1 with
          | Some (s2, ev2) => Some (s2, ev1 ++ ev2)
          | None => None
          end
      | None => None
      end
  end.

Record manager : Type := {
  redis : string * string;
  sessions : gmap string Session
}.

Definition with_sessions (r : manager) (m : gmap string Session) : manager :=
  {| redis := redis r; sessions := m |}.

(** [NewManager] of engine/sessions/manager.go for given settings; [ping]
    is the answer of the Redis server to the connection check. *)
Definition NewManager_with (redisAddr redisPassword : string)
    (ping : result unit) : option manager * list effect :=
  if String.eqb redisAddr "" || String.eqb redisPassword "" then
    (None, [LogError "Redis address or password not set in environment variables"])
  else
    match ping with
    | Err _ => (None, [LogError "Failed to connect to Redis"])
    | Ok _ =>
        (Some {| redis := (redisAddr, redisPassword); sessions := ∅ |},
         [LogInfo "Successfully connected to Redis"])
    end.

Definition NewManager (ping : result unit) : option manager * list effect :=
  let redisAddr := "redis:6379" in
  let redisPassword := "amass4OWASP" in
  NewManager_with redisAddr redisPassword ping.

Definition AddSession (r : manager) (s : Session) : manager * string :=
  (with_sessions r (<[id s := s]> (sessions r)), id s).

Definition GetSession (r : manager) (sid : string) : option Session :=
  sessions r !! sid.

(** The ticker loop of [CancelSession]. Handlers move the counters while
    the manager waits; [ticks] are the values the loop reads, one per
    tick. [true]: the loop was left by [break]; [false]: the readings
    are used up and the loop is still waiting. *)
Fixpoint wait_quiescent (ticks : list SessionStats) : bool :=
  match ticks with
  | [] => false
  | ss :: rest =>
      if WorkItemsTotal ss =? WorkItemsCompleted ss then true
      else wait_quiescent rest
  end.

Inductive progress : Type :=
| Returned       (* the call has returned *)
| Waiting        (* the call is inside the ticker loop *)
| Panic.

Definition when {A} (b : bool) (l : list A) : list A := if b then l else [].

(** The part of [CancelSession] after the loop. *)
Definition release (r : manager) (sid : string) (s : Session)
  : progress * manager * list effect :=
  match sessions r !! sid with
  | None => (Panic, r, [])
  | Some s' =>
      let ev_c := when (bool_decide (is_Some (c s'))) [CacheClose sid] in
      let ev_dir :=
        when (negb (String.eqb (tmpdir s') "")) [RemoveAll (tmpdir s')] in
      let ev_db :=
        match db s with
        | Some h =>
            DBClose sid ::
            match close_error h with
            | Some err =>
                [LogError ("failed to close the database for session "
                           +:+ sid +:+ ": " +:+ err)]
            | None => []
            end
        | None => []
        end in
      let ev_set := when (bool_decide (is_Some (set s))) [EventSetClose sid] in
      (Returned, with_sessions r (delete sid (sessions r)),
       ev_c ++ ev_dir ++ ev_db ++ ev_set)
  end.

(** [Session.Delete] is declared in the interface of engine/types/sessions.go
    and called by the manager, but its body is not among the sources. What a
    call does to the outside is a parameter of [CancelSession]. *)
Definition delete_model : Type := Session → list effect.

(** Modelled from the spec: [Session.Delete], whose body is not among the
    sources. The specification has the session terminated on [Delete]:
    cache closed, temp directory removed, graph store connection closed.
    A nil handle and an empty directory name leave nothing to release;
    taking the session out of the registry is the manager's part. *)
Definition Delete_spec : delete_model :=
  λ s,
    when (bool_decide (is_Some (c s))) [CacheClose (id s)]
    ++ when (negb (String.eqb (tmpdir s) "")) [RemoveAll (tmpdir s)]
    ++ when (bool_decide (is_Some (db s))) [DBClose (id s)].

(** [CancelSession]. The session [s] and the registry entry are one
    object, so [Kill] shows in the registry. *)
Definition CancelSession (Delete : delete_model) (r : manager) (sid : string)
    (ticks : list SessionStats) : progress * manager * list effect :=
  match GetSession r sid with
  | None => (Returned, r, [])
  | Some s =>
      match Kill s with
      | None => (Panic, r, [])
      | Some (s1, ev_kill) =>
          let r1 := with_sessions r (<[sid := s1]> (sessions r)) in
          let ev := ev_kill ++ SessionDelete sid :: Delete s1 in
          if wait_quiescent ticks then
            let '(p, r2, ev_rel) := release r1 sid s1 in
            (p, r2, ev ++ ev_rel)
          else (Waiting, r1, ev)
      end
  end.

Definition busy (ss : SessionStats) : Prop :=
  WorkItemsCompleted ss < WorkItemsTotal ss.

Definition sample_session : Session :=
  {| id := "6f1c"; c := Some "cache"; tmpdir := "/tmp/amass-6f1c";
     db := Some {| close_error := None |}; set := Some "events";
     done := ChanOpen |}.

(** A [Delete] that only leaves a line in the log. *)
Definition sample_delete : delete_model :=
  λ s, [LogInfo ("session " +:+ id s +:+ " deleted")].

Definition sample_manager : manager :=
  fst (AddSession {| redis := ("redis:6379", "amass4OWASP"); sessions := ∅ |}
                  sample_session).

End Sessions.

(** ** engine/plugins/scrape: the LetItGo plugin *)

Module LetItGo.
Import GoStrings OAM.

(** The answer of the autodiscover service to one request, as the plugin
    sees it: the POST fails, the body is not the expected XML, or the
    [Domain] elements of the response are decoded. *)
Inductive soap_reply : Type :=
| PostFailed (err : string)
| DecodeFailed (err : string)
| Domains (ds : list string).

Record Source : Type := { SName : string; Confidence : Z }.

Definition source : Source := {| SName := "LetItGo"; Confidence := 100 |}.

Record Event : Type := { EName : string; EEntity : Entity }.

(** The session state the plugin reads and writes, and a record of what
    the plugin did to its surroundings. *)
Record World : Type := {
  now : Z;                                   (* the clock *)
  monitored : list (string * string * Z);    (* entity, source, time stamp *)
  cache : list string;                       (* the FQDN nodes, by name *)
  source_props : list (string * string);     (* source properties: entity, source *)
  scope : list string;                       (* the root domains *)
  soap_calls : list string;                  (* requests sent to the service *)
  dispatched : list string;                  (* events handed to the dispatcher *)
  processed : list (list Entity);            (* [ProcessFQDNsWithSource] calls *)
  log : list string
}.

(** What the plugin calls but does not define: the remote service, the
    public suffix list, the scope, the configured TTL, the failures of the
    store and of the dispatcher, the neighbours the cache remembers, and
    the order in which a Go map hands out its keys. *)
Record Env : Type := {
  soap : string → soap_reply;
  EffectiveTLDPlusOne : string → option string;
  IsAssetInScope : list string → string → option Asset * Z;
  TTLStartTime : Z → option Z;
  store_fails : string → bool;
  dispatch_fails : string → bool;
  SourceToAssetsWithinTTL : World → string → Z → list Entity;
  range_keys : gset string → list string
}.

Definition set_monitored (w : World) (m : list (string * string * Z)) : World :=
  {| now := now w; monitored := m; cache := cache w;
     source_props := source_props w; scope := scope w;
     soap_calls := soap_calls w; dispatched := dispatched w;
     processed := processed w; log := log w |}.
Definition set_cache (w : World) (c : list string) : World :=
  {| now := now w; monitored := monitored w; cache := c;
     source_props := source_props w; scope := scope w;
     soap_calls := soap_calls w; dispatched := dispatched w;
     processed := processed w; log := log w |}.
Definition set_scope (w : World) (sc : list string) : World :=
  {| now := now w; monitored := monitored w; cache := cache w;
     source_props := source_props w; scope := sc;
     soap_calls := soap_calls w; dispatched := dispatched w;
     processed := processed w; log := log w |}.
Definition add_soap_call (w : World) (name : string) : World :=
  {| now := now w; monitored := monitored w; cache := cache w;
     source_props := source_props w; scope := scope w;
     soap_calls := soap_calls w ++ [name]; dispatched := dispatched w;
     processed := processed w; log := log w |}.
Definition add_dispatched (w : World) (name : string) : World :=
  {| now := now w; monitored := monitored w; cache := cache w;
     source_props := source_props w; scope := scope w;
     soap_calls := soap_calls w; dispatched := dispatched w ++ [name];
     processed := processed w; log := log w |}.
Definition add_processed (w : World) (assets : list Entity) : World :=
  {| now := now w; monitored := monitored w; cache := cache w;
     source_props := source_props w; scope := scope w;
     soap_calls := soap_calls w; dispatched := dispatched w;
     processed := processed w ++ [assets]; log := log w |}.
Definition add_log (w : World) (msg : string) : World :=
  {| now := now w; monitored := monitored w; cache := cache w;
     source_props := source_props w; scope := scope w;
     soap_calls := soap_calls w; dispatched := dispatched w;
     processed := processed w; log := log w ++ [msg] |}.
Definition add_source_prop (w : World) (a : Entity) (src : Source) : World :=
  {| now := now w; monitored := monitored w; cache := cache w;
     source_props := source_props w ++ [(ID a, SName src)]; scope := scope w;
     soap_calls := soap_calls w; dispatched := dispatched w;
     processed := processed w; log := log w |}.
Definition set_now (w : World) (t : Z) : World :=
  {| now := t; monitored := monitored w; cache := cache w;
     source_props := source_props w; scope := scope w;
     soap_calls := soap_calls w; dispatched := dispatched w;
     processed := processed w; log := log w |}.

(** Modelled from the spec: [support.AssetMonitoredWithinTTL], which is
    not among the sources. True iff a property recorded by [source] on
    [asset] has a time stamp at or after [since]. The properties it reads
    are the marks of [MarkAssetMonitored], kept in [monitored]. *)
Definition AssetMonitoredWithinTTL (w : World) (asset : Entity) (src : Source)
    (since : Z) : bool :=
  existsb (λ '(a, s, t), String.eqb a (ID asset) && String.eqb s (SName src)
                         && (since <=? t))
          (monitored w).

(** Modelled from the spec: [support.MarkAssetMonitored], which is not
    among the sources. Writes a fresh provenance property stamped with the
    current time. *)
Definition MarkAssetMonitored (w : World) (asset : Entity) (src : Source) : World :=
  set_monitored w ((ID asset, SName src, now w) :: monitored w).

(** Modelled from the spec: [Cache.CreateAsset] for an FQDN, which is not
    among the sources. An idempotent upsert keyed by the content key: the
    node that is there is returned, a new one is made otherwise; it fails
    only when the backing store fails. *)
Definition CreateAsset (env : Env) (w : World) (name : string)
  : World * option Entity :=
  if store_fails env name then (w, None)
  else
    let node := {| ID := name; EAsset := FQDN name |} in
    if bool_decide (name ∈ cache w) then (w, Some node)
    else (set_cache w (cache w ++ [name]), Some node).

(** Modelled from the spec: [Scope.AddDomain], which is not among the
    sources. Inserts a root domain and tells whether it was new. *)
Definition AddDomain (w : World) (name : string) : World * bool :=
  if bool_decide (name ∈ scope w) then (w, false)
  else (set_scope w (scope w ++ [name]), true).

(** [process]: [support.ProcessFQDNsWithSource] takes the assets over. *)
Definition process (w : World) (assets : list Entity) : World :=
  add_processed w assets.

Definition lookup (env : Env) (w : World) (name : string) (since : Z) : list Entity :=
  SourceToAssetsWithinTTL env w name since.

(** [finish]: the end of every [check], [process] for a non-empty list. *)
Definition finish (w : World) (names : list Entity) : World * result unit :=
  if (0 <? length names)%nat then (process w names, Ok tt) else (w, Ok tt).

(** *** The variant with the TTL gate (check, query, store) *)

Module Gated.

(** The loop over the [Domain] elements of the response. *)
Fixpoint collect (env : Env) (ds : list string) (subs : gset string) : gset string :=
  match ds with
  | [] => subs
  | d :: rest =>
      if HasSuffix d "onmicrosoft.com" then collect env rest subs
      else
        match EffectiveTLDPlusOne env d with
        | Some bareDomain =>
            collect env rest (StringSet.Insert subs (ToLower bareDomain))
        | None => collect env rest subs
        end
  end.

Fixpoint store (env : Env) (w : World) (names : list string)
    (results : list Entity) : World * list Entity :=
  match names with
  | [] => (w, results)
  | name :: rest =>
      match CreateAsset env w name with
      | (w1, Some a) =>
          let w1 := add_source_prop w1 a source in
          let '(w2, added) := AddDomain w1 name in
          let w3 := if added then add_log w2 "Domain added to scope" else w2 in
          store env w3 rest (results ++ [a])
      | (w1, None) => store env (add_log w1 "store error") rest results
      end
  end.

(** The names [query] hands to [store]. *)
Definition stored_names (env : Env) (ds : list string) : list string :=
  StringSet.Slice (collect env ds StringSet.New).

Definition query (env : Env) (w : World) (e : option Event) (name : string)
  : World * result (list Entity) :=
  match e with
  | None => (add_log w "Invalid Event Or Session", Err "invalid event or session")
  | Some _ =>
      let w := add_soap_call w name in
      match soap env name with
      | PostFailed err => (w, Err err)
      | DecodeFailed err => (w, Err ("failed to parse XML: " +:+ err))
      | Domains ds =>
          let subs := collect env ds StringSet.New in
          if (StringSet.Len subs =? 0)%nat
          then (w, Err "no valid domains found")
          else
            let '(w', entities) := store env w (StringSet.Slice subs) [] in
            (w', Ok entities)
      end
  end.

Definition check (env : Env) (w : World) (e : Event) : World * result unit :=
  match EAsset (EEntity e) with
  | FQDN name =>
      match IsAssetInScope env (scope w) name with
      | (Some (FQDN f), conf) =>
          if (conf =? 0) || negb (EqualFold name f) then (w, Ok tt)
          else
            match TTLStartTime env (now w) with
            | None => (w, Err "TTLStartTime")
            | Some since =>
                if AssetMonitoredWithinTTL w (EEntity e) source since then
                  finish w (lookup env w name since)
                else
                  match query env w (Some e) name with
                  | (w1, Err _) => (add_log w1 "Query failed", Ok tt)
                  | (w1, Ok entities) =>
                      finish (MarkAssetMonitored w1 (EEntity e) source) entities
                  end
            end
      | _ => (w, Ok tt)
      end
  | _ => (w, Err "failed to extract the FQDN asset")
  end.

End Gated.

(** *** engine/plugins/scrape/letitgo.go: the variant without the gate *)

Module Plain.

(** [support.StoreFQDNsWithSource] is not among the sources, and the
    specification does not describe it. It is a parameter of this variant:
    from the nodes of the cache and the names it is given, the nodes of
    the cache afterwards and the entities it hands back, nil entries
    among them. *)
Definition store_helper : Type :=
  list string → list string → list string * list (option Entity).

(** The loop over the [Domain] elements of the response. *)
Fixpoint collect (ds : list string) (subs : gset string) : gset string :=
  match ds with
  | [] => subs
  | d :: rest => collect rest (StringSet.Insert subs (ToLower d))
  end.

(** The names [query] hands to [store]. *)
Definition stored_names (ds : list string) : list string :=
  StringSet.Slice (collect ds StringSet.New).

(** [store]: the entities are those of the helper for the names. The loop
    over them that follows adds edges from the event entity and hands the
    entities back as they are; it is [link] of the module [Associated]. *)
Definition store (helper : store_helper) (w : World) (names : list string)
  : World * list (option Entity) :=
  let '(nodes, entities) := helper (cache w) names in
  (set_cache w nodes, entities).

Definition query (helper : store_helper) (env : Env) (w : World)
    (e : option Event) (name : string)
  : World * result (list (option Entity)) :=
  match e with
  | None => (add_log w "Invalid Event Or Session", Err "invalid event or session")
  | Some _ =>
      let w := add_soap_call w name in
      match soap env name with
      | PostFailed err => (w, Err err)
      | DecodeFailed err => (w, Err err)
      | Domains ds =>
          let subs := collect ds StringSet.New in
          if (StringSet.Len subs =? 0)%nat
          then (w, Err "no valid domains found")
          else
            let '(w', entities) := store helper w (StringSet.Slice subs) in
            (w', Ok entities)
      end
  end.

(** The event entity is taken for an FQDN without a test; on another asset
    the type assertion panics, which the last branch stands for. [process]
    is given the entities as the helper returned them, nil entries
    included: the list is handed back beside the world, [None] when
    [process] is not called. *)
Definition check (helper : store_helper) (env : Env) (w : World) (e : Event)
  : World * option (list (option Entity)) * result unit :=
  match EAsset (EEntity e) with
  | FQDN name =>
      match query helper env w (Some e) name with
      | (w1, Err _) => (add_log w1 "Query failed", None, Ok tt)
      | (w1, Ok entities) =>
          let w2 := MarkAssetMonitored w1 (EEntity e) source in
          if (0 <? length entities)%nat then (w2, Some entities, Ok tt)
          else (w2, None, Ok tt)
      end
  | _ => (w, None, Err "panic: interface conversion")
  end.

End Plain.

(** *** The variant that re-submits what it finds ([Run]) *)

Module Resubmit.

(** [bareDomains[strings.ToLower(bareDomain)] = true] for every domain of
    the response that passes the filter. *)
Fixpoint bare_domains (env : Env) (ds : list string) (m : gset string) : gset string :=
  match ds with
  | [] => m
  | d :: rest =>
      if HasSuffix d "onmicrosoft.com" then bare_domains env rest m
      else
        match EffectiveTLDPlusOne env d with
        | Some bareDomain => bare_domains env rest ({[ ToLower bareDomain ]} ∪ m)
        | None => bare_domains env rest m
        end
  end.

(** [for bareDomain := range bareDomains]: scope check, node, new event. *)
Fixpoint resubmit (env : Env) (w : World) (keys : list string)
  : World * result unit :=
  match keys with
  | [] => (w, Ok tt)
  | bareDomain :: rest =>
      let '(_, conf) := IsAssetInScope env (scope w) bareDomain in
      if 0 <? conf then
        match CreateAsset env w bareDomain with
        | (w1, Some entity) =>
            let w2 := add_dispatched w1 bareDomain in
            if dispatch_fails env bareDomain then (w2, Err "DispatchEvent")
            else resubmit env w2 rest
        | (w1, None) => resubmit env w1 rest
        end
      else resubmit env w rest
  end.

Definition Run (env : Env) (w : World) (e : Event) : World * result unit :=
  let w := add_soap_call w (EName e) in
  match soap env (EName e) with
  | PostFailed err => (w, Err err)
  | DecodeFailed err => (w, Err ("failed to parse XML: " +:+ err))
  | Domains ds =>
      resubmit env w (range_keys env (bare_domains env ds ∅))
  end.

End Resubmit.

(** *** Surroundings for the examples *)

(** The last two labels of a name: the effective TLD plus one when the
    public suffix is the last label, as for the suffixes [com] and [org];
    the longer suffixes of the list are left aside. *)
Definition last_two_labels (d : string) : option string :=
  match reverse (SplitDot d) with
  | tld :: sld :: _ =>
      if String.eqb tld "" || String.eqb sld "" then None
      else Some (sld +:+ "." +:+ tld)
  | _ => None
  end.

(** Confidence 100 for a root domain itself, 50 below one, 0 otherwise. *)
Fixpoint scope_confidence (roots : list string) (name : string) : option Asset * Z :=
  match roots with
  | [] => (None, 0)
  | r :: rest =>
      if EqualFold name r then (Some (FQDN r), 100)
      else if HasSuffix (ToLower name) ("." +:+ ToLower r) then (Some (FQDN r), 50)
      else scope_confidence rest name
  end.

Definition sample_env (reply : string → soap_reply) : Env :=
  {| soap := reply;
     EffectiveTLDPlusOne := last_two_labels;
     IsAssetInScope := scope_confidence;
     TTLStartTime t := Some (t - 1440);
     store_fails _ := false;
     dispatch_fails _ := false;
     SourceToAssetsWithinTTL _ _ _ := [];
     range_keys := elements |}.

(** A helper for the examples: a node for every name, all of them put
    into the cache. *)
Definition sample_helper : Plain.store_helper :=
  λ nodes names,
    (nodes ++ names, (λ n, Some {| ID := n; EAsset := FQDN n |}) <$> names).

Definition start_world : World :=
  {| now := 10000; monitored := []; cache := ["example.com"];
     source_props := []; scope := ["example.com"]; soap_calls := []; dispatched := [];
     processed := []; log := [] |}.

Definition seed_event : Event :=
  {| EName := "example.com";
     EEntity := {| ID := "example.com"; EAsset := FQDN "example.com" |} |}.

End LetItGo.

(** ** utils/addr.go: the prefixes of an autonomous system *)

Module Prefixes.
Import OAM.

(** The [*assetdb.AssetDB] handle: the repository behind it, and the two
    look-ups that the code makes on the handle itself. A call that comes
    back with [err != nil] is [None]. *)
Record AssetDB : Type := {
  Repo : Repository;
  (* [db.FindByContent(&network.AutonomousSystem{Number: asn}, since)] *)
  FindByContent_AS : Z → Z → option (list Entity);
  (* [db.FindByScope(fqdns, since)] *)
  FindByScope : list Asset → Z → option (list Entity)
}.

(** The [for _, edge := range edges] loop: the target of an edge that
    cannot be fetched is passed over, and so is one that is no netblock. *)
Fixpoint prefixes_loop (db : AssetDB) (edges : list Edge) (prefixes : list string)
  : list string :=
  match edges with
  | [] => prefixes
  | edge :: rest =>
      match FindEntityById (Repo db) (ID (ToEntity edge)) with
      | None => prefixes_loop db rest prefixes                    (* [continue] *)
      | Some a =>
          match EAsset a with
          | Netblock cidr => prefixes_loop db rest (prefixes ++ [cidr])
          | _ => prefixes_loop db rest prefixes
          end
      end
  end.

Definition ReadASPrefixes (db : AssetDB) (asn : Z) (since : Z) : list string :=
  match FindByContent_AS db asn since with
  | Some [fqdn] =>
      match OutgoingEdges (Repo db) fqdn since "announces" with
      | Some edges => prefixes_loop db edges []
      | None => []
      end
  | _ => []
  end.

(** A store given by tables: the nodes by id, the [dns_record] and the
    [announces] edges by the id of the node they leave, and the nodes of
    the autonomous systems by number. A scope query finds every node. *)
Definition table_db (entities : list (string * Entity))
    (dns announces : list (string * list Edge))
    (systems : list (Z * list Entity)) : AssetDB :=
  {| Repo :=
       {| FindEntityById id := Addr.assoc_find id entities;
          FindEntityByContent a _ :=
            Some (List.filter (λ e, bool_decide (EAsset e = a)) (snd <$> entities));
          OutgoingEdges e _ label :=
            if String.eqb label "announces"
            then Some (default [] (Addr.assoc_find (ID e) announces))
            else if String.eqb label "dns_record"
            then Some (default [] (Addr.assoc_find (ID e) dns))
            else Some [] |};
     FindByContent_AS asn _ :=
       Some (default [] (snd <$> List.find (λ p, fst p =? asn) systems));
     FindByScope _ _ := Some (snd <$> entities) |}.

(** AS 64500 announces two netblocks; one of its edges points at a node
    the store cannot fetch, another at a node that is a name. The node of
    the system itself is of a kind that the loop never looks at. *)
Definition sample_as_db : AssetDB :=
  let asnode := {| ID := "as64500"; EAsset := ContactRecord "AS64500" |} in
  let nb1 := {| ID := "nb1"; EAsset := Netblock "192.0.2.0/24" |} in
  let nb2 := {| ID := "nb2"; EAsset := Netblock "198.51.100.0/24" |} in
  let gone := {| ID := "gone"; EAsset := Netblock "203.0.113.0/24" |} in
  let name := Addr.name_entity "example.com" in
  table_db
    [("as64500", asnode); ("nb1", nb1); ("nb2", nb2); ("example.com", name)]
    []
    [("as64500",
      [Addr.dns_edge (SimpleRelation "announces") asnode nb1;
       Addr.dns_edge (SimpleRelation "announces") asnode gone;
       Addr.dns_edge (SimpleRelation "announces") asnode name;
       Addr.dns_edge (SimpleRelation "announces") asnode nb2])]
    [(64500, [asnode])].

(** Three names, one of them a second time in capitals, and an address:
    [www] has an address record, [mail] has none. *)
Definition sample_names_db : AssetDB :=
  let www := Addr.name_entity "www.example.com" in
  let caps := {| ID := "caps"; EAsset := FQDN "WWW.Example.com" |} in
  let mail := Addr.name_entity "mail.example.com" in
  let other := Addr.name_entity "www.example.org" in
  let ip := Addr.addr_entity "192.0.2.1" in
  table_db
    [("www.example.com", www); ("caps", caps); ("mail.example.com", mail);
     ("www.example.org", other); ("192.0.2.1", ip)]
    [("www.example.com", [Addr.dns_edge (Addr.basic 1) www ip]);
     ("www.example.org", [Addr.dns_edge (Addr.basic 1) other ip])]
    [] [].

End Prefixes.

(** ** A store for the examples of [oneMoreName] *)

Module AddrSamples.
Import OAM Addr.

Definition ns_node : Entity := name_entity "ns.example.com".
Definition web_node : Entity := name_entity "web.example.com".
Definition ip_node : Entity := addr_entity "192.0.2.1".

(** The name server has an alias, then an address record that points at
    a name, then an address record that points at an address. *)
Definition hidden_repo : Repository :=
  table_repo [("ns.example.com", ns_node); ("web.example.com", web_node);
              ("192.0.2.1", ip_node)]
             [("ns.example.com",
               [dns_edge (basic 5) ns_node web_node;
                dns_edge (basic 1) ns_node web_node;
                dns_edge (basic 28) ns_node ip_node])].

End AddrSamples.

(** ** cmd/amass/subs.go: the names, their addresses, and the listing *)

Module SubsData.
Import GoStrings OAM Addr Prefixes.

(** [time.Time{}], the zero instant that the command passes as [since]. *)
Definition qtime : Z := 0.

(** [utils.AddressInfo]. [Address] is a [net.IP] and [Netblock] a
    [*net.IPNet], both in their printed form, [None] for nil. *)
Record AddressInfo : Type := {
  Address : option string;
  ASN : Z;
  CIDRStr : string;
  AINetblock : option string;
  Description : string
}.

(** [utils.Output], as far as the command reads and writes it. *)
Record Output : Type := { Name : string; Addresses : list AddressInfo }.

Definition with_Addresses (o : Output) (addrs : list AddressInfo) : Output :=
  {| Name := Name o; Addresses := addrs |}.

(** [net.IP.String()]; the nil address prints as ["<nil>"]. *)
Definition IP_String (ip : option string) : string := default "<nil>" ip.

(** What [cache.AddrSearch] hands back: the fields of [utils.ASNRequest]
    that are copied. *)
Record ASNRequest : Type := { Prefix : string; ReqASN : Z; ReqDescription : string }.

(** [utils.ASNCache], which is not among the sources: its search. *)
Record ASNCache : Type := { AddrSearch : string → option ASNRequest }.

(** What the command calls but does not define. *)
Record Env : Type := {
  ParseIP : string → option string;                 (* [net.ParseIP], nil: [None] *)
  ParseCIDR : string → option string;               (* the network of [net.ParseCIDR] *)
  range_lookup : gmap string Output → list (string * Output);
                                                    (* [for _, o := range lookup] *)
  Slice : gset string → list string;                (* [args.Domains.Slice()] *)
  FillCache : AssetDB → result ASNCache;            (* [utils.FillCache] *)
  DesiredAddrTypes : list AddressInfo → bool → bool → list AddressInfo;
  OutputLineParts : Output → bool → bool → string * string;
  Green : string → string;
  Yellow : string → string;
  open_error : string → option string               (* [os.OpenFile] failing *)
}.

(** A Go map hands out every entry once, in an order of its own. *)
Definition map_order (env : Env) : Prop :=
  ∀ m, range_lookup env m ≡ₚ map_to_list m.

(** *** [getNames] *)

(** The loop over the assets found, with the [filter] of names seen. *)
Fixpoint names_of (assets : list Entity) (filter : gset string) (names : list Output)
  : list Output :=
  match assets with
  | [] => names
  | a :: rest =>
      match EAsset a with
      | FQDN n =>
          if negb (StringSet.Has filter n)
          then names_of rest (StringSet.Insert filter n)
                        (names ++ [{| Name := n; Addresses := [] |}])
          else names_of rest filter names
      | _ => names_of rest filter names
      end
  end.

Definition getNames (db : AssetDB) (domains : list string) (asninfo : bool)
  : list Output :=
  if (length domains =? 0)%nat then []
  else
    match FindByScope db (FQDN <$> domains) qtime with
    | None => []
    | Some assets => names_of assets StringSet.New []
    end.

(** *** [addInfrastructureInfo] *)

(** The loop over the addresses of one output. *)
Fixpoint infra_addrs (env : Env) (cache : ASNCache) (addrs newaddrs : list AddressInfo)
  : list AddressInfo :=
  match addrs with
  | [] => newaddrs
  | a :: rest =>
      match AddrSearch cache (IP_String (Address a)) with
      | None => infra_addrs env cache rest newaddrs               (* [continue] *)
      | Some i =>
          infra_addrs env cache rest
            (newaddrs ++ [{| Address := Address a;
                             ASN := ReqASN i;
                             CIDRStr := Prefix i;
                             AINetblock := ParseCIDR env (Prefix i);
                             Description := ReqDescription i |}])
      end
  end.

Fixpoint infra_loop (env : Env) (cache : ASNCache) (entries : list (string * Output))
    (output : list Output) : list Output :=
  match entries with
  | [] => output
  | (_, o) :: rest =>
      let o := with_Addresses o (infra_addrs env cache (Addresses o) []) in
      if (0 <? length (Addresses o))%nat
      then infra_loop env cache rest (output ++ [o])
      else infra_loop env cache rest output
  end.

Definition addInfrastructureInfo (env : Env) (lookup : gmap string Output)
    (cache : ASNCache) : list Output :=
  infra_loop env cache (range_lookup env lookup) [].

(** *** [addAddresses] *)

(** The first loop: [lookup[n.Name] = n] and the list of the names. *)
Fixpoint index_names (names : list Output) (lookup : gmap string Output)
    (namestrs : list string) : gmap string Output * list string :=
  match names with
  | [] => (lookup, namestrs)
  | n :: rest => index_names rest (<[Name n := n]> lookup) (namestrs ++ [Name n])
  end.

(** The loop over the pairs: the output found under the name of the pair
    gets the address appended. The map holds pointers, so the entry under
    that name is the one that changes. *)
Fixpoint add_pairs (env : Env) (pairs : list NameAddrPair) (lookup : gmap string Output)
  : gmap string Output :=
  match pairs with
  | [] => lookup
  | p :: rest =>
      let addr := PAddr p in
      if String.eqb (PFQDN p) "" || String.eqb addr "" then add_pairs env rest lookup
      else
        match lookup !! PFQDN p with
        | Some o =>
            let o := with_Addresses o
                       (Addresses o ++ [{| Address := ParseIP env addr; ASN := 0;
                                           CIDRStr := ""; AINetblock := None;
                                           Description := "" |}]) in
            add_pairs env rest (<[PFQDN p := o]> lookup)
        | None => add_pairs env rest lookup
        end
  end.

(** [for _, o := range lookup] with [len(o.Addresses) > 0]. *)
Fixpoint with_addresses (entries : list (string * Output)) (output : list Output)
  : list Output :=
  match entries with
  | [] => output
  | (_, o) :: rest =>
      if (0 <? length (Addresses o))%nat
      then with_addresses rest (output ++ [o])
      else with_addresses rest output
  end.

Definition addAddresses (env : Env) (db : AssetDB) (names : list Output)
    (asninfo : bool) (cache : option ASNCache) : outcome (list Output) :=
  let '(lookup, namestrs) := index_names names ∅ [] in
  match NamesToAddrs (Repo db) qtime namestrs with
  | Panicked => Panicked
  | Done pairs =>
      let lookup := add_pairs env pairs lookup in
      match asninfo, cache with
      | true, Some cache => Done (addInfrastructureInfo env lookup cache)
      | _, _ => Done (with_addresses (range_lookup env lookup) [])
      end
  end.

(** *** [showData] *)

Record Options : Type := {
  DemoMode : bool; IPs : bool; IPv4 : bool; IPv6 : bool;
  ASNTableSummary : bool; DiscoveredNames : bool; NoColor : bool;
  ShowAll : bool; Silent : bool
}.

Record subsArgs : Type := {
  Domains : gset string;
  Opts : Options;
  TermOut : string                    (* [Filepaths.TermOut] *)
}.

Inductive writer : Type :=
| Outfile              (* the file of [-o] *)
| ColorOutput          (* [color.Output] *)
| ColorError.          (* [color.Error] *)

(** What [showData] does to its surroundings. *)
Inductive io : Type :=
| OpenFile (path : string)
| TruncateSeek                         (* [outfile.Truncate(0)], [outfile.Seek(0, 0)] *)
| SyncClose                            (* the deferred [Sync] and [Close] *)
| Fprint (w : writer) (text : string)
| NameLine (w : writer) (name ips : string)   (* [Fprintf(w, "%s%s\n", name, ips)] *)
| EnumerationSummary (w : writer) (total : Z) (asns : list Output)
                     (demo nocolor : bool)
| Exit (code : Z)
| GoPanic.

Definition nl : string := String (Ascii.ascii_of_nat 10) EmptyString.

(** [out.Addresses = afmt.DesiredAddrTypes(...)] when a family is asked
    for. *)
Definition desired (env : Env) (opts : Options) (out : Output) : Output :=
  if IPv4 opts || IPv6 opts
  then with_Addresses out
         (DesiredAddrTypes env (Addresses out) (IPv4 opts) (IPv6 opts))
  else out.

(** The line of one name: into the file when there is one, in colour on
    the terminal otherwise, and only when the names are asked for. *)
Definition print_name (env : Env) (opts : Options) (outfile : bool) (out : Output)
  : list io :=
  let '(name, ips) :=
    OutputLineParts env out (IPv4 opts || IPv6 opts) (DemoMode opts) in
  let ips := if negb (String.eqb ips "") then " " +:+ ips else ips in
  if DiscoveredNames opts then
    if outfile then [NameLine Outfile name ips]
    else [NameLine ColorOutput (Green env name) (Yellow env ips)]
  else [].

(** The loop over the names. [asns] is the summary table, kept as the
    outputs that [afmt.UpdateSummaryData] was called with. *)
Fixpoint show_loop (env : Env) (opts : Options) (domains : list string)
    (outfile : bool) (names : list Output)
    (total : Z) (asns : list Output) (ev : list io) : Z * list Output * list io :=
  match names with
  | [] => (total, asns, ev)
  | out :: rest =>
      if (0 <? length domains)%nat && negb (Subs.domainNameInScope (Name out) domains)
      then show_loop env opts domains outfile rest total asns ev     (* [continue] *)
      else
        let out := desired env opts out in
        let l := length (Addresses out) in
        if (IPv4 opts || IPv6 opts) && (l =? 0)%nat
        then show_loop env opts domains outfile rest total asns ev   (* [continue] *)
        else
          let asns := if (0 <? l)%nat then asns ++ [out] else asns in
          show_loop env opts domains outfile rest (total + 1) asns
                    (ev ++ print_name env opts outfile out)
  end.

(** [showData] after the output file is settled: [outfile] tells whether
    there is one. A panic of [NamesToAddrs] ends the listing. *)
Definition show_names (env : Env) (args : subsArgs) (asninfo : bool) (db : AssetDB)
    (nocolor : bool) (domains : list string) (outfile : bool) : list io :=
  let opts := Opts args in
  let continue (cache : option ASNCache) : list io :=
    let names := getNames db domains asninfo in
    let names :=
      if negb (length names =? 0)%nat && (asninfo || IPv4 opts || IPv6 opts)
      then addAddresses env db names asninfo cache
      else Done names in
    match names with
    | Panicked => [GoPanic]
    | Done names =>
        let '(total, asns, ev) := show_loop env opts domains outfile names 0 [] [] in
        if total =? 0 then ev ++ [Fprint ColorOutput ("No names were discovered" +:+ nl)]
        else if ASNTableSummary opts then
          let out :=
            if outfile then Outfile
            else if ShowAll opts then ColorError else ColorOutput in
          ev ++ [EnumerationSummary out total asns (DemoMode opts)
                                    (if outfile then true else nocolor)]
        else ev
    end in
  if asninfo then
    match FillCache env db with
    | Err err =>
        [Fprint ColorOutput ("Failed to populate the ASN cache: " +:+ err +:+ nl)]
    | Ok cache => continue (Some cache)
    end
  else continue None.

(** The deferred [Sync] and [Close] run at every return, and while a panic
    unwinds; [os.Exit] leaves them out. *)
Definition showData (env : Env) (args : subsArgs) (asninfo : bool) (db : AssetDB)
    (nocolor : bool) : list io :=
  let domains := Slice env (Domains args) in
  if negb (String.eqb (TermOut args) "") then
    match open_error env (TermOut args) with
    | Some err =>
        [OpenFile (TermOut args);
         Fprint ColorError ("Failed to open the text output file: " +:+ err +:+ nl);
         Exit 1]
    | None =>
        let ev := show_names env args asninfo db nocolor domains true in
        [OpenFile (TermOut args); TruncateSeek] ++ ev ++ [SyncClose]
    end
  else show_names env args asninfo db nocolor domains false.

(** Surroundings for the examples: addresses parse as they are, the map
    is ranged over in the order of its keys, and a line is the name
    followed by its addresses. *)
Definition sample_env : Env :=
  {| ParseIP a := Some a;
     ParseCIDR p := Some p;
     range_lookup := map_to_list;
     Slice := elements;
     FillCache _ := Ok {| AddrSearch _ := None |};
     DesiredAddrTypes addrs _ _ := addrs;
     OutputLineParts o _ _ :=
       (Name o, String.concat "," (IP_String ∘ Address <$> Addresses o));
     Green s := s;
     Yellow s := s;
     open_error _ := None |}.

(** *** For the statements about the names and addresses *)

(** The names of the outputs in lower case. *)
Definition lowered (names : list Output) : list string :=
  (λ o, ToLower (Name o)) <$> names.

(** Every output sits in the map under its own name. *)
Definition keyed (m : gmap string Output) : Prop :=
  ∀ k o, m !! k = Some o → Name o = k.

(** The map that the first loop of [addAddresses] builds. *)
Definition indexed (names : list Output) (lookup : gmap string Output)
  : gmap string Output :=
  foldl (λ m n, <[Name n := n]> m) lookup names.

(** The address entry that a pair leaves. *)
Definition parsed (env : Env) (p : NameAddrPair) : AddressInfo :=
  {| Address := ParseIP env (PAddr p); ASN := 0; CIDRStr := ""; AINetblock := None;
     Description := "" |}.

(** The entries that the pairs leave under the name [k]. *)
Definition found (env : Env) (pairs : list NameAddrPair) (k : string)
  : list AddressInfo :=
  omap (λ p, if String.eqb (PFQDN p) "" || String.eqb (PAddr p) "" then None
             else if String.eqb (PFQDN p) k then Some (parsed env p) else None)
       pairs.

(** [len(o.Addresses) > 0] *)
Definition has_address (o : Output) : bool := (0 <? length (Addresses o))%nat.

(** The entry an address gets from the cache. *)
Definition enriched (env : Env) (a : AddressInfo) (i : ASNRequest) : AddressInfo :=
  {| Address := Address a; ASN := ReqASN i; CIDRStr := Prefix i;
     AINetblock := ParseCIDR env (Prefix i); Description := ReqDescription i |}.

(** One output after the search. *)
Definition searched (env : Env) (cache : ASNCache) (o : Output) : Output :=
  with_Addresses o (infra_addrs env cache (Addresses o) []).

(** The outputs that the loop lists: the names in scope, with the
    addresses asked for, less those that have none when a family is asked
    for. *)
Definition listed (env : Env) (opts : Options) (domains : list string)
    (names : list Output) : list Output :=
  omap (λ out,
          if (0 <? length domains)%nat
             && negb (Subs.domainNameInScope (Name out) domains)
          then None
          else if (IPv4 opts || IPv6 opts)
                  && (length (Addresses (desired env opts out)) =? 0)%nat
          then None
          else Some (desired env opts out))
       names.

(** A cache that knows the addresses of [192.0.2.0/24] only. *)
Definition doc_cache : ASNCache :=
  {| AddrSearch a :=
       if String.prefix "192.0.2." a
       then Some {| Prefix := "192.0.2.0/24"; ReqASN := 64500;
                    ReqDescription := "DOC-NET" |}
       else None |}.

(** Two names: one with an address the cache knows and one it does not
    know, the other with an address it does not know. *)
Definition doc_lookup : gmap string Output :=
  let addr a := {| Address := Some a; ASN := 0; CIDRStr := ""; AINetblock := None;
                   Description := "" |} in
  <["www.example.com" := {| Name := "www.example.com";
                             Addresses := [addr "192.0.2.1"; addr "203.0.113.9"] |}]>
  (<["mail.example.com" := {| Name := "mail.example.com";
                               Addresses := [addr "203.0.113.25"] |}]> ∅).

(** [subs -names -d example.com] *)
Definition names_args : subsArgs :=
  {| Domains := {[ "example.com" ]};
     Opts := {| DemoMode := false; IPs := false; IPv4 := false; IPv6 := false;
                ASNTableSummary := false; DiscoveredNames := true;
                NoColor := false; ShowAll := false; Silent := false |};
     TermOut := "" |}.

(** [subs -names -ip -d example.com -o out.txt] *)
Definition addrs_args : subsArgs :=
  {| Domains := {[ "example.com" ]};
     Opts := {| DemoMode := false; IPs := true; IPv4 := true; IPv6 := true;
                ASNTableSummary := false; DiscoveredNames := true;
                NoColor := false; ShowAll := false; Silent := false |};
     TermOut := "out.txt" |}.

End SubsData.

(** ** engine/sessions/manager.go: the rest of the session manager *)

Module Manager.
Import Sessions.

(** What a caller hands over as an [et.Session]: nil, a [*Session] of
    this package, or a value of another type behind the interface. *)
Inductive session_arg : Type :=
| NilSession
| ForeignSession
| EngineSession (s : Session).

(** [uuid.UUID{}] *)
Definition zero_uuid : string := "00000000-0000-0000-0000-000000000000".

(** [AddSession]; the error it returns is nil on every path. *)
Definition AddSession (r : manager) (s : session_arg) : manager * string :=
  match s with
  | NilSession => (r, zero_uuid)
  | ForeignSession => (r, zero_uuid)
  | EngineSession sess => Sessions.AddSession r sess
  end.

(** [manager.NewSession]. The constructor [NewSession(cfg, r.redis)] of the
    package is not among the sources; [create] is what it returns. *)
Definition NewSession (create : result Session) (r : manager)
  : manager * result Session * list effect :=
  match create with
  | Err err => (r, Err err, [LogError "Failed to create new session"])
  | Ok s =>
      let '(r, _) := AddSession r (EngineSession s) in
      (with_sessions r (<[id s := s]> (sessions r)), Ok s, [])
  end.

(** The loop of [Shutdown] over the entries in the order [range] hands
    them out: [Kill], [Delete], and the entry leaves the map. *)
Fixpoint shutdown_loop (Delete : delete_model) (entries : list (string * Session))
    (m : gmap string Session) : option (gmap string Session * list effect) :=
  match entries with
  | [] => Some (m, [])
  | (sid, s) :: rest =>
      match Kill s with
      | None => None
      | Some (s1, ev_kill) =>
          match shutdown_loop Delete rest (delete sid m) with
          | Some (m', ev) =>
              Some (m', ev_kill ++ SessionDelete sid :: Delete s1 ++ ev)
          | None => None
          end
      end
  end.

(** [Shutdown]; [range_sessions] is the order in which the Go map hands
    out its entries. [None] stands for a panic. *)
Definition Shutdown (range_sessions : gmap string Session → list (string * Session))
    (Delete : delete_model) (r : manager) : option (manager * list effect) :=
  match shutdown_loop Delete (range_sessions (sessions r)) (sessions r) with
  | Some (m, ev) => Some (with_sessions r m, ev)
  | None => None
  end.

Definition second_session : Session :=
  {| id := "a2b7"; c := None; tmpdir := ""; db := None; set := None;
     done := ChanClosed |}.

Definition two_sessions : manager :=
  fst (Sessions.AddSession sample_manager second_session).

End Manager.

(** ** The graph store of a session ([selectDBMS], [setupDB]) *)

Module SessionDB.
Import GoStrings.

(** [config.Database], the fields that make the connection string. *)
Record Database : Type := {
  Primary : bool;
  System : string;
  Host : string;
  Port : string;
  Username : string;
  Password : string;
  DBName : string
}.

Definition with_System (d : Database) (sys : string) : Database :=
  {| Primary := Primary d; System := sys; Host := Host d; Port := Port d;
     Username := Username d; Password := Password d; DBName := DBName d |}.

(** [config.Config]: [GraphDBs] is [None] for a nil slice. *)
Record Config : Type := { GraphDBs : option (list Database); Dir : string }.

(** The constants [repository.Postgres] and [repository.SQLite]; both are
    non-empty strings, so a [dbtype] that is set differs from [""]. *)
Inductive DBType : Type := Postgres | SQLite.

(** The store [assetdb.New] makes. *)
Record Store : Type := { store_type : DBType; store_dsn : string }.

(** The fields of the session that [selectDBMS] reads and writes;
    [dbtype] is [None] for the empty string. *)
Record Session : Type := {
  cfg : Config;
  dsn : string;
  dbtype : option DBType;
  db : option Store
}.

(** What the method calls from other packages: the path
    [filepath.Join(config.OutputDirectory(dir), "amass.sqlite")] and
    whether [assetdb.New] comes back with nil. *)
Record Env : Type := {
  sqlite_path : string → string;
  New_is_nil : DBType → string → bool
}.

Definition default_db : Database :=
  {| Primary := true; System := "sqlite"; Host := ""; Port := ""; Username := "";
     Password := ""; DBName := "" |}.

(** [fmt.Sprintf("host=%s port=%s user=%s password=%s dbname=%s", ...)] *)
Definition postgres_dsn (d : Database) : string :=
  "host=" +:+ Host d +:+ " port=" +:+ Port d +:+ " user=" +:+ Username d +:+
  " password=" +:+ Password d +:+ " dbname=" +:+ DBName d.

(** The loop over [s.cfg.GraphDBs] with its [break] at the first primary
    entry, whose [System] is put in lower case in place. *)
Fixpoint primary_loop (env : Env) (dir : string) (dbs : list Database)
    (dsn : string) (dbtype : option DBType)
  : list Database * string * option DBType :=
  match dbs with
  | [] => ([], dsn, dbtype)
  | d :: rest =>
      if Primary d then
        let d := with_System d (ToLower (System d)) in
        if String.eqb (System d) "postgres"
        then (d :: rest, postgres_dsn d, Some Postgres)
        else if String.eqb (System d) "sqlite" || String.eqb (System d) "sqlite3"
        then (d :: rest, sqlite_path env dir, Some SQLite)
        else (d :: rest, dsn, dbtype)                               (* [break] *)
      else
        let '(rest', dsn', dbtype') := primary_loop env dir rest dsn dbtype in
        (d :: rest', dsn', dbtype')
  end.

Definition no_primary : string :=
  "no primary database specified in the configuration".

Definition selectDBMS (env : Env) (s : Session) : Session * result unit :=
  let dbs :=
    match GraphDBs (cfg s) with
    | None => [default_db]
    | Some dbs => dbs
    end in
  let '(dbs, dsn', dbtype') := primary_loop env (Dir (cfg s)) dbs (dsn s) (dbtype s) in
  let s := {| cfg := {| GraphDBs := Some dbs; Dir := Dir (cfg s) |};
              dsn := dsn'; dbtype := dbtype'; db := db s |} in
  match dbtype' with
  | None => (s, Err no_primary)
  | Some ty =>
      if String.eqb dsn' "" then (s, Err no_primary)
      else if New_is_nil env ty dsn'
      then (s, Err "failed to initialize database store")
      else ({| cfg := cfg s; dsn := dsn s; dbtype := dbtype s;
               db := Some {| store_type := ty; store_dsn := dsn' |} |}, Ok tt)
  end.

Definition setupDB (env : Env) (s : Session) : Session * result unit :=
  match selectDBMS env s with
  | (s, Err err) => (s, Err err)
  | (s, Ok _) => (s, Ok tt)
  end.

(** The session as [CreateSession] sets it up before [setupDB]. *)
Definition fresh (c : Config) : Session :=
  {| cfg := c; dsn := ""; dbtype := None; db := None |}.

(** The systems that [selectDBMS] knows. *)
Definition supported (sys : string) : Prop :=
  sys = "postgres" ∨ sys = "sqlite" ∨ sys = "sqlite3".

Definition sample_env : Env :=
  {| sqlite_path dir := dir +:+ "/amass.sqlite"; New_is_nil _ _ := false |}.

Definition pg : Database :=
  {| Primary := true; System := "Postgres"; Host := "db"; Port := "5432";
     Username := "amass"; Password := "secret"; DBName := "assets" |}.

End SessionDB.

(** ** The RDAP plugin: [getJSONLink] and [storeEntity] *)

Module RDAP.
Import GoStrings.

(** [rdap.Link] *)
Record Link : Type := { LType : string; Href : string }.

(** What [storeEntity] reads off the vCard of an entity. An entity
    without a vCard is outside the model. *)
Record VCard : Type := {
  kind_values : option (list string);        (* [GetFirst("kind")], its [Values()] *)
  vName : string;                            (* [Name()] *)
  adr_label : option (option (list string)); (* [GetFirst("adr")], its
                                                [Parameters["label"]] *)
  vEmail : string;
  vTel : string;
  vFax : string;
  vCountry : string
}.

(** [rdap.Entity] *)
#[warnings="-register-all"]
Inductive Entity : Type :=
| MkEntity (Roles : list string) (Links : list Link) (vcard : VCard)
           (Entities : list Entity).

Inductive phone_type : Type := PhoneTypeRegular | PhoneTypeFax.

(** The assets the plugin makes, and the two it starts from. *)
Inductive asset : Type :=
| ContactRecord (DiscoveredAt : string)
| URL (Raw : string)
| Person (FullName : string)
| Organization (OrgName : string)
| Location (Address : string)
| EmailAddress (Address : string)
| Phone (Raw : string) (PType : phone_type)
| AutnumRecord (Handle : string)
| IPNetRecord (Handle : string)
| OtherAsset.

(** The asset types that the transformation filter [m] is asked about. *)
Inductive asset_type : Type :=
| TURL | TPerson | TOrganization | TLocation | TEmailAddress | TPhone.

(** [dbt.Entity] and [dbt.Edge] with a simple relation; the target of an
    edge may be nil. *)
Record DBEntity : Type := { EID : string; EAsset : asset }.
Record DBEdge : Type :=
  { ERel : string; FromEntity : DBEntity; ToEntity : option DBEntity }.

(** What a call of the cache comes back with: an error, nil without an
    error, or a value. *)
Inductive created (A : Type) : Type :=
| Failed
| Nil
| Made (a : A).
Arguments Failed {A}.
Arguments Nil {A}.
Arguments Made {A} a.

(** [support.Finding] *)
Record Finding : Type := {
  From : DBEntity;
  FromName : string;
  To : DBEntity;
  ToName : string;
  Rel : string
}.

(** What the plugin calls but does not define: the session cache, over a
    state [S] of its own, the converters of the support package, and the
    source of the plugin. *)
Record Env (S : Type) : Type := {
  CreateAsset : S → asset → S * created DBEntity;
  CreateEdge : S → DBEdge → S * created DBEdge;
  CreateEdgeProperty : S → DBEdge → LetItGo.Source → S;
  RawURLToOAM : string → option string;
  FullNameToPerson : string → option string;
  StreetAddressToLocation : string → option string;
  EmailToOAMEmailAddress : string → option string;
  PhoneToOAMPhone : string → string → string → option string;
  source : LetItGo.Source
}.
Arguments CreateAsset {S} _ _ _.
Arguments CreateEdge {S} _ _ _.
Arguments CreateEdgeProperty {S} _ _ _ _.
Arguments RawURLToOAM {S} _ _.
Arguments FullNameToPerson {S} _ _.
Arguments StreetAddressToLocation {S} _ _.
Arguments EmailToOAMEmailAddress {S} _ _.
Arguments PhoneToOAMPhone {S} _ _ _ _.
Arguments source {S} _.

(** [getJSONLink]: the loop stops at the first link of the RDAP type,
    whatever [support.RawURLToOAM] makes of its address. *)
Fixpoint getJSONLink {S} (env : Env S) (links : list Link) : option string :=
  match links with
  | [] => None
  | link :: rest =>
      if String.eqb (LType link) "application/rdap+json"
      then RawURLToOAM env (Href link)                              (* [break] *)
      else getJSONLink env rest
  end.

(** [stringset.New(entity.Roles...)] *)
Definition role_set (roles : list string) : gset string :=
  foldl StringSet.Insert StringSet.New roles.

(** The relation of the contact to the record, by the roles and the
    depth of the entity; [None] where the method returns nil. *)
Definition role_relation (roles : gset string) (level : Z) : option string :=
  if StringSet.Has roles "registrant" && (level =? 1) then Some "registrant"
  else if StringSet.Has roles "administrative" then Some "admin_contact"
  else if StringSet.Has roles "abuse" then Some "abuse_contact"
  else if StringSet.Has roles "technical" then Some "technical_contact"
  else None.

(** The type switch on the record the contact belongs to. *)
Definition from_name (a : DBEntity) : string :=
  match EAsset a with
  | AutnumRecord h => "AutnumRecord: " +:+ h
  | IPNetRecord h => "IPNetRecord: " +:+ h
  | _ => ""
  end.

(** [CreateEdge] from the contact record and, when it makes an edge, the
    source property on it. *)
Definition add_edge {S} (env : Env S) (src : LetItGo.Source) (st : S)
    (cr : DBEntity) (rel : string) (a : option DBEntity) : S :=
  match CreateEdge env st {| ERel := rel; FromEntity := cr; ToEntity := a |} with
  | (st, Made edge) => CreateEdgeProperty env st edge src
  | (st, _) => st
  end.

(** [if a, err := CreateAsset(x); err == nil && a != nil { ... }] *)
Definition attach {S} (env : Env S) (src : LetItGo.Source) (st : S)
    (cr : DBEntity) (rel : string) (x : asset) : S :=
  match CreateAsset env st x with
  | (st, Made a) => add_edge env src st cr rel (Some a)
  | (st, _) => st
  end.

(** The URL of the contact record; [false] where the method returns nil
    because the asset could not be made. *)
Definition store_url {S} (env : Env S) (m : asset_type → bool)
    (src : LetItGo.Source) (st : S) (cr : DBEntity) (u : string) : S * bool :=
  if m TURL then
    match CreateAsset env st (URL u) with
    | (st, Failed) => (st, false)
    | (st, Nil) => (add_edge env src st cr "url" None, true)
    | (st, Made a) => (add_edge env src st cr "url" (Some a), true)
    end
  else (st, true).

(** [strings.Join] *)
Definition Join (elems : list string) (sep : string) : string :=
  String.concat sep elems.

(** [strings.Split(s, "\n")] *)
Fixpoint split_lines_go (cur : string) (s : string) : list string :=
  match s with
  | EmptyString => [String.rev cur]
  | String c s' =>
      if Ascii.eqb c (Ascii.ascii_of_nat 10)
      then String.rev cur :: split_lines_go EmptyString s'
      else split_lines_go (String c cur) s'
  end.

Definition SplitLines (s : string) : list string := split_lines_go EmptyString s.

(** The part of [storeEntity] that reads the vCard, from the person or
    organization to the fax number. *)
Definition store_vcard {S} (env : Env S) (m : asset_type → bool)
    (src : LetItGo.Source) (st : S) (cr : DBEntity) (v : VCard)
    (values : list string) : S :=
  let name := vName v in
  let kind := Join values " " in
  let st :=
    if negb (String.eqb name "") && String.eqb kind "individual" then
      match FullNameToPerson env name with
      | Some p => if m TPerson then attach env src st cr "person" (Person p) else st
      | None => st
      end
    else if negb (String.eqb name "") && m TOrganization
    then attach env src st cr "organization" (Organization name)
    else st in
  let st :=
    match adr_label v with
    | Some adr =>
        if m TLocation then
          match adr with
          | Some label =>
              let s := Join label " " in
              let addr := Join (SplitLines s) " " in
              match StreetAddressToLocation env addr with
              | Some loc => attach env src st cr "location" (Location loc)
              | None => st
              end
          | None => st
          end
        else st
    | None => st
    end in
  let st :=
    match EmailToOAMEmailAddress env (vEmail v) with
    | Some email =>
        if m TEmailAddress then attach env src st cr "email" (EmailAddress email)
        else st
    | None => st
    end in
  if m TPhone then
    let st :=
      match PhoneToOAMPhone env (vTel v) "" (vCountry v) with
      | Some phone => attach env src st cr "phone" (Phone phone PhoneTypeRegular)
      | None => st
      end in
    match PhoneToOAMPhone env (vFax v) "" (vCountry v) with
    | Some fax => attach env src st cr "phone" (Phone fax PhoneTypeFax)
    | None => st
    end
  else st.

(** [storeEntity]: the state of the cache afterwards and the findings
    returned. The entities below are stored one level deeper and with the
    source of the plugin. *)
Fixpoint storeEntity {S} (env : Env S) (m : asset_type → bool) (asset : DBEntity)
    (st : S) (level : Z) (entity : Entity) (src : LetItGo.Source) {struct entity}
  : S * list Finding :=
  match entity with
  | MkEntity Roles Links v Entities =>
      let roles := role_set Roles in
      match getJSONLink env Links with
      | None => (st, [])
      | Some u =>
          match role_relation roles level with
          | None => (st, [])
          | Some rel =>
              match CreateAsset env st (ContactRecord u) with
              | (st, Made cr) =>
                  let findings :=
                    [ {| From := asset; FromName := from_name asset; To := cr;
                         ToName := "ContactRecord: " +:+ u; Rel := rel |} ] in
                  match store_url env m src st cr u with
                  | (st, false) => (st, [])
                  | (st, true) =>
                      match kind_values v with
                      | None => (st, [])
                      | Some values =>
                          let st := store_vcard env m src st cr v values in
                          let level := level + 1 in
                          (fix loop (st : S) (ents : list Entity)
                               (findings : list Finding) : S * list Finding :=
                             match ents with
                             | [] => (st, findings)
                             | ent :: rest =>
                                 let '(st, fs) :=
                                   storeEntity env m asset st level ent (source env) in
                                 loop st rest (findings ++ fs)
                             end) st Entities findings
                      end
                  end
              | (st, _) => (st, [])
              end
          end
      end
  end.

(** The loop of [storeEntity] over the entities below, by name. *)
Fixpoint store_all {S} (env : Env S) (m : asset_type → bool) (asset : DBEntity)
    (level : Z) (st : S) (ents : list Entity) (findings : list Finding)
  : S * list Finding :=
  match ents with
  | [] => (st, findings)
  | ent :: rest =>
      let '(st, fs) := storeEntity env m asset st level ent (source env) in
      store_all env m asset level st rest (findings ++ fs)
  end.

(** The finding of the entity itself. *)
Definition own_finding (asset cr : DBEntity) (u rel : string) : Finding :=
  {| From := asset; FromName := from_name asset; To := cr;
     ToName := "ContactRecord: " +:+ u; Rel := rel |}.

(** The entity has the role [role], in any letter case. *)
Definition has_role (Roles : list string) (role : string) : Prop :=
  ∃ r, r ∈ Roles ∧ ToLower r = role.

(** The four relations that a finding can carry. *)
Definition contact_relations : list string :=
  ["registrant"; "admin_contact"; "abuse_contact"; "technical_contact"].

(** A cache that makes every asset and edge and counts its calls. *)
Definition counting_env : Env nat :=
  {| CreateAsset n a := (Datatypes.S n, Made {| EID := "node"; EAsset := a |});
     CreateEdge n e := (Datatypes.S n, Made e);
     CreateEdgeProperty n _ _ := Datatypes.S n;
     RawURLToOAM href := if String.eqb href "" then None else Some href;
     FullNameToPerson name := Some name;
     StreetAddressToLocation addr := Some addr;
     EmailToOAMEmailAddress e := if String.eqb e "" then None else Some e;
     PhoneToOAMPhone raw _ _ := if String.eqb raw "" then None else Some raw;
     source := {| LetItGo.SName := "RDAP"; LetItGo.Confidence := 100 |} |}.

Definition no_vcard_data : VCard :=
  {| kind_values := Some ["org"]; vName := ""; adr_label := None; vEmail := "";
     vTel := ""; vFax := ""; vCountry := "" |}.

Definition rdap_link (href : string) : Link :=
  {| LType := "application/rdap+json"; Href := href |}.

(** A registrant with an abuse contact below it, which in turn holds an
    entity that is registrant and technical contact at once. *)
Definition sample_entity : Entity :=
  MkEntity ["registrant"; "administrative"] [rdap_link "https://rdap.example/e/1"]
    no_vcard_data
    [MkEntity ["Abuse"] [rdap_link "https://rdap.example/e/2"] no_vcard_data
       [MkEntity ["registrant"; "technical"] [rdap_link "https://rdap.example/e/3"]
          no_vcard_data []]].

Definition sample_record : DBEntity :=
  {| EID := "autnum"; EAsset := AutnumRecord "AS64500" |}.

End RDAP.

(** ** The scrape plugin with its second request ([Run] over a domain) *)

Module Retry.
Import GoStrings LetItGo.

(** [et.DNSRequest] *)
Record DNSRequest : Type := {
  RName : string;
  RDomain : string;
  RTag : string;
  RSource : string;
  RConfidence : Z
}.

Inductive effect : Type :=
| Post (domain : string)            (* the request that [postSOAP] sends *)
| Println (msg : string)
| NewName (req : DNSRequest).       (* [sess.NewName] *)

Definition suffix : string := "onmicrosoft.com".

(** [parts[len(parts)-2]] *)
Definition second_last (parts : list string) : string :=
  nth (length parts - 2) parts "".

(** The loop [for retry]. [fuel] bounds the number of turns; [None] says
    that the bound was reached with the loop still going. The result is
    the value of [domain] at the end and the map of the bare domains. *)
Fixpoint retry_loop (env : Env) (fuel : nat) (domain : string)
    (bareDomains : gset string) (ev : list effect)
  : option (result (string * gset string) * list effect) :=
  match fuel with
  | O => None
  | S fuel' =>
      let ev := ev ++ [Post domain] in
      match soap env domain with
      | PostFailed err => Some (Err err, ev)
      | DecodeFailed err => Some (Err ("failed to parse XML: " +:+ err), ev)
      | Domains ds =>
          let bareDomains := Resubmit.bare_domains env ds bareDomains in
          if (size bareDomains =? 0)%nat && negb (HasSuffix domain suffix) then
            let ev := ev ++ [Println "Retrying with onmicrosoft.com suffix"] in
            let tld := default "" (EffectiveTLDPlusOne env domain) in
            let parts := SplitDot tld in
            if (1 <? length parts)%nat
            then retry_loop env fuel' (second_last parts +:+ "." +:+ suffix)
                            bareDomains ev                          (* [continue] *)
            else Some (Ok (domain, bareDomains), ev)
          else Some (Ok (domain, bareDomains), ev)
      end
  end.

(** [for bareDomain := range bareDomains] *)
Fixpoint new_names (InScope : string → bool) (source_name domain : string)
    (keys : list string) : list effect :=
  match keys with
  | [] => []
  | bareDomain :: rest =>
      if InScope bareDomain
      then NewName {| RName := bareDomain; RDomain := domain; RTag := source_name;
                      RSource := source_name; RConfidence := 90 |}
           :: new_names InScope source_name domain rest
      else new_names InScope source_name domain rest
  end.

(** [Run(ctx, sess, domain)]; [InScope] is the scope test of the session. *)
Definition Run (env : Env) (InScope : string → bool) (fuel : nat) (domain : string)
  : option (result unit * list effect) :=
  match retry_loop env fuel domain ∅ [] with
  | None => None
  | Some (Err err, ev) => Some (Err err, ev)
  | Some (Ok (domain, bareDomains), ev) =>
      Some (Ok tt,
            ev ++ new_names InScope (SName LetItGo.source) domain
                            (range_keys env bareDomains))
  end.

(** The domains of the requests made, in order. *)
Definition posts (ev : list effect) : list string :=
  omap (λ e, match e with Post d => Some d | _ => None end) ev.

(** An effect other than a report to the session. *)
Definition quiet (e : effect) : Prop := ∀ req, e ≠ NewName req.

(** A service that knows nothing of [example.com] itself and names two
    domains for [example.onmicrosoft.com]. *)
Definition tenant_reply (domain : string) : soap_reply :=
  if String.eqb domain "example.onmicrosoft.com"
  then Domains ["mail.Example.org"; "example.onmicrosoft.com"; "example.net"]
  else Domains [].

(** The public suffix list as far as the examples need it: [co.uk] is a
    suffix, every other name has its last label as suffix. *)
Definition registrable (d : string) : option string :=
  if HasSuffix d ".example.co.uk" || String.eqb d "example.co.uk"
  then Some "example.co.uk" else last_two_labels d.

Definition uk_env : Env :=
  {| soap := tenant_reply;
     EffectiveTLDPlusOne := registrable;
     IsAssetInScope := scope_confidence;
     TTLStartTime t := Some (t - 1440);
     store_fails _ := false;
     dispatch_fails _ := false;
     SourceToAssetsWithinTTL _ _ _ := [];
     range_keys := elements |}.

End Retry.

(** ** engine/plugins/scrape/letitgo.go: the edges that [store] adds *)

Module Associated.
Import OAM.

(** The calls that [store] makes after [support.StoreFQDNsWithSource]. *)
Inductive call : Type :=
| CallCreateEdge (edge : Edge)
| CallCreateEdgeProperty (edge : Edge) (src : LetItGo.Source)
| CallLogError (msg : string).

(** The session cache as [store] meets it: what [CreateEdge] comes back
    with, and whether [CreateEdgeProperty] comes back with an error. *)
Record Env : Type := {
  CreateEdge : Edge → RDAP.created Edge;
  CreateEdgeProperty_fails : Edge → bool
}.

Definition associated_with (from to : Entity) : Edge :=
  {| ERelation := SimpleRelation "associated_with"; FromEntity := from;
     ToEntity := to |}.

(** The loop over the entities; a nil entity is [None], and so is a nil
    [e.Entity]. Every [continue] of the loop goes on with the next entity. *)
Fixpoint link (env : Env) (event_entity : option Entity)
    (entities : list (option Entity)) : list call :=
  match entities with
  | [] => []
  | None :: rest => CallLogError "Entity is nil" :: link env event_entity rest
  | Some entity :: rest =>
      match event_entity with
      | None => CallLogError "Event entity is nil" :: link env event_entity rest
      | Some from =>
          CallCreateEdge (associated_with from entity) ::
          match CreateEdge env (associated_with from entity) with
          | RDAP.Failed =>
              CallLogError "Failed to create edge" :: link env event_entity rest
          | RDAP.Nil => CallLogError "Edge is nil" :: link env event_entity rest
          | RDAP.Made edge =>
              CallCreateEdgeProperty edge LetItGo.source ::
              (if CreateEdgeProperty_fails env edge
               then [CallLogError "Failed to create edge property"] else [])
              ++ link env event_entity rest
          end
      end
  end.

(** [store]: [stored] is what [support.StoreFQDNsWithSource] returned for
    the names; it is handed back as it is. *)
Definition store (env : Env) (event_entity : option Entity)
    (stored : list (option Entity)) : list (option Entity) * list call :=
  (stored, link env event_entity stored).

(** The edges asked for, in order. *)
Definition edges_asked (calls : list call) : list Edge :=
  omap (λ c, match c with CallCreateEdge e => Some e | _ => None end) calls.

(** The edges that got their source property, in order. *)
Definition edges_marked (calls : list call) : list Edge :=
  omap (λ c, match c with CallCreateEdgeProperty e _ => Some e | _ => None end) calls.

(** A cache that fails on the edge to [bad.example.com]. *)
Definition moody_env : Env :=
  {| CreateEdge e :=
       if String.eqb (ID (ToEntity e)) "bad.example.com" then RDAP.Failed
       else RDAP.Made e;
     CreateEdgeProperty_fails _ := false |}.

End Associated.

(** ** A response for the query of letitgo.go *)

Module PlainSamples.

Definition tenant_domains : list string :=
  ["Contoso.OnMicrosoft.com"; "mail.partner.co.uk"; "CONTOSO.onmicrosoft.com"].

End PlainSamples.

(** * Properties *)

Module GoStringsFacts.
Import GoStrings.

Lemma str_app_nil_l (s : string) : "" +:+ s = s.
Proof. reflexivity. Qed.

Lemma str_app_cons (c : ascii) (p s : string) :
  String c p +:+ s = String c (p +:+ s).
Proof. reflexivity. Qed.

Lemma str_app_nil_r (s : string) : s +:+ "" = s.
Proof. induction s as [|c s IH]; [done|]. by rewrite str_app_cons, IH. Qed.

Lemma str_app_assoc (p q s : string) : (p +:+ q) +:+ s = p +:+ q +:+ s.
Proof. induction p as [|c p IH]; [done|]. by rewrite !str_app_cons, IH. Qed.

Lemma str_length_app (p s : string) :
  String.length (p +:+ s) = (String.length p + String.length s)%nat.
Proof. induction p as [|c p IH]; [done|]. rewrite str_app_cons. simpl. by rewrite IH. Qed.

Lemma substring_all (s : string) :
  String.substring 0 (String.length s) s = s.
Proof. induction s as [|c s IH]; simpl; [done|]. by rewrite IH. Qed.

Lemma substring_app_r (p s : string) :
  String.substring (String.length p) (String.length s) (p +:+ s) = s.
Proof.
  induction p as [|c p IH]; [apply substring_all|].
  rewrite str_app_cons. exact IH.
Qed.

(** Cutting [s] at [k] and gluing the two parts gives [s] back. *)
Lemma substring_cut (s : string) (k : nat) :
  (k <= String.length s)%nat →
  s = String.substring 0 k s +:+
      String.substring k (String.length s - k) s.
Proof.
  revert k. induction s as [|c s IH]; intros [|k] Hk; simpl in *.
  - done.
  - lia.
  - by rewrite str_app_nil_l, substring_all.
  - rewrite str_app_cons. f_equal. apply IH. lia.
Qed.

Lemma HasSuffix_iff (s suffix : string) :
  HasSuffix s suffix = true ↔ ∃ p, s = p +:+ suffix.
Proof.
  unfold HasSuffix. rewrite andb_true_iff, Nat.leb_le, String.eqb_eq. split.
  - intros [Hlen Hsub].
    exists (String.substring 0 (String.length s - String.length suffix) s).
    pose proof (substring_cut s (String.length s - String.length suffix)) as Hcut.
    replace (String.length s - (String.length s - String.length suffix))%nat
      with (String.length suffix) in Hcut by lia.
    rewrite Hsub in Hcut. apply Hcut. lia.
  - intros [p ->]. rewrite str_length_app. split; [lia|].
    replace (String.length p + String.length suffix - String.length suffix)%nat
      with (String.length p) by lia.
    apply substring_app_r.
Qed.

End GoStringsFacts.

(** ** The scope test of cmd/amass/subs.go *)

Module SubsFacts.
Import GoStrings GoStringsFacts Subs.

(** The loop finds a root exactly when one matches the lowered name. *)
Lemma scope_loop_iff (n : string) (scope : list string) :
  scope_loop n scope = true ↔
  ∃ r, r ∈ scope ∧ (n = ToLower r ∨ ∃ p, n = p +:+ "." +:+ ToLower r).
Proof.
  induction scope as [|d rest IH]; simpl.
  - split; [done|]. intros (r & Hr & _). by apply elem_of_nil in Hr.
  - destruct (String.eqb n (ToLower d) || HasSuffix n ("." +:+ ToLower d))
      eqn:Hd.
    + split; [intros _|done]. exists d. split; [apply list_elem_of_here|].
      apply orb_true_iff in Hd as [Heq|Hsuf].
      * left. by apply String.eqb_eq.
      * right. by apply HasSuffix_iff in Hsuf.
    + apply orb_false_iff in Hd as [Hne Hns]. rewrite IH. split.
      * intros (r & Hr & Hm). exists r. split; [by apply list_elem_of_further|done].
      * intros (r & Hr & Hm). apply elem_of_cons in Hr as [->|Hr].
        -- exfalso. destruct Hm as [Heq|Hsuf].
           ++ apply String.eqb_neq in Hne. done.
           ++ apply HasSuffix_iff in Hsuf. congruence.
        -- by exists r.
Qed.

(** The examples of the specification: root [example.com] matches
    [EXAMPLE.com] and [api.example.com] but not [notexample.com]. *)
Example domainNameInScope_examples :
  domainNameInScope "EXAMPLE.com" ["example.com"] = true ∧
  domainNameInScope "api.example.com" ["example.com"] = true ∧
  domainNameInScope "notexample.com" ["example.com"] = false ∧
  domainNameInScope "api.example.com" [] = false.
Proof. by vm_compute. Qed.

(** The loop, read as a statement about the trimmed name. *)
Lemma domainNameInScope_true_iff (name : string) (scope : list string) :
  domainNameInScope name scope = true ↔ in_scope_spec (TrimSpace name) scope.
Proof.
  unfold domainNameInScope, in_scope_spec, suffix_match.
  by rewrite scope_loop_iff.
Qed.

(** On the trimmed name the loop is the rule of the specification, in
    both directions. *)
Lemma domainNameInScope_iff_trimmed (name : string) (scope : list string) :
  (domainNameInScope name scope = true ↔ in_scope_spec (TrimSpace name) scope) ∧
  (domainNameInScope name scope = false ↔ ¬ in_scope_spec (TrimSpace name) scope).
Proof.
  pose proof (domainNameInScope_true_iff name scope) as Hiff.
  split; [exact Hiff|].
  rewrite <- Hiff. by destruct (domainNameInScope name scope).
Qed.

(** On a name that carries no white space at its ends the rule is the one
    of the specification, word for word. *)
Corollary domainNameInScope_iff_plain (name : string) (scope : list string) :
  TrimSpace name = name →
  (domainNameInScope name scope = true ↔ in_scope_spec name scope).
Proof.
  intros Htrim. pose proof (domainNameInScope_true_iff name scope) as Hiff.
  by rewrite Htrim in Hiff.
Qed.

(** White space around a name is trimmed off before the comparison, so
    [" example.com"], which is no domain name, is taken for the root
    [example.com]. *)
Example domainNameInScope_trims :
  domainNameInScope " example.com" ["example.com"] = true ∧
  ¬ in_scope_spec " example.com" ["example.com"].
Proof.
  split; [by vm_compute|].
  intros (r & Hr & Hm). apply list_elem_of_singleton in Hr as ->.
  destruct Hm as [Heq|[p Hp]].
  - by vm_compute in Heq.
  - pose proof (f_equal String.length Hp) as Hlen. rewrite str_length_app in Hlen.
    destruct p as [|a p]; [|simpl in Hlen; lia].
    by vm_compute in Hp.
Qed.

Lemma name_byte_no_space (c : ascii) : name_byte c = true → asciiSpace c = false.
Proof.
  unfold name_byte, asciiSpace. intros [Hlo _]%andb_true_iff.
  apply N.leb_le in Hlo.
  repeat (apply orb_false_iff; split); apply N.eqb_neq; lia.
Qed.

Lemma name_byte_ascii (c : ascii) : name_byte c = true → ascii_byte c = true.
Proof.
  unfold name_byte, ascii_byte. intros [_ Hhi]%andb_true_iff.
  apply N.leb_le in Hhi. apply N.ltb_lt. lia.
Qed.

(** A domain name is a string of ASCII bytes, the strings on which
    [ToLower] and [TrimSpace] are those of the library. *)
Lemma domain_name_ascii (s : string) : domain_name s = true → is_ascii s = true.
Proof.
  induction s as [|c s IH]; simpl; [done|].
  intros [Hc Hs]%andb_true_iff. by rewrite (name_byte_ascii c Hc), IH.
Qed.

Lemma domain_name_trim_right (s : string) :
  domain_name s = true → trim_right s = s.
Proof.
  induction s as [|c s IH]; simpl; [done|].
  intros [Hc Hs]%andb_true_iff. rewrite (IH Hs).
  destruct s; [by rewrite (name_byte_no_space c Hc)|done].
Qed.

(** There is nothing to trim off a domain name. *)
Lemma domain_name_TrimSpace (s : string) :
  domain_name s = true → TrimSpace s = s.
Proof.
  intros Hs. unfold TrimSpace.
  assert (trim_left s = s) as ->; [|by apply domain_name_trim_right].
  destruct s as [|c s]; simpl in *; [done|].
  apply andb_true_iff in Hs as [Hc _]. by rewrite (name_byte_no_space c Hc).
Qed.

(** C1. For every domain name and every list of root domains, all of them
    written in visible ASCII characters (the strings on which the folding
    and the trimming of [GoStrings] are those of the library),
    [domainNameInScope] answers true if and only if some root domain [r]
    of the list is such that the name equals [r] or ends with ["." + r],
    both compared in lower case; it answers false otherwise. *)
Theorem domainNameInScope_domain_names (name : string) (scope : list string) :
  domain_name name = true →
  Forall (λ r, domain_name r = true) scope →
  (domainNameInScope name scope = true ↔ in_scope_spec name scope) ∧
  (domainNameInScope name scope = false ↔ ¬ in_scope_spec name scope).
Proof.
  intros Hname _.
  pose proof (domainNameInScope_true_iff name scope) as Hiff.
  rewrite (domain_name_TrimSpace name Hname) in Hiff.
  split; [exact Hiff|].
  rewrite <- Hiff. by destruct (domainNameInScope name scope).
Qed.

Lemma domainNameInScope_domain_names_witness :
  domain_name "api.EXAMPLE.com" = true ∧
  Forall (λ r, domain_name r = true) ["example.org"; "Example.com"] ∧
  (domainNameInScope "api.EXAMPLE.com" ["example.org"; "Example.com"] = true
     ↔ in_scope_spec "api.EXAMPLE.com" ["example.org"; "Example.com"]) ∧
  (domainNameInScope "api.EXAMPLE.com" ["example.org"; "Example.com"] = false
     ↔ ¬ in_scope_spec "api.EXAMPLE.com" ["example.org"; "Example.com"]).
Proof.
  split; [reflexivity|].
  split; [by repeat constructor|].
  apply (domainNameInScope_domain_names "api.EXAMPLE.com"
           ["example.org"; "Example.com"]); [reflexivity|by repeat constructor].
Defined.

End SubsFacts.

(** ** The traversal helpers of utils/addr.go *)

Module AddrFacts.
Import GoStrings OAM Addr.

Section Traversal.
Variable db : Repository.
Variable since : Z.

Lemma is_addr_type_iff (rr : Z) : is_addr_type rr = true ↔ rr = 1 ∨ rr = 28.
Proof. unfold is_addr_type. rewrite orb_true_iff, !Z.eqb_eq. done. Qed.

Lemma getAddr_Ok (ent : Entity) (ip : string) :
  getAddr db ent since = Ok ip ↔ AddressOf db ent ip.
Proof.
  unfold getAddr, AddressOf. split.
  - destruct (FindEntityById db (ID ent)) as [entity|]; [|done].
    destruct (EAsset entity) eqn:Ha; try done.
    intros [= ->]. eauto.
  - intros (entity & -> & ->). done.
Qed.

Lemma ok_addr_Some (r : result string) (ip : string) :
  ok_addr r = Some ip ↔ r = Ok ip.
Proof. destruct r; simpl; split; congruence. Qed.

(** *** The first edge with a property *)

Lemma first_edge_unique (P : Edge → Prop) (edges : list Edge) (e1 e2 : Edge) :
  first_edge P edges e1 → first_edge P edges e2 → e1 = e2.
Proof.
  intros (pre1 & post1 & -> & HP1 & Hpre1) (pre2 & post2 & Heq & HP2 & Hpre2).
  revert pre2 Heq Hpre2.
  induction pre1 as [|x pre1 IH]; intros [|y pre2] Heq Hpre2; simpl in *.
  - congruence.
  - injection Heq as <- _. by apply Forall_cons in Hpre2 as [? _].
  - injection Heq as -> _. by apply Forall_cons in Hpre1 as [? _].
  - injection Heq as -> Heq. apply Forall_cons in Hpre1 as [_ Hpre1].
    apply Forall_cons in Hpre2 as [_ Hpre2]. by apply (IH Hpre1 pre2).
Qed.

Lemma first_edge_here (P : Edge → Prop) (e : Edge) (rest : list Edge) :
  P e → first_edge P (e :: rest) e.
Proof. intros HP. exists [], rest. done. Qed.

Lemma first_edge_later (P : Edge → Prop) (x e : Edge) (rest : list Edge) :
  ¬ P x → first_edge P rest e → first_edge P (x :: rest) e.
Proof.
  intros Hx (pre & post & -> & HP & Hpre). exists (x :: pre), post.
  split; [done|]. split; [done|]. by constructor.
Qed.

Lemma first_edge_none (P : Edge → Prop) (edges : list Edge) (e : Edge) :
  Forall (λ e', ¬ P e') edges → ¬ first_edge P edges e.
Proof.
  intros Hall (pre & post & -> & HP & _).
  apply Forall_app in Hall as [_ Hall]. by apply Forall_cons in Hall as [? _].
Qed.

Lemma first_edge_elem (P : Edge → Prop) (edges : list Edge) (e : Edge) :
  first_edge P edges e → e ∈ edges ∧ P e.
Proof.
  intros (pre & post & -> & HP & _). split; [|done].
  apply elem_of_app. right. apply list_elem_of_here.
Qed.

(** *** How the code tells the record types apart *)

Lemma address_record_iff (e : Edge) :
  address_record e ↔
  ∃ h, ERelation e = BasicDNSRelation h ∧ is_addr_type (RRType h) = true.
Proof.
  unfold address_record. split; intros (h & Hr & Ht); exists h;
    (split; [done|]); by apply is_addr_type_iff.
Qed.

Lemma address_not_alias (e : Edge) : address_record e → ¬ alias_record e.
Proof.
  intros (h & Hr & Ht) (h' & Hr' & Ht'). rewrite Hr in Hr'.
  injection Hr' as <-. lia.
Qed.

(** *** [oneMoreName] *)

Lemma oneMoreName_edges_Some (edges : list Edge) (r : result string) :
  oneMoreName_edges db since edges = Some r ↔
  ∃ e, first_edge address_record edges e ∧ r = getAddr db (ToEntity e) since.
Proof.
  induction edges as [|x rest IH]; simpl.
  - split; [done|]. intros (e & He & _).
    by apply (first_edge_none address_record [] e) in He.
  - destruct (ERelation x) as [h| | |] eqn:Hx.
    2-4: rewrite IH; split; intros (e & He & ->); exists e; (split; [|done]).
    2,4,6: apply first_edge_later; [|done]; intros (h' & Hh & _); congruence.
    2-4: destruct He as ([|y pre] & post & Heq & HP & Hpre); simpl in Heq;
         [injection Heq as <- _; destruct HP as (h' & Hh & _); congruence|];
         injection Heq as <- ->; apply Forall_cons in Hpre as [_ Hpre];
         by exists pre, post.
    destruct (is_addr_type (RRType h)) eqn:Ht.
    + assert (address_record x) as Hax by (apply address_record_iff; eauto).
      split.
      * intros [= <-]. exists x. split; [by apply first_edge_here|done].
      * intros (e & He & ->).
        by rewrite (first_edge_unique _ _ _ _ He (first_edge_here _ x rest Hax)).
    + assert (¬ address_record x) as Hnx.
      { intros (h' & Hh & Ht')%address_record_iff. congruence. }
      rewrite IH. split; intros (e & He & ->); exists e; (split; [|done]).
      * by apply first_edge_later.
      * destruct He as ([|y pre] & post & Heq & HP & Hpre); simpl in Heq.
        -- by injection Heq as <- _.
        -- injection Heq as <- ->. apply Forall_cons in Hpre as [_ Hpre].
           by exists pre, post.
Qed.

Lemma oneMoreName_Ok (name : Entity) (ip : string) :
  oneMoreName db name since = Ok ip ↔ OneHop db since name ip.
Proof.
  unfold oneMoreName, OneHop. split.
  - destruct (OutgoingEdges db name since "dns_record") as [edges|]; [|done].
    destruct (oneMoreName_edges db since edges) as [r|] eqn:Hr; [|done].
    intros ->. apply oneMoreName_edges_Some in Hr as (e & He & Hg).
    exists edges, e. split; [done|]. split; [done|]. by apply getAddr_Ok.
  - intros (edges & e & -> & He & Ha). apply getAddr_Ok in Ha.
    assert (oneMoreName_edges db since edges = Some (Ok ip)) as ->; [|done].
    apply oneMoreName_edges_Some. exists e. by rewrite Ha.
Qed.

(** *** [cnameQuery] *)

Local Abbreviation relevant := (λ e : Edge, address_record e ∨ alias_record e).

Lemma cname_scan_spec (edges : list Edge) :
  match cname_scan db since edges with
  | ScanReturn r =>
      ∃ e, first_edge relevant edges e ∧ address_record e ∧
           r = getAddr db (ToEntity e) since
  | ScanFollow m =>
      ∃ e, first_edge relevant edges e ∧ alias_record e ∧ m = ToEntity e
  | ScanNone => Forall (λ e, ¬ relevant e) edges
  end.
Proof.
  induction edges as [|x rest IH]; simpl; [by constructor|].
  assert (∀ s : scan, ¬ relevant x →
            match s with
            | ScanReturn r =>
                ∃ e, first_edge relevant rest e ∧ address_record e ∧
                     r = getAddr db (ToEntity e) since
            | ScanFollow m =>
                ∃ e, first_edge relevant rest e ∧ alias_record e ∧ m = ToEntity e
            | ScanNone => Forall (λ e, ¬ relevant e) rest
            end →
            match s with
            | ScanReturn r =>
                ∃ e, first_edge relevant (x :: rest) e ∧ address_record e ∧
                     r = getAddr db (ToEntity e) since
            | ScanFollow m =>
                ∃ e, first_edge relevant (x :: rest) e ∧ alias_record e ∧
                     m = ToEntity e
            | ScanNone => Forall (λ e, ¬ relevant e) (x :: rest)
            end) as Hskip.
  { intros [r|m|] Hx.
    - intros (e & He & Ha & ->). exists e. split; [|done].
      by apply (first_edge_later relevant).
    - intros (e & He & Ha & ->). exists e. split; [|done].
      by apply (first_edge_later relevant).
    - intros Hall. by constructor. }
  destruct (ERelation x) as [h| | |] eqn:Hx.
  2-4: apply Hskip; [|exact IH];
       intros [(h' & Hh & _)|(h' & Hh & _)]; congruence.
  destruct (is_addr_type (RRType h)) eqn:Ht.
  { assert (address_record x) as Hax by (apply address_record_iff; eauto).
    exists x. split; [|done]. apply (first_edge_here relevant). by left. }
  destruct (RRType h =? 5) eqn:H5.
  { apply Z.eqb_eq in H5.
    assert (alias_record x) as Hax by (exists h; done).
    exists x. split; [|done]. apply (first_edge_here relevant). by right. }
  apply Hskip; [|exact IH].
  apply Z.eqb_neq in H5.
  intros [(h' & Hh & Ht')%address_record_iff|(h' & Hh & Ht')]; congruence.
Qed.

Lemma Has_Insert_same (set : gset string) (k : string) :
  StringSet.Has (StringSet.Insert set k) k = true.
Proof. unfold StringSet.Has, StringSet.Insert. apply bool_decide_eq_true. set_solver. Qed.

Lemma Has_Insert_mono (set : gset string) (k k' : string) :
  StringSet.Has set k' = true → StringSet.Has (StringSet.Insert set k) k' = true.
Proof.
  unfold StringSet.Has, StringSet.Insert. rewrite !bool_decide_eq_true. set_solver.
Qed.

Lemma Has_Insert_fold (set : gset string) (k k' : string) :
  ToLower k = ToLower k' → StringSet.Has (StringSet.Insert set k) k' = true.
Proof.
  unfold StringSet.Has, StringSet.Insert. intros <-.
  rewrite bool_decide_eq_true. set_solver.
Qed.

(** One turn of the loop, spelled out. *)
Lemma cname_walk_S (k : nat) (set : gset string) (next : Entity) :
  cname_walk db since (S k) set next =
  match FindEntityById db (ID next) with
  | None => (traversal_failure, [])
  | Some n =>
      if StringSet.Has set (Key (EAsset n)) then (traversal_failure, [n])
      else
        let set' := StringSet.Insert set (Key (EAsset n)) in
        let go next' :=
          ((cname_walk db since k set' next').1,
           n :: (cname_walk db since k set' next').2) in
        match OutgoingEdges db n since "dns_record" with
        | Some edges =>
            match cname_scan db since edges with
            | ScanReturn r => (r, [n])
            | ScanFollow next' => go next'
            | ScanNone => go next
            end
        | None => go next
        end
  end.
Proof.
  simpl. destruct (FindEntityById db (ID next)) as [n|]; [|done].
  destruct (StringSet.Has set (Key (EAsset n))); [done|].
  destruct (OutgoingEdges db n since "dns_record") as [edges|].
  - destruct (cname_scan db since edges) as [r|m|]; [done| |].
    + by destruct (cname_walk db since k _ m).
    + by destruct (cname_walk db since k _ next).
  - by destruct (cname_walk db since k _ next).
Qed.

(** The walk fetches at most as many nodes as it has iterations. *)
Lemma cname_walk_hops (k : nat) (set : gset string) (next : Entity) :
  (length (cname_walk db since k set next).2 ≤ k)%nat.
Proof.
  revert set next. induction k as [|k IH]; intros set next; [simpl; lia|].
  rewrite cname_walk_S.
  destruct (FindEntityById db (ID next)) as [n|]; [|simpl; lia].
  destruct (StringSet.Has set (Key (EAsset n))); [simpl; lia|].
  destruct (OutgoingEdges db n since "dns_record") as [edges|].
  - destruct (cname_scan db since edges) as [r|m|]; simpl; [lia| |].
    + specialize (IH (StringSet.Insert set (Key (EAsset n))) m). lia.
    + specialize (IH (StringSet.Insert set (Key (EAsset n))) next). lia.
  - simpl. specialize (IH (StringSet.Insert set (Key (EAsset n))) next). lia.
Qed.

(** A node whose key is in the set, or was met before on this walk, is
    the last one fetched, and the walk fails. The set holds its elements
    in lower case, so keys that differ in case only count as met. *)
Lemma cname_walk_repeat (k : nat) (set : gset string) (next : Entity)
    (pre : list Entity) (n : Entity) (post : list Entity) :
  (cname_walk db since k set next).2 = pre ++ n :: post →
  (StringSet.Has set (Key (EAsset n)) = true ∨
   ∃ m, m ∈ pre ∧ ToLower (Key (EAsset m)) = ToLower (Key (EAsset n))) →
  post = [] ∧ (cname_walk db since k set next).1 = traversal_failure.
Proof.
  revert set next pre. induction k as [|k IH]; intros set next pre.
  { simpl. by destruct pre. }
  rewrite cname_walk_S.
  destruct (FindEntityById db (ID next)) as [n0|]; [|by destruct pre].
  destruct (StringSet.Has set (Key (EAsset n0))) eqn:Hhas.
  { simpl. destruct pre as [|? [|? ?]]; [|done..]. by intros [= <- <-]. }
  assert (∀ next',
    (n0 :: (cname_walk db since k (StringSet.Insert set (Key (EAsset n0))) next').2
       = pre ++ n :: post) →
    (StringSet.Has set (Key (EAsset n)) = true ∨
     ∃ m, m ∈ pre ∧ ToLower (Key (EAsset m)) = ToLower (Key (EAsset n))) →
    post = [] ∧
    (cname_walk db since k (StringSet.Insert set (Key (EAsset n0))) next').1
      = traversal_failure) as Hgo.
  { intros next' Hhops Hrep. destruct pre as [|p pre].
    - simpl in Hhops. injection Hhops as <- _. exfalso.
      destruct Hrep as [Hrep|(m & Hm & _)]; [congruence|].
      by apply elem_of_nil in Hm.
    - simpl in Hhops. injection Hhops as <- Hhops.
      apply (IH _ _ _ Hhops).
      destruct Hrep as [Hrep|(m & Hm & Hkey)].
      + left. by apply Has_Insert_mono.
      + apply elem_of_cons in Hm as [->|Hm].
        * left. by apply Has_Insert_fold.
        * right. eauto. }
  destruct (OutgoingEdges db n0 since "dns_record") as [edges|].
  - destruct (cname_scan db since edges) as [r|m|]; simpl.
    + destruct pre as [|? [|? ?]]; [|done..]. intros [= <- <-] Hrep. exfalso.
      destruct Hrep as [Hrep|(m & Hm & _)]; [congruence|].
      by apply elem_of_nil in Hm.
    + apply Hgo.
    + apply Hgo.
  - simpl. apply Hgo.
Qed.

Lemma AliasChain_fresh (k : nat) (set : gset string) (next n : Entity) (ip : string) :
  AliasChain db since k set next ip →
  FindEntityById db (ID next) = Some n →
  StringSet.Has set (Key (EAsset n)) = false.
Proof. intros Hc Hn. inversion Hc; subst; congruence. Qed.

(** The walk ends in an address exactly along an alias chain. *)
Lemma cname_walk_Ok (k : nat) (set : gset string) (next : Entity) (ip : string) :
  (cname_walk db since k set next).1 = Ok ip ↔ AliasChain db since k set next ip.
Proof.
  split.
  - revert set next. induction k as [|k IH]; intros set next; [done|].
    rewrite cname_walk_S.
    destruct (FindEntityById db (ID next)) as [n|] eqn:Hn; [|done].
    destruct (StringSet.Has set (Key (EAsset n))) eqn:Hhas; [done|].
    assert ((cname_walk db since k (StringSet.Insert set (Key (EAsset n))) next).1
            ≠ Ok ip) as Hstay.
    { intros Hw%IH. apply (AliasChain_fresh _ _ _ n) in Hw; [|done].
      by rewrite Has_Insert_same in Hw. }
    destruct (OutgoingEdges db n since "dns_record") as [edges|] eqn:He; [|done].
    pose proof (cname_scan_spec edges) as Hscan.
    destruct (cname_scan db since edges) as [r|m|]; simpl; [| |done].
    + destruct Hscan as (e & Hfirst & Haddr & ->). intros Hg%getAddr_Ok.
      by eapply chain_end.
    + destruct Hscan as (e & Hfirst & Halias & ->). intros Hw%IH.
      by eapply chain_step.
  - induction 1 as [k set next n edges e ip Hn Hhas He Hfirst Haddr Hip
                   |k set next n edges e ip Hn Hhas He Hfirst Halias Hc IH];
      rewrite cname_walk_S, Hn, Hhas, He;
      pose proof (cname_scan_spec edges) as Hscan;
      destruct (cname_scan db since edges) as [r|m|]; simpl.
    + destruct Hscan as (e' & Hfirst' & _ & ->).
      rewrite (first_edge_unique _ _ _ _ Hfirst' Hfirst). by apply getAddr_Ok.
    + destruct Hscan as (e' & Hfirst' & Halias & _).
      rewrite (first_edge_unique _ _ _ _ Hfirst' Hfirst) in Halias.
      by apply address_not_alias in Haddr.
    + by apply (first_edge_none relevant _ e) in Hscan.
    + destruct Hscan as (e' & Hfirst' & Haddr & _).
      rewrite (first_edge_unique _ _ _ _ Hfirst' Hfirst) in Haddr.
      by apply address_not_alias in Haddr.
    + destruct Hscan as (e' & Hfirst' & _ & ->).
      by rewrite (first_edge_unique _ _ _ _ Hfirst' Hfirst).
    + by apply (first_edge_none relevant _ e) in Hscan.
Qed.

Lemma cnameQuery_Ok (fqdn : Entity) (ip : string) :
  cnameQuery db fqdn since = Ok ip ↔ AliasChain db since 10 StringSet.New fqdn ip.
Proof. apply cname_walk_Ok. Qed.

End Traversal.

(** An alias cycle [a → b → a] in any store: the walk fetches [a], [b] and
    [a] again, and fails there. *)
Lemma alias_cycle_fails (db : Repository) (since : Z) (a b : Entity)
    (ea eb : list Edge) :
  FindEntityById db (ID a) = Some a →
  FindEntityById db (ID b) = Some b →
  ToLower (Key (EAsset a)) ≠ ToLower (Key (EAsset b)) →
  OutgoingEdges db a since "dns_record" = Some ea →
  OutgoingEdges db b since "dns_record" = Some eb →
  cname_scan db since ea = ScanFollow b →
  cname_scan db since eb = ScanFollow a →
  cname_walk db since 10 StringSet.New a = (traversal_failure, [a; b; a]).
Proof.
  intros Ha Hb Hne Hea Heb Hsa Hsb.
  assert (StringSet.Has StringSet.New (Key (EAsset a)) = false) as Hfa.
  { apply bool_decide_eq_false. set_solver. }
  assert (StringSet.Has (StringSet.Insert StringSet.New (Key (EAsset a)))
                        (Key (EAsset b)) = false) as Hfb.
  { apply bool_decide_eq_false. unfold StringSet.Insert, StringSet.New.
    rewrite elem_of_union, elem_of_singleton, elem_of_empty. intros [Heq|[]].
    by apply Hne. }
  assert (StringSet.Has
            (StringSet.Insert (StringSet.Insert StringSet.New (Key (EAsset a)))
                              (Key (EAsset b)))
            (Key (EAsset a)) = true) as Hta.
  { apply Has_Insert_mono, Has_Insert_same. }
  rewrite cname_walk_S, Ha. cbn beta iota zeta.
  rewrite Hfa, Hea. cbn beta iota zeta. rewrite Hsa. cbn beta iota zeta.
  rewrite cname_walk_S, Hb. cbn beta iota zeta.
  rewrite Hfb, Heb. cbn beta iota zeta. rewrite Hsb. cbn beta iota zeta.
  rewrite cname_walk_S, Ha. cbn beta iota zeta.
  rewrite Hta. done.
Qed.

(** C3. The alias walk of [cnameQuery] ends on every store: it fetches at
    most 10 nodes; a node whose key was met before on the walk is the last
    one it fetches, and the answer then is the traversal failure; on the
    cycle [a → b → a] the walk stops at the second visit of [a] with that
    failure. *)
Theorem cnameQuery_bounded_walk (db : Repository) (fqdn : Entity) (since : Z) :
  let walk := cname_walk db since 10 StringSet.New fqdn in
  cnameQuery db fqdn since = walk.1 ∧
  (length walk.2 ≤ 10)%nat ∧
  (∀ pre n post,
      walk.2 = pre ++ n :: post →
      (∃ m, m ∈ pre ∧ Key (EAsset m) = Key (EAsset n)) →
      post = [] ∧ cnameQuery db fqdn since = traversal_failure) ∧
  cname_walk cycle_repo since 10 StringSet.New (name_entity "a.example.com")
  = (traversal_failure,
     [name_entity "a.example.com"; name_entity "b.example.com";
      name_entity "a.example.com"]).
Proof.
  cbv zeta. split; [done|]. split; [apply cname_walk_hops|]. split.
  - intros pre n post Hhops (m & Hm & Hkey).
    apply (cname_walk_repeat db since 10 StringSet.New fqdn pre n post Hhops).
    right. exists m. by rewrite Hkey.
  - by vm_compute.
Qed.

(** *** [NamesToAddrs] *)

Section Names.
Variable db : Repository.
Variable since : Z.

(** The type switch resolves an edge exactly as its record type says. *)
Lemma edge_addr_Resolves (e : Edge) (ip : string) :
  edge_addr db since e = Some ip ↔ Resolves db since e ip.
Proof.
  unfold edge_addr. split.
  - destruct (ERelation e) as [h|h|h|] eqn:He; [| | |done].
    + destruct (is_addr_type (RRType h)) eqn:Ht.
      { intros Hg%ok_addr_Some%getAddr_Ok. apply resolves_address; [|done].
        apply address_record_iff. eauto. }
      destruct (RRType h =? 5) eqn:H5; [|done]. apply Z.eqb_eq in H5.
      intros Hc%ok_addr_Some%cnameQuery_Ok. apply resolves_alias; [|done].
      by exists h.
    + destruct ((RRType h =? 2) || (RRType h =? 15)) eqn:Ht; [|done].
      intros Hg%ok_addr_Some%oneMoreName_Ok. apply resolves_indirect; [|done].
      left. exists h. split; [done|].
      apply orb_true_iff in Ht as [Ht|Ht]; apply Z.eqb_eq in Ht; auto.
    + destruct (RRType h =? 33) eqn:Ht; [|done]. apply Z.eqb_eq in Ht.
      intros Hg%ok_addr_Some%oneMoreName_Ok. apply resolves_indirect; [|done].
      right. by exists h.
  - intros [(h & -> & Ht) Ha|(h & -> & Ht) Hc|[(h & -> & Ht)|(h & -> & Ht)] Hh].
    + apply is_addr_type_iff in Ht as ->. by apply ok_addr_Some, getAddr_Ok.
    + rewrite Ht. simpl. by apply ok_addr_Some, cnameQuery_Ok.
    + assert ((RRType h =? 2) || (RRType h =? 15) = true) as ->.
      { apply orb_true_iff. rewrite !Z.eqb_eq. done. }
      by apply ok_addr_Some, oneMoreName_Ok.
    + rewrite Ht. simpl. by apply ok_addr_Some, oneMoreName_Ok.
Qed.

Lemma edges_loop_Some (edges : list Edge) (ip : string) :
  edges_loop db since edges = Some ip →
  ∃ e, e ∈ edges ∧ edge_addr db since e = Some ip.
Proof.
  induction edges as [|x rest IH]; simpl; [done|].
  destruct (edge_addr db since x) as [ip'|] eqn:Hx.
  - intros [= ->]. exists x. split; [apply list_elem_of_here|done].
  - intros (e & He & Hip)%IH. exists e. split; [by apply list_elem_of_further|done].
Qed.

Lemma edges_loop_None (edges : list Edge) :
  edges_loop db since edges = None →
  ∀ e, e ∈ edges → edge_addr db since e = None.
Proof.
  induction edges as [|x rest IH]; simpl; intros Hl e He.
  - by apply elem_of_nil in He.
  - destruct (edge_addr db since x) as [ip'|] eqn:Hx; [done|].
    apply elem_of_cons in He as [->|He]; [done|]. by apply IH.
Qed.

Lemma locate_elem (names : list string) (f : Entity) :
  f ∈ locate db since names ↔ ∃ name, name ∈ names ∧ Located db since name f.
Proof.
  unfold Located. induction names as [|name rest IH]; simpl.
  - split; [by intros ?%elem_of_nil|]. by intros (? & ?%elem_of_nil & _).
  - assert ((∃ name0, name0 ∈ name :: rest ∧
                      FindEntityByContent db (FQDN name0) since = Some [f])
            ↔ FindEntityByContent db (FQDN name) since = Some [f]
              ∨ f ∈ locate db since rest) as ->.
    { rewrite IH. split.
      - intros (n0 & [->|Hn]%elem_of_cons & Hf); eauto.
      - intros [Hf|(n0 & Hn & Hf)].
        + exists name. split; [apply list_elem_of_here|done].
        + exists n0. split; [by apply list_elem_of_further|done]. }
    destruct (FindEntityByContent db (FQDN name) since) as [[|e [|e' l]]|];
      rewrite ?elem_of_cons; split; try tauto; try (intros [[=]|?]; tauto).
    + intros [->|?]; tauto.
    + intros [[= ->]|?]; tauto.
Qed.

Lemma locate_length (names : list string) :
  (length (locate db since names) ≤ length names)%nat.
Proof.
  induction names as [|name rest IH]; simpl; [lia|].
  destruct (FindEntityByContent db (FQDN name) since) as [[|e [|e' l]]|];
    simpl; lia.
Qed.

Lemma names_loop_Done (fqdns : list Entity) (acc : list NameAddrPair) :
  (∀ f, f ∈ fqdns → ∃ n, EAsset f = FQDN n) →
  ∃ res, names_loop db since fqdns acc = Done res.
Proof.
  revert acc. induction fqdns as [|f rest IH]; intros acc Hty; simpl; [eauto|].
  assert (∀ f0, f0 ∈ rest → ∃ n, EAsset f0 = FQDN n) as Hrest.
  { intros f0 Hf0. apply Hty. by apply list_elem_of_further. }
  destruct (Hty f) as [n Hn]; [apply list_elem_of_here|].
  destruct (OutgoingEdges db f since "dns_record") as [edges|]; [|by apply IH].
  destruct (edges_loop db since edges) as [ip|]; [|by apply IH].
  rewrite Hn. by apply IH.
Qed.

Lemma names_loop_sound (fqdns : list Entity) (acc res : list NameAddrPair) :
  names_loop db since fqdns acc = Done res →
  ∀ p, p ∈ res →
    p ∈ acc ∨
    ∃ f edges e, f ∈ fqdns ∧ EAsset f = FQDN (PFQDN p) ∧
                 OutgoingEdges db f since "dns_record" = Some edges ∧
                 e ∈ edges ∧ edge_addr db since e = Some (PAddr p).
Proof.
  revert acc. induction fqdns as [|f rest IH]; intros acc; simpl.
  { intros [= <-] p Hp. by left. }
  assert (∀ acc', names_loop db since rest acc' = Done res →
            (∀ p, p ∈ acc' → p ∈ acc ∨
               ∃ f0 edges e, f0 ∈ f :: rest ∧ EAsset f0 = FQDN (PFQDN p) ∧
                 OutgoingEdges db f0 since "dns_record" = Some edges ∧
                 e ∈ edges ∧ edge_addr db since e = Some (PAddr p)) →
            ∀ p, p ∈ res → p ∈ acc ∨
               ∃ f0 edges e, f0 ∈ f :: rest ∧ EAsset f0 = FQDN (PFQDN p) ∧
                 OutgoingEdges db f0 since "dns_record" = Some edges ∧
                 e ∈ edges ∧ edge_addr db since e = Some (PAddr p)) as Hnext.
  { intros acc' Hl Hacc p Hp. destruct (IH acc' Hl p Hp) as [Hin|Hex].
    - by apply Hacc.
    - right. destruct Hex as (f0 & edges & e & Hf0 & Hrest).
      exists f0, edges, e. split; [by apply list_elem_of_further|done]. }
  destruct (OutgoingEdges db f since "dns_record") as [edges|] eqn:He;
    [|intros Hl; apply (Hnext acc Hl); auto].
  destruct (edges_loop db since edges) as [ip|] eqn:Hip;
    [|intros Hl; apply (Hnext acc Hl); auto].
  destruct (EAsset f) as [n| | |] eqn:Hn; try done.
  intros Hl. apply (Hnext _ Hl). intros p [Hp|Hp]%elem_of_app; [by left|].
  apply list_elem_of_singleton in Hp as ->. right.
  apply edges_loop_Some in Hip as (e & Hin & Hres).
  exists f, edges, e. split; [apply list_elem_of_here|done].
Qed.

Lemma names_loop_complete (fqdns : list Entity) (acc res : list NameAddrPair) :
  names_loop db since fqdns acc = Done res →
  (∀ p, p ∈ acc → p ∈ res) ∧
  ∀ f edges e ip,
    f ∈ fqdns → OutgoingEdges db f since "dns_record" = Some edges →
    e ∈ edges → edge_addr db since e = Some ip →
    ∃ p, p ∈ res ∧ EAsset f = FQDN (PFQDN p).
Proof.
  revert acc. induction fqdns as [|f rest IH]; intros acc; simpl.
  { intros [= <-]. split; [done|]. by intros ???? ?%elem_of_nil. }
  destruct (OutgoingEdges db f since "dns_record") as [edges|] eqn:He.
  2: { intros [Hacc Hall]%IH. split; [done|].
       intros f0 edges e ip [->|Hf0]%elem_of_cons; [congruence|]. by apply Hall. }
  destruct (edges_loop db since edges) as [ip|] eqn:Hip.
  2: { intros [Hacc Hall]%IH. split; [done|].
       intros f0 edges0 e ip0 [->|Hf0]%elem_of_cons; [|by apply Hall].
       intros Heq Hin Hres. rewrite He in Heq. injection Heq as <-.
       by rewrite (edges_loop_None _ Hip e Hin) in Hres. }
  destruct (EAsset f) as [n| | |] eqn:Hn; try done.
  intros [Hacc Hall]%IH. split.
  { intros p Hp. apply Hacc, elem_of_app. by left. }
  intros f0 edges0 e ip0 [->|Hf0]%elem_of_cons; [|by apply Hall].
  intros _ _ _. exists {| PFQDN := n; PAddr := ip |}. split; [|done].
  apply Hacc, elem_of_app. right. apply list_elem_of_here.
Qed.

Lemma names_loop_length (fqdns : list Entity) (acc res : list NameAddrPair) :
  names_loop db since fqdns acc = Done res →
  (length res ≤ length acc + length fqdns)%nat.
Proof.
  revert acc. induction fqdns as [|f rest IH]; intros acc; simpl.
  { intros [= <-]. lia. }
  destruct (OutgoingEdges db f since "dns_record") as [edges|];
    [|intros Hl%IH; lia].
  destruct (edges_loop db since edges) as [ip|]; [|intros Hl%IH; lia].
  destruct (EAsset f); try done.
  intros Hl%IH. rewrite length_app in Hl. simpl in Hl. lia.
Qed.

End Names.

Lemma table_repo_typed (entities : list (string * Entity))
    (edges : list (string * list Edge)) (since : Z) :
  content_typed (table_repo entities edges) since.
Proof.
  intros name f. unfold Located. simpl. intros [= Hf].
  assert (f ∈ List.filter (λ e : Entity, bool_decide (EAsset e = FQDN name))
                          (snd <$> entities)) as Hin.
  { rewrite Hf. apply list_elem_of_here. }
  apply list_elem_of_In, filter_In in Hin as [_ Heq].
  apply bool_decide_eq_true in Heq. eauto.
Qed.

(** The sample store: an alias, a mail exchanger and a service record
    each lead to an address; an unknown name gives no pair. *)
Example NamesToAddrs_sample :
  NamesToAddrs sample_repo 0
    ["www.example.com"; "example.com"; "_sip._tcp.example.com"; "nope.example.com"]
  = Done [ {| PFQDN := "www.example.com"; PAddr := "192.0.2.1" |};
           {| PFQDN := "example.com"; PAddr := "192.0.2.2" |};
           {| PFQDN := "_sip._tcp.example.com"; PAddr := "192.0.2.1" |} ].
Proof. by vm_compute. Qed.

(** The type switch looks at the relation and at the type code together:
    type 2 is followed on a preference relation and skipped on a basic
    relation. *)
Example NamesToAddrs_relation_and_type :
  NamesToAddrs ns_repo 0 ["ns-pref.example.com"; "ns-basic.example.com"]
  = Done [ {| PFQDN := "ns-pref.example.com"; PAddr := "198.51.100.7" |} ].
Proof. by vm_compute. Qed.

(** What the type switch does. On a store whose nodes for a name are FQDN
    nodes, [NamesToAddrs] returns a list with at most one pair per name, in which:
    every pair [(name, address)] comes from an outgoing [dns_record] edge
    of the located node of one of the names, resolved according to its
    relation and record type (a basic relation of type 1 or 28 gives the
    address of its target; a basic relation of type 5 is followed along
    the alias chain; a preference relation of type 2 or 15, or a service
    relation of type 33, takes one more hop to the first address record of
    the referenced name; no other edge resolves); and every located name
    with an edge that resolves has a pair in the list. *)
Theorem NamesToAddrs_by_record_type (db : Repository) (since : Z)
    (names : list string) :
  content_typed db since →
  ∃ res,
    NamesToAddrs db since names = Done res ∧
    (length res ≤ length names)%nat ∧
    (∀ p, p ∈ res →
       ∃ name f edges e,
         name ∈ names ∧ Located db since name f ∧
         EAsset f = FQDN (PFQDN p) ∧
         OutgoingEdges db f since "dns_record" = Some edges ∧
         e ∈ edges ∧ Resolves db since e (PAddr p)) ∧
    (∀ name f edges e ip,
       name ∈ names → Located db since name f →
       OutgoingEdges db f since "dns_record" = Some edges →
       e ∈ edges → Resolves db since e ip →
       ∃ p, p ∈ res ∧ EAsset f = FQDN (PFQDN p)).
Proof.
  intros Hty. unfold NamesToAddrs.
  destruct (names_loop_Done db since (locate db since names) []) as [res Hres].
  { intros f (name & _ & Hloc)%locate_elem. by apply (Hty name). }
  exists res. split; [done|]. split; [|split].
  - apply names_loop_length in Hres. pose proof (locate_length db since names).
    simpl in Hres. lia.
  - intros p Hp.
    destruct (names_loop_sound db since _ _ _ Hres p Hp)
      as [Hnil|(f & edges & e & Hf & Hn & He & Hin & Haddr)].
    { by apply elem_of_nil in Hnil. }
    apply locate_elem in Hf as (name & Hname & Hloc).
    exists name, f, edges, e. repeat split; try done.
    by apply edge_addr_Resolves.
  - intros name f edges e ip Hname Hloc He Hin Hr.
    apply names_loop_complete in Hres as [_ Hall].
    apply (Hall f edges e ip); try done.
    + apply locate_elem. eauto.
    + by apply edge_addr_Resolves.
Qed.

Lemma NamesToAddrs_by_record_type_witness :
  content_typed sample_repo 0 ∧
  ∃ res,
    NamesToAddrs sample_repo 0 ["www.example.com"; "example.com"] = Done res ∧
    (length res ≤ length ["www.example.com"; "example.com"])%nat ∧
    (∀ p, p ∈ res →
       ∃ name f edges e,
         name ∈ ["www.example.com"; "example.com"] ∧
         Located sample_repo 0 name f ∧
         EAsset f = FQDN (PFQDN p) ∧
         OutgoingEdges sample_repo f 0 "dns_record" = Some edges ∧
         e ∈ edges ∧ Resolves sample_repo 0 e (PAddr p)) ∧
    (∀ name f edges e ip,
       name ∈ ["www.example.com"; "example.com"] →
       Located sample_repo 0 name f →
       OutgoingEdges sample_repo f 0 "dns_record" = Some edges →
       e ∈ edges → Resolves sample_repo 0 e ip →
       ∃ p, p ∈ res ∧ EAsset f = FQDN (PFQDN p)).
Proof.
  split; [apply table_repo_typed|].
  apply (NamesToAddrs_by_record_type sample_repo 0
           ["www.example.com"; "example.com"]).
  apply table_repo_typed.
Defined.

Lemma edges_loop_basic_ns (db : Repository) (since : Z) (edges : list Edge) :
  Forall basic_ns_record edges → edges_loop db since edges = None.
Proof.
  induction 1 as [|e rest (h & Hrel & Hrr) _ IH]; simpl; [done|].
  unfold edge_addr. rewrite Hrel. unfold is_addr_type. by rewrite Hrr.
Qed.

(** C6, where the code departs from it. The comment above the loop of
    [NamesToAddrs] has it get the addresses of SRV, NS and MX records, and
    the claim gives a name server record one more hop to an address
    record. The type switch follows type 2 on a preference relation only:
    a located name whose [dns_record] edges are name server records on
    basic relations gets no pair, whatever address records the name
    servers have. *)
Theorem NamesToAddrs_skips_basic_ns (db : Repository) (since : Z)
    (name : string) (f : Entity) (edges : list Edge) :
  Located db since name f →
  OutgoingEdges db f since "dns_record" = Some edges →
  Forall basic_ns_record edges →
  NamesToAddrs db since [name] = Done [].
Proof.
  intros Hloc Hedges Hns. unfold NamesToAddrs. simpl.
  unfold Located in Hloc. rewrite Hloc. simpl. rewrite Hedges.
  by rewrite (edges_loop_basic_ns db since edges Hns).
Qed.

(** The store [ns_repo]: the name is located, its one edge is a name
    server record on a basic relation, the name server has an address
    record one hop away, and the name gets no pair. *)
Lemma NamesToAddrs_skips_basic_ns_witness :
  let f := name_entity "ns-basic.example.com" in
  let ns := name_entity "ns1.example.net" in
  Located ns_repo 0 "ns-basic.example.com" f ∧
  OutgoingEdges ns_repo f 0 "dns_record" = Some [dns_edge (basic 2) f ns] ∧
  Forall basic_ns_record [dns_edge (basic 2) f ns] ∧
  OneHop ns_repo 0 ns "198.51.100.7" ∧
  NamesToAddrs ns_repo 0 ["ns-basic.example.com"] = Done [].
Proof.
  cbv zeta.
  assert (Forall basic_ns_record
            [dns_edge (basic 2) (name_entity "ns-basic.example.com")
                      (name_entity "ns1.example.net")]) as Hns.
  { constructor; [|constructor]. by exists {| RRType := 2 |}. }
  split; [reflexivity|]. split; [reflexivity|]. split; [exact Hns|]. split.
  - exists [dns_edge (basic 1) (name_entity "ns1.example.net")
                     (addr_entity "198.51.100.7")],
           (dns_edge (basic 1) (name_entity "ns1.example.net")
                     (addr_entity "198.51.100.7")).
    split; [reflexivity|]. split.
    + exists [], []. split; [reflexivity|]. split; [|constructor].
      exists {| RRType := 1 |}. split; [reflexivity|]. by left.
    + exists (addr_entity "198.51.100.7"). split; reflexivity.
  - apply (NamesToAddrs_skips_basic_ns ns_repo 0 "ns-basic.example.com"
             (name_entity "ns-basic.example.com")
             [dns_edge (basic 2) (name_entity "ns-basic.example.com")
                       (name_entity "ns1.example.net")]);
      [reflexivity|reflexivity|exact Hns].
Defined.

End AddrFacts.

(** ** The session and the session manager *)

Module SessionsFacts.
Import Sessions.

(** *** [Kill] and [Done] *)

Lemma Kill_closed (s : Session) : done s = ChanClosed → Kill s = Some (s, []).
Proof. unfold Kill. by intros ->. Qed.

Lemma Kill_open (s : Session) :
  done s = ChanOpen →
  Kill s = Some (with_done s ChanClosed, [DoneBroadcast (id s)]).
Proof. unfold Kill. by intros ->. Qed.

Lemma Kill_times_closed (n : nat) (s : Session) :
  done s = ChanClosed → Kill_times n s = Some (s, []).
Proof.
  intros Hs. induction n as [|n IH]; simpl; [done|].
  by rewrite (Kill_closed s Hs), IH.
Qed.

Lemma Done_iff (s : Session) : Done s = true ↔ done s = ChanClosed.
Proof. unfold Done. by destruct (done s). Qed.

(** C8. [Kill] never panics and leaves the session done. On a session
    that is not done it broadcasts the done-signal once; on a session that
    is done it changes nothing and broadcasts nothing. So any number of
    calls, one after the other, end in the state the first call made and
    broadcast exactly as often as the first call did: once for a live
    session. *)
Theorem Kill_idempotent (s : Session) :
  ∃ s1 ev1,
    Kill s = Some (s1, ev1) ∧
    Done s1 = true ∧
    ev1 = (if Done s then [] else [DoneBroadcast (id s)]) ∧
    Kill s1 = Some (s1, []) ∧
    (∀ n, (0 < n)%nat → Kill_times n s = Some (s1, ev1)).
Proof.
  destruct (done s) eqn:Hs.
  - exists (with_done s ChanClosed), [DoneBroadcast (id s)].
    rewrite (Kill_open s Hs). unfold Done. rewrite Hs. simpl.
    repeat split; try done.
    intros [|n] Hn; [lia|]. simpl. rewrite (Kill_open s Hs).
    by rewrite Kill_times_closed.
  - exists s, []. rewrite (Kill_closed s Hs). unfold Done. rewrite Hs. simpl.
    repeat split; try done.
    intros n _. by apply Kill_times_closed.
Qed.

(** A second [Kill] on the sample session: one broadcast in all. *)
Example Kill_twice_sample :
  Kill_times 2 sample_session
  = Some (with_done sample_session ChanClosed, [DoneBroadcast "6f1c"]).
Proof. reflexivity. Qed.

(** *** [NewManager] *)

(** With an empty setting the constructor stops at its first test. *)
Lemma NewManager_with_unset (redisPassword : string) (ping : result unit) :
  NewManager_with "" redisPassword ping
  = (None, [LogError "Redis address or password not set in environment variables"]).
Proof. reflexivity. Qed.

(** C10. [NewManager] never reports that the Redis address or password is
    not set: both are non-empty constants. Whatever the server answers,
    the constructor either returns a manager, after a successful ping, or
    returns nil after reporting that the connection failed. *)
Theorem NewManager_settings_branch_unreachable (ping : result unit) :
  (LogError "Redis address or password not set in environment variables"
     ∉ (NewManager ping).2) ∧
  match ping with
  | Ok _ =>
      NewManager ping
      = (Some {| redis := ("redis:6379", "amass4OWASP"); sessions := ∅ |},
         [LogInfo "Successfully connected to Redis"])
  | Err _ =>
      NewManager ping = (None, [LogError "Failed to connect to Redis"])
  end.
Proof.
  destruct ping as [u|msg]; (split; [|reflexivity]); simpl;
    intros [=]%list_elem_of_singleton.
Qed.

(** *** [CancelSession] *)

Lemma wait_busy (ticks : list SessionStats) :
  Forall busy ticks → wait_quiescent ticks = false.
Proof.
  induction 1 as [|ss rest Hb _ IH]; simpl; [done|].
  unfold busy in Hb.
  destruct (WorkItemsTotal ss =? WorkItemsCompleted ss) eqn:Heq; [|done].
  apply Z.eqb_eq in Heq. lia.
Qed.

Lemma wait_until_equal (pre : list SessionStats) (ss : SessionStats)
    (post : list SessionStats) :
  WorkItemsCompleted ss = WorkItemsTotal ss →
  wait_quiescent (pre ++ ss :: post) = true.
Proof.
  intros Heq. induction pre as [|x pre IH]; simpl.
  - by rewrite Heq, Z.eqb_refl.
  - by destruct (WorkItemsTotal x =? WorkItemsCompleted x).
Qed.

(** What [Kill] does inside [CancelSession]. *)
Lemma Kill_fields (s : Session) :
  ∃ s1, Kill s = Some (s1, if Done s then [] else [DoneBroadcast (id s)]) ∧
        c s1 = c s ∧ tmpdir s1 = tmpdir s ∧ db s1 = db s ∧ set s1 = set s.
Proof.
  unfold Kill, Done. destruct (done s); simpl.
  - by exists (with_done s ChanClosed).
  - by exists s.
Qed.

(** What [CancelSession] does by itself, whatever [Session.Delete] does:
    while every reading of the counters has
    [WorkItemsCompleted < WorkItemsTotal] the call is still inside its
    loop, the session is still registered, and the call has made the
    done-broadcast and called [Session.Delete] and nothing else; once a
    reading has both counters equal, the call returns, having closed the
    cache, the graph store and the event set and removed the temp
    directory where the session has them, and a later [GetSession] with
    the same id finds nothing. *)
Lemma CancelSession_waits_then_releases (Delete : delete_model) (r : manager)
    (sid : string) (s : Session) (ticks : list SessionStats) :
  GetSession r sid = Some s →
  ∃ s1,
    Kill s = Some (s1, if Done s then [] else [DoneBroadcast (id s)]) ∧
    let before :=
      (if Done s then [] else [DoneBroadcast (id s)])
        ++ SessionDelete sid :: Delete s1 in
    (Forall busy ticks →
       ∃ r', CancelSession Delete r sid ticks = (Waiting, r', before) ∧
             is_Some (GetSession r' sid)) ∧
    (∀ pre ss post,
       ticks = pre ++ ss :: post →
       Forall busy pre →
       WorkItemsCompleted ss = WorkItemsTotal ss →
       ∃ r' after,
         CancelSession Delete r sid ticks = (Returned, r', before ++ after) ∧
         GetSession r' sid = None ∧
         (is_Some (c s) → CacheClose sid ∈ after) ∧
         (tmpdir s ≠ "" → RemoveAll (tmpdir s) ∈ after) ∧
         (is_Some (db s) → DBClose sid ∈ after) ∧
         (is_Some (set s) → EventSetClose sid ∈ after)).
Proof.
  intros Hget. unfold CancelSession. rewrite Hget.
  destruct (Kill_fields s) as (s1 & Hkill & Hc & Hdir & Hdb & Hset).
  exists s1. split; [done|]. rewrite Hkill. cbv zeta. split.
  - intros Hbusy. rewrite (wait_busy _ Hbusy). eexists. split; [done|].
    unfold GetSession. simpl. rewrite lookup_insert_eq. eauto.
  - intros pre ss post -> _ Heq. rewrite (wait_until_equal _ _ _ Heq).
    unfold release. simpl. rewrite lookup_insert_eq, Hc, Hdir, Hdb, Hset.
    eexists _, _. split; [done|]. split; [apply lookup_delete_eq|].
    repeat split.
    + intros Hs. rewrite (bool_decide_eq_true_2 _ Hs). unfold when. set_solver.
    + intros Hne. apply String.eqb_neq in Hne. rewrite Hne. unfold when.
      simpl negb. cbv iota. set_solver.
    + intros [h Hh]. rewrite Hh. set_solver.
    + intros Hs. rewrite (bool_decide_eq_true_2 (is_Some (set s)) Hs).
      unfold when. set_solver.
Qed.





(** The sample session with one work item outstanding: the call is still
    waiting and the cache, the directory and the store are gone. *)
Example CancelSession_busy_sample :
  let '(p, r', ev) :=
    CancelSession Delete_spec sample_manager "6f1c"
      [ {| WorkItemsCompleted := 0; WorkItemsTotal := 1 |} ] in
  p = Waiting ∧ is_Some (GetSession r' "6f1c") ∧
  ev = [DoneBroadcast "6f1c"; SessionDelete "6f1c"; CacheClose "6f1c";
        RemoveAll "/tmp/amass-6f1c"; DBClose "6f1c"].
Proof. vm_compute. repeat split. eauto. Qed.

(** The sample session: two readings, the second one quiescent. *)
Example CancelSession_sample :
  let '(p, r', ev) :=
    CancelSession sample_delete sample_manager "6f1c"
      [ {| WorkItemsCompleted := 1; WorkItemsTotal := 3 |};
        {| WorkItemsCompleted := 3; WorkItemsTotal := 3 |} ] in
  p = Returned ∧ GetSession r' "6f1c" = None ∧
  ev = [DoneBroadcast "6f1c"; SessionDelete "6f1c";
        LogInfo "session 6f1c deleted"; CacheClose "6f1c";
        RemoveAll "/tmp/amass-6f1c"; DBClose "6f1c"; EventSetClose "6f1c"].
Proof. by vm_compute. Qed.

(** While the counters differ the call has not come back. *)
Example CancelSession_sample_waiting :
  let '(p, r', ev) :=
    CancelSession sample_delete sample_manager "6f1c"
      [ {| WorkItemsCompleted := 1; WorkItemsTotal := 3 |};
        {| WorkItemsCompleted := 2; WorkItemsTotal := 3 |} ] in
  p = Waiting ∧ is_Some (GetSession r' "6f1c") ∧
  ev = [DoneBroadcast "6f1c"; SessionDelete "6f1c";
        LogInfo "session 6f1c deleted"].
Proof. vm_compute. repeat split. eauto. Qed.

End SessionsFacts.

(** ** The scrape plugin *)

Module LetItGoFacts.
Import GoStrings GoStringsFacts OAM LetItGo.

(** *** Lower case *)

Lemma lower_byte_idem (c : ascii) : lower_byte (lower_byte c) = lower_byte c.
Proof. by destruct c as [[] [] [] [] [] [] [] []]. Qed.

Lemma lower_byte_not_upper (c : ascii) : is_upper (lower_byte c) = false.
Proof. by destruct c as [[] [] [] [] [] [] [] []]. Qed.

Lemma ToLower_idem (s : string) : ToLower (ToLower s) = ToLower s.
Proof.
  induction s as [|c s IH]; simpl; [done|]. by rewrite lower_byte_idem, IH.
Qed.

Lemma ToLower_no_upper (s : string) : has_upper (ToLower s) = false.
Proof.
  induction s as [|c s IH]; simpl; [done|]. by rewrite lower_byte_not_upper, IH.
Qed.

(** *** What [query] hands to [store] *)

Lemma collect_elem (env : Env) (ds : list string) (subs : gset string) (n : string) :
  n ∈ Gated.collect env ds subs ↔
  n ∈ subs ∨
  ∃ d bare, d ∈ ds ∧ HasSuffix d "onmicrosoft.com" = false ∧
            EffectiveTLDPlusOne env d = Some bare ∧ n = ToLower bare.
Proof.
  revert subs. induction ds as [|d rest IH]; intros subs; simpl.
  - split; [by left|]. intros [?|(? & ? & ?%elem_of_nil & _)]; done.
  - assert (∀ P : Prop,
              (P ↔ n ∈ subs ∨
                   ∃ d0 bare, d0 ∈ rest ∧ HasSuffix d0 "onmicrosoft.com" = false ∧
                              EffectiveTLDPlusOne env d0 = Some bare ∧
                              n = ToLower bare) →
              (HasSuffix d "onmicrosoft.com" = true ∨
               EffectiveTLDPlusOne env d = None) →
              (P ↔ n ∈ subs ∨
                   ∃ d0 bare, d0 ∈ d :: rest ∧
                              HasSuffix d0 "onmicrosoft.com" = false ∧
                              EffectiveTLDPlusOne env d0 = Some bare ∧
                              n = ToLower bare)) as Hskip.
    { intros P -> Hd. split.
      - intros [?|(d0 & bare & Hin & Hrest)]; [by left|]. right.
        exists d0, bare. split; [by apply list_elem_of_further|done].
      - intros [?|(d0 & bare & [->|Hin]%elem_of_cons & Hs & He & Hn)]; [by left| |].
        + destruct Hd; congruence.
        + right. eauto 6. }
    destruct (HasSuffix d "onmicrosoft.com") eqn:Hs; [apply Hskip; auto|].
    destruct (EffectiveTLDPlusOne env d) as [bare|] eqn:He; [|apply Hskip; auto].
    rewrite IH. unfold StringSet.Insert. rewrite ToLower_idem.
    rewrite elem_of_union, elem_of_singleton. split.
    + intros [[->|?]|(d0 & bare0 & Hin & Hrest)].
      * right. exists d, bare. split; [apply list_elem_of_here|done].
      * by left.
      * right. exists d0, bare0. split; [by apply list_elem_of_further|done].
    + intros [?|(d0 & bare0 & [->|Hin]%elem_of_cons & Hs0 & He0 & Hn)].
      * left. by right.
      * left. left. congruence.
      * right. eauto 6.
Qed.

(** Every name handed to [store] is the lower-cased effective TLD plus
    one of a response domain that does not end, as it was received, with
    [onmicrosoft.com]. *)
Lemma stored_names_elem (env : Env) (ds : list string) (n : string) :
  n ∈ Gated.stored_names env ds ↔
  ∃ d bare, d ∈ ds ∧ HasSuffix d "onmicrosoft.com" = false ∧
            EffectiveTLDPlusOne env d = Some bare ∧ n = ToLower bare.
Proof.
  unfold Gated.stored_names, StringSet.Slice, StringSet.New.
  rewrite elem_of_elements, collect_elem. split; [|by right].
  intros [?%elem_of_empty|?]; done.
Qed.

Lemma stored_names_lower (env : Env) (ds : list string) (n : string) :
  n ∈ Gated.stored_names env ds → has_upper n = false.
Proof.
  intros (d & bare & _ & _ & _ & ->)%stored_names_elem. apply ToLower_no_upper.
Qed.

(** C9, at the failing input. The filter compares the response domain as
    it was received, so [Contoso.OnMicrosoft.com] passes it; whenever the
    public suffix list gives this domain an effective TLD plus one whose
    lower case ends with [onmicrosoft.com], [query] hands a name with
    that suffix to [store]. *)
Theorem query_stores_mixed_case_onmicrosoft (env : Env) (bare : string) :
  EffectiveTLDPlusOne env "Contoso.OnMicrosoft.com" = Some bare →
  HasSuffix (ToLower bare) "onmicrosoft.com" = true →
  ∃ n, n ∈ Gated.stored_names env ["Contoso.OnMicrosoft.com"] ∧
       HasSuffix n "onmicrosoft.com" = true.
Proof.
  intros He Hs. exists (ToLower bare). split; [|done].
  apply stored_names_elem. exists "Contoso.OnMicrosoft.com", bare.
  split; [apply list_elem_of_here|]. split; [by vm_compute|done].
Qed.

Lemma query_stores_mixed_case_onmicrosoft_witness :
  EffectiveTLDPlusOne (sample_env (λ _, Domains ["Contoso.OnMicrosoft.com"]))
    "Contoso.OnMicrosoft.com" = Some "OnMicrosoft.com" ∧
  HasSuffix (ToLower "OnMicrosoft.com") "onmicrosoft.com" = true ∧
  ∃ n, n ∈ Gated.stored_names (sample_env (λ _, Domains ["Contoso.OnMicrosoft.com"]))
             ["Contoso.OnMicrosoft.com"] ∧
       HasSuffix n "onmicrosoft.com" = true.
Proof.
  split; [by vm_compute|]. split; [by vm_compute|].
  apply (query_stores_mixed_case_onmicrosoft
           (sample_env (λ _, Domains ["Contoso.OnMicrosoft.com"]))
           "OnMicrosoft.com"); by vm_compute.
Defined.

(** The whole query on that response: the node [onmicrosoft.com] is made
    and the domain is added to the scope. *)
Example query_mixed_case_sample :
  let env := sample_env (λ _, Domains ["Contoso.OnMicrosoft.com"]) in
  let '(w', r) := Gated.query env start_world (Some seed_event) "example.com" in
  r = Ok [{| ID := "onmicrosoft.com"; EAsset := FQDN "onmicrosoft.com" |}] ∧
  cache w' = ["example.com"; "onmicrosoft.com"] ∧
  scope w' = ["example.com"; "onmicrosoft.com"].
Proof. by vm_compute. Qed.

(** *** What the calls leave untouched *)

Lemma CreateAsset_frame (env : Env) (w : World) (name : string) :
  let w1 := (CreateAsset env w name).1 in
  now w1 = now w ∧ monitored w1 = monitored w ∧ soap_calls w1 = soap_calls w ∧
  scope w1 = scope w ∧ dispatched w1 = dispatched w ∧
  (cache w1 = cache w ∨ ((name ∉ cache w) ∧ cache w1 = cache w ++ [name])) ∧
  (is_Some (CreateAsset env w name).2 → name ∈ cache w1) ∧
  ((CreateAsset env w name).2 = None → w1 = w).
Proof.
  unfold CreateAsset. destruct (store_fails env name); simpl.
  { repeat split; auto; done. }
  destruct (bool_decide (name ∈ cache w)) eqn:Hin; simpl.
  - apply bool_decide_eq_true in Hin. repeat split; auto; done.
  - apply bool_decide_eq_false in Hin.
    split; [done|]. split; [done|]. split; [done|]. split; [done|].
    split; [done|]. split; [by right|]. split; [|done].
    intros _. apply elem_of_app. right. apply list_elem_of_here.
Qed.

Lemma store_frame (env : Env) (w : World) (names : list string) (acc : list Entity) :
  let w' := (Gated.store env w names acc).1 in
  now w' = now w ∧ monitored w' = monitored w ∧ soap_calls w' = soap_calls w.
Proof.
  revert w acc. induction names as [|name rest IH]; intros w acc; simpl; [done|].
  pose proof (CreateAsset_frame env w name) as (Hn & Hm & Hs & _).
  destruct (CreateAsset env w name) as [w1 [a|]]; simpl in *.
  - unfold AddDomain. destruct (bool_decide (name ∈ scope _)).
    + destruct (IH (add_source_prop w1 a source) (acc ++ [a])) as (-> & -> & ->).
      done.
    + destruct (IH (add_log (set_scope (add_source_prop w1 a source)
                               (scope (add_source_prop w1 a source) ++ [name]))
                      "Domain added to scope") (acc ++ [a])) as (-> & -> & ->).
      done.
  - destruct (IH (add_log w1 "store error") acc) as (-> & -> & ->). done.
Qed.

Lemma store_plain_frame (helper : Plain.store_helper) (w : World)
    (names : list string) :
  let w' := (Plain.store helper w names).1 in
  now w' = now w ∧ monitored w' = monitored w ∧ soap_calls w' = soap_calls w ∧
  log w' = log w.
Proof. unfold Plain.store. by destruct (helper (cache w) names). Qed.

(** A query sends one request and touches neither the clock nor the
    marks. *)
Lemma query_frame (env : Env) (w : World) (e : Event) (name : string) :
  let w' := (Gated.query env w (Some e) name).1 in
  now w' = now w ∧ monitored w' = monitored w ∧
  soap_calls w' = soap_calls w ++ [name].
Proof.
  unfold Gated.query. destruct (soap env name) as [err|err|ds]; simpl; [done..|].
  destruct (StringSet.Len _ =? 0)%nat; simpl; [done|].
  pose proof (store_frame env (add_soap_call w name)
                (StringSet.Slice (Gated.collect env ds StringSet.New)) []) as Hf.
  by destruct (Gated.store env _ _ _) as [w' ents].
Qed.

Lemma query_plain_frame (helper : Plain.store_helper) (env : Env) (w : World)
    (e : Event) (name : string) :
  let w' := (Plain.query helper env w (Some e) name).1 in
  now w' = now w ∧ monitored w' = monitored w ∧
  soap_calls w' = soap_calls w ++ [name] ∧ log w' = log w.
Proof.
  unfold Plain.query. destruct (soap env name) as [err|err|ds]; simpl; [done..|].
  destruct (StringSet.Len _ =? 0)%nat; simpl; [done|].
  pose proof (store_plain_frame helper (add_soap_call w name)
                (StringSet.Slice (Plain.collect ds StringSet.New))) as Hf.
  by destruct (Plain.store helper _ _) as [w' ents].
Qed.

Lemma finish_frame (w : World) (names : list Entity) :
  (finish w names).2 = Ok tt ∧
  now (finish w names).1 = now w ∧
  monitored (finish w names).1 = monitored w ∧
  soap_calls (finish w names).1 = soap_calls w.
Proof. unfold finish. by destruct (0 <? length names)%nat. Qed.

(** *** Zero findings *)

Lemma Len_zero (s : gset string) : (StringSet.Len s =? 0)%nat = true ↔ s = ∅.
Proof.
  unfold StringSet.Len. rewrite Nat.eqb_eq. split.
  - intros H. by apply leibniz_equiv, size_empty_iff.
  - intros ->. apply size_empty.
Qed.

Lemma collect_plain_elem (ds : list string) (subs : gset string) (d : string) :
  d ∈ ds → ToLower d ∈ Plain.collect ds subs.
Proof.
  revert subs. induction ds as [|x rest IH]; intros subs; [by intros ?%elem_of_nil|].
  assert (∀ l s n, n ∈ s → n ∈ Plain.collect l s) as Hmono.
  { induction l as [|y l IHl]; intros s0 n Hn; simpl; [done|].
    apply IHl. unfold StringSet.Insert. set_solver. }
  intros [->|Hin]%elem_of_cons; simpl.
  - apply Hmono. unfold StringSet.Insert. rewrite ToLower_idem. set_solver.
  - by apply IH.
Qed.

(** C7, as amended. A query whose request and decoding succeed but which
    is left with no domain returns no entities together with the error
    "no valid domains found", in the gated variant as in letitgo.go; it
    returns success exactly when at least one domain was collected, and
    an error of the request or of the decoding is returned as an error
    too. The handlers answer success all the same: the handler of
    letitgo.go whatever the query returned, and on an error of the query
    both handlers write the line "Query failed" to the log and do nothing
    else, the gated one whenever it gets as far as the query. *)
Theorem query_no_findings_is_error (helper : Plain.store_helper) (env : Env)
    (w : World) (e : Event) (name : string) :
  match soap env name with
  | PostFailed err =>
      (Gated.query env w (Some e) name).2 = Err err ∧
      (Plain.query helper env w (Some e) name).2 = Err err
  | DecodeFailed err =>
      (Gated.query env w (Some e) name).2 = Err ("failed to parse XML: " +:+ err) ∧
      (Plain.query helper env w (Some e) name).2 = Err err
  | Domains ds =>
      (Gated.collect env ds StringSet.New = ∅ →
         (Gated.query env w (Some e) name).2 = Err "no valid domains found") ∧
      (Gated.collect env ds StringSet.New ≠ ∅ →
         is_ok (Gated.query env w (Some e) name).2 = true) ∧
      (ds = [] →
         (Plain.query helper env w (Some e) name).2 = Err "no valid domains found") ∧
      (ds ≠ [] → is_ok (Plain.query helper env w (Some e) name).2 = true)
  end ∧
  (EAsset (EEntity e) = FQDN name →
     (Plain.check helper env w e).2 = Ok tt ∧
     ∀ msg, (Plain.query helper env w (Some e) name).2 = Err msg →
       Plain.check helper env w e
       = (add_log (Plain.query helper env w (Some e) name).1 "Query failed",
          None, Ok tt)) ∧
  (∀ f conf since msg,
     EAsset (EEntity e) = FQDN name →
     IsAssetInScope env (scope w) name = (Some (FQDN f), conf) →
     conf ≠ 0 →
     EqualFold name f = true →
     TTLStartTime env (now w) = Some since →
     AssetMonitoredWithinTTL w (EEntity e) source since = false →
     (Gated.query env w (Some e) name).2 = Err msg →
     Gated.check env w e
     = (add_log (Gated.query env w (Some e) name).1 "Query failed", Ok tt)).
Proof.
  split; [|split].
  - unfold Gated.query, Plain.query. destruct (soap env name) as [err|err|ds]; [done..|].
    repeat split.
    + intros Hempty. by rewrite (proj2 (Len_zero _) Hempty).
    + intros Hne. destruct (StringSet.Len _ =? 0)%nat eqn:Hlen.
      { by apply Len_zero in Hlen. }
      by destruct (Gated.store env _ _ _).
    + by intros ->.
    + intros Hne.
      destruct (StringSet.Len (Plain.collect ds StringSet.New) =? 0)%nat eqn:Hlen.
      { apply Len_zero in Hlen. destruct ds as [|d rest]; [done|]. exfalso.
        pose proof (collect_plain_elem (d :: rest) StringSet.New d
                      (list_elem_of_here _ _)) as Hin.
        rewrite Hlen in Hin. by apply elem_of_empty in Hin. }
      by destruct (Plain.store helper _ _).
  - intros Hname. unfold Plain.check. rewrite Hname.
    destruct (Plain.query helper env w (Some e) name) as [w1 [ents|msg]]; simpl.
    + split; [by destruct (0 <? length ents)%nat|]. by intros msg.
    + split; [done|]. by intros msg' _.
  - intros f conf since msg Hname Hscope Hconf Hfold Httl Hmon Herr.
    unfold Gated.check. rewrite Hname, Hscope, Hfold, Httl, Hmon.
    apply Z.eqb_neq in Hconf. rewrite Hconf. cbn [orb negb].
    by destruct (Gated.query env w (Some e) name) as [w1 [ents|msg']].
Qed.

(** C7, as stated, fails on a response without domains: the request and
    the decoding succeed and nothing is found, yet the query returns the
    error "no valid domains found" instead of an empty result. *)
Lemma query_empty_response_counterexample :
  soap (sample_env (λ _, Domains [])) "example.com" = Domains [] ∧
  (Gated.query (sample_env (λ _, Domains [])) start_world (Some seed_event)
         "example.com").2 = Err "no valid domains found" ∧
  (Plain.query sample_helper (sample_env (λ _, Domains [])) start_world
               (Some seed_event) "example.com").2
  = Err "no valid domains found".
Proof. by vm_compute. Qed.

(** On the response without domains both handlers answer success, with
    the line "Query failed" in the log and the asset left unmarked. *)
Example check_logs_failed_query :
  let env := sample_env (λ _, Domains []) in
  let plain := Plain.check sample_helper env start_world seed_event in
  let gated := Gated.check env start_world seed_event in
  plain.2 = Ok tt ∧ log plain.1.1 = ["Query failed"] ∧ plain.1.2 = None ∧
  monitored plain.1.1 = [] ∧
  gated.2 = Ok tt ∧ log gated.1 = ["Query failed"] ∧ monitored gated.1 = [].
Proof. by vm_compute. Qed.

(** *** The TTL gate *)

Lemma marked_within (w : World) (a : Entity) (src : Source) (t since : Z) :
  (ID a, SName src, t) ∈ monitored w → since ≤ t →
  AssetMonitoredWithinTTL w a src since = true.
Proof.
  intros Hin Hle. unfold AssetMonitoredWithinTTL. apply existsb_exists.
  exists (ID a, SName src, t). split; [by apply list_elem_of_In|].
  rewrite !String.eqb_refl. by apply Z.leb_le.
Qed.

(** A handler that finds its asset monitored sends nothing. *)
Lemma check_no_call_when_monitored (env : Env) (w : World) (e : Event) :
  (∀ since, TTLStartTime env (now w) = Some since →
            AssetMonitoredWithinTTL w (EEntity e) source since = true) →
  soap_calls (Gated.check env w e).1 = soap_calls w.
Proof.
  intros Hmon. unfold Gated.check.
  destruct (EAsset (EEntity e)) as [name| | |]; try done.
  destruct (IsAssetInScope env (scope w) name) as [[[f| | |]|] conf]; try done.
  destruct ((conf =? 0) || negb (EqualFold name f)); [done|].
  destruct (TTLStartTime env (now w)) as [since|] eqn:Ht; [|done].
  rewrite (Hmon since eq_refl). apply finish_frame.
Qed.

(** The handler of letitgo.go asks the service for every FQDN event,
    whether or not the asset was monitored before. *)
Lemma check_plain_always_queries (helper : Plain.store_helper) (env : Env)
    (w : World) (e : Event) (name : string) :
  EAsset (EEntity e) = FQDN name →
  soap_calls (Plain.check helper env w e).1.1 = soap_calls w ++ [name].
Proof.
  intros Hname. unfold Plain.check. rewrite Hname.
  pose proof (query_plain_frame helper env w e name) as (_ & _ & Hs & _).
  destruct (Plain.query helper env w (Some e) name) as [w1 [ents|msg]];
    simpl in *; [|done].
  by destruct (0 <? length ents)%nat.
Qed.

(** C2, as amended: the handler with the TTL gate. For an event whose
    name is a root domain of the scope and a configured TTL, the handler
    answers success and
    - on a TTL hit only reads the neighbours the cache remembers: no
      request is sent and no mark is written;
    - on a TTL miss sends one request; when the query returns without
      error the asset is marked as monitored at the current time, and a
      later event for it whose TTL window still holds that time sends no
      request; when the query returns an error the asset is left
      unmarked. *)
Theorem check_ttl_gate (env : Env) (w : World) (e : Event) (name f : string)
    (conf since : Z) :
  EAsset (EEntity e) = FQDN name →
  IsAssetInScope env (scope w) name = (Some (FQDN f), conf) →
  conf ≠ 0 →
  EqualFold name f = true →
  TTLStartTime env (now w) = Some since →
  let w' := (Gated.check env w e).1 in
  (Gated.check env w e).2 = Ok tt ∧
  (AssetMonitoredWithinTTL w (EEntity e) source since = true →
     Gated.check env w e = finish w (SourceToAssetsWithinTTL env w name since) ∧
     soap_calls w' = soap_calls w ∧ monitored w' = monitored w) ∧
  (AssetMonitoredWithinTTL w (EEntity e) source since = false →
     soap_calls w' = soap_calls w ++ [name] ∧
     match (Gated.query env w (Some e) name).2 with
     | Ok _ =>
         monitored w' = (ID (EEntity e), SName source, now w) :: monitored w ∧
         ∀ w2 since',
           (ID (EEntity e), SName source, now w) ∈ monitored w2 →
           TTLStartTime env (now w2) = Some since' → since' ≤ now w →
           soap_calls (Gated.check env w2 e).1 = soap_calls w2
     | Err _ => monitored w' = monitored w
     end).
Proof.
  intros Hname Hscope Hconf Hfold Httl. cbv zeta.
  assert (Gated.check env w e =
          if AssetMonitoredWithinTTL w (EEntity e) source since
          then finish w (SourceToAssetsWithinTTL env w name since)
          else match Gated.query env w (Some e) name with
               | (w1, Err _) => (add_log w1 "Query failed", Ok tt)
               | (w1, Ok entities) =>
                   finish (MarkAssetMonitored w1 (EEntity e) source) entities
               end) as Hcheck.
  { unfold Gated.check. rewrite Hname, Hscope, Hfold, Httl.
    apply Z.eqb_neq in Hconf. by rewrite Hconf. }
  rewrite Hcheck. clear Hcheck.
  destruct (AssetMonitoredWithinTTL w (EEntity e) source since) eqn:Hmon.
  - destruct (finish_frame w (SourceToAssetsWithinTTL env w name since))
      as (Hr & _ & Hm & Hs).
    split; [done|]. split; [done|]. done.
  - pose proof (query_frame env w e name) as (Hn & Hm & Hs).
    destruct (Gated.query env w (Some e) name) as [w1 [ents|msg]]; simpl in Hn, Hm, Hs.
    + destruct (finish_frame (MarkAssetMonitored w1 (EEntity e) source) ents)
        as (Hr & Hn' & Hm' & Hs').
      split; [done|]. split; [done|]. intros _.
      split; [by rewrite Hs'|].
      assert (monitored (finish (MarkAssetMonitored w1 (EEntity e) source) ents).1
              = (ID (EEntity e), SName source, now w) :: monitored w) as Hmark.
      { rewrite Hm'. simpl. by rewrite Hn, Hm. }
      cbn [snd]. split; [done|].
      intros w2 since' Hin Ht Hle.
      apply check_no_call_when_monitored.
      intros since0 Hsince0. rewrite Ht in Hsince0. injection Hsince0 as <-.
      by apply (marked_within _ _ _ (now w)).
    + split; [done|]. split; [done|]. intros _. split; [done|]. done.
Qed.

Lemma check_ttl_gate_witness :
  let env := sample_env (λ _, Domains ["www.example.org"]) in
  let w' := (Gated.check env start_world seed_event).1 in
  (Gated.check env start_world seed_event).2 = Ok tt ∧
  (AssetMonitoredWithinTTL start_world (EEntity seed_event) source 8560 = true →
     Gated.check env start_world seed_event
     = finish start_world
         (SourceToAssetsWithinTTL env start_world "example.com" 8560) ∧
     soap_calls w' = soap_calls start_world ∧
     monitored w' = monitored start_world) ∧
  (AssetMonitoredWithinTTL start_world (EEntity seed_event) source 8560 = false →
     soap_calls w' = soap_calls start_world ++ ["example.com"] ∧
     match (Gated.query env start_world (Some seed_event) "example.com").2 with
     | Ok _ =>
         monitored w'
         = (ID (EEntity seed_event), SName source, now start_world)
             :: monitored start_world ∧
         ∀ w2 since',
           (ID (EEntity seed_event), SName source, now start_world)
             ∈ monitored w2 →
           TTLStartTime env (now w2) = Some since' → since' ≤ now start_world →
           soap_calls (Gated.check env w2 seed_event).1 = soap_calls w2
     | Err _ => monitored w' = monitored start_world
     end).
Proof.
  apply (check_ttl_gate (sample_env (λ _, Domains ["www.example.org"]))
           start_world seed_event "example.com" "example.com" 100 8560).
  - reflexivity.
  - by vm_compute.
  - lia.
  - by vm_compute.
  - reflexivity.
Defined.

(** The same event twice within the TTL: one request. *)
Example check_twice_one_request :
  let env := sample_env (λ _, Domains ["www.example.org"]) in
  let w1 := (Gated.check env start_world seed_event).1 in
  let w2 := (Gated.check env (set_now w1 10060) seed_event).1 in
  soap_calls w2 = ["example.com"] ∧
  monitored w2 = [("example.com", "LetItGo", 10000)].
Proof. by vm_compute. Qed.

(** C2, as stated, fails when the query fails. The first event finds the
    asset not monitored and sends a request; the request fails, so the
    asset is not marked; the same event, at the same time, sends a second
    request: two requests for one asset and source within one TTL
    window. *)
Lemma check_failed_query_counterexample :
  let env := sample_env (λ _, PostFailed "timeout") in
  let w1 := (Gated.check env start_world seed_event).1 in
  let w2 := (Gated.check env w1 seed_event).1 in
  TTLStartTime env (now start_world) = Some 8560 ∧
  AssetMonitoredWithinTTL start_world (EEntity seed_event) source 8560 = false ∧
  soap_calls w1 = ["example.com"] ∧
  monitored w1 = [] ∧
  now w1 = now start_world ∧
  soap_calls w2 = ["example.com"; "example.com"].
Proof. by vm_compute. Qed.

(** *** Re-submission of what was found *)

Lemma resubmit_spec (env : Env) (w : World) (keys : list string) :
  let w' := (Resubmit.resubmit env w keys).1 in
  scope w' = scope w ∧
  ∃ created sent,
    cache w' = cache w ++ created ∧
    dispatched w' = dispatched w ++ sent ∧
    Forall (λ b, b ∈ keys ∧ 0 < (IsAssetInScope env (scope w) b).2) created ∧
    Forall (λ b, b ∈ keys ∧ 0 < (IsAssetInScope env (scope w) b).2 ∧ b ∈ cache w')
           sent.
Proof.
  revert w. induction keys as [|k rest IH]; intros w; simpl.
  { split; [done|]. exists [], []. by rewrite !app_nil_r. }
  assert (∀ w0 : World,
            scope w0 = scope w → cache w0 = cache w → dispatched w0 = dispatched w →
            scope (Resubmit.resubmit env w0 rest).1 = scope w ∧
            ∃ created sent,
              cache (Resubmit.resubmit env w0 rest).1 = cache w ++ created ∧
              dispatched (Resubmit.resubmit env w0 rest).1 = dispatched w ++ sent ∧
              Forall (λ b, b ∈ k :: rest ∧ 0 < (IsAssetInScope env (scope w) b).2)
                     created ∧
              Forall (λ b, b ∈ k :: rest ∧ 0 < (IsAssetInScope env (scope w) b).2
                           ∧ b ∈ cache (Resubmit.resubmit env w0 rest).1) sent) as Hskip.
  { intros w0 Hsc Hca Hdi.
    destruct (IH w0) as (Hs & created & sent & Hc & Hd & Hcr & Hse).
    rewrite Hsc in Hs, Hcr, Hse. rewrite Hca in Hc. rewrite Hdi in Hd.
    split; [done|]. exists created, sent. repeat split; try done.
    - eapply Forall_impl; [exact Hcr|]. intros b [? ?].
      split; [by apply list_elem_of_further|done].
    - eapply Forall_impl; [exact Hse|]. intros b (? & ? & ?).
      split; [by apply list_elem_of_further|done]. }
  destruct (IsAssetInScope env (scope w) k) as [a conf] eqn:Hk.
  destruct (0 <? conf) eqn:Hpos; [|by apply Hskip].
  apply Z.ltb_lt in Hpos.
  pose proof (CreateAsset_frame env w k) as (_ & _ & _ & Hsc & Hdi & Hca & Hin & Hnone).
  destruct (CreateAsset env w k) as [w1 [entity|]] eqn:Hcreate; simpl in *.
  2: { rewrite (Hnone eq_refl). by apply Hskip. }
  assert (k ∈ cache w1) as Hk1 by (apply Hin; eauto).
  assert (0 < (IsAssetInScope env (scope w) k).2) as Hkpos by (by rewrite Hk).
  assert (∃ c0, cache w1 = cache w ++ c0 ∧
                Forall (λ b, b ∈ k :: rest ∧ 0 < (IsAssetInScope env (scope w) b).2) c0)
    as (c0 & Hc0 & Hc0ok).
  { destruct Hca as [Hca|[_ Hca]].
    - exists []. rewrite app_nil_r. split; [done|constructor].
    - exists [k]. split; [done|].
      constructor; [split; [apply list_elem_of_here|done]|constructor]. }
  destruct (dispatch_fails env k).
  { simpl. split; [done|]. exists c0, [k]. split; [done|].
    split; [by rewrite Hdi|]. split; [done|].
    constructor; [|constructor].
    split; [apply list_elem_of_here|]. split; done. }
  destruct (IH (add_dispatched w1 k)) as (Hs & created & sent & Hc & Hd & Hcr & Hse).
  simpl in Hs, Hc, Hd, Hcr, Hse. rewrite Hsc in Hs, Hcr, Hse.
  split; [done|]. exists (c0 ++ created), (k :: sent).
  split; [by rewrite Hc, Hc0, app_assoc|].
  split; [by rewrite Hd, Hdi, <- app_assoc|].
  split.
  - apply Forall_app. split; [done|].
    eapply Forall_impl; [exact Hcr|]. intros b [? ?].
    split; [by apply list_elem_of_further|done].
  - constructor.
    + split; [apply list_elem_of_here|]. split; [done|].
      rewrite Hc. apply elem_of_app. by left.
    + eapply Forall_impl; [exact Hse|]. intros b (? & ? & ?).
      split; [by apply list_elem_of_further|done].
Qed.

(** When neither the store nor the dispatcher fails, every key with a
    positive confidence is re-submitted. *)
Lemma resubmit_all_in_scope (env : Env) (w : World) (keys : list string) :
  (∀ b, store_fails env b = false ∧ dispatch_fails env b = false) →
  ∀ b, b ∈ keys → 0 < (IsAssetInScope env (scope w) b).2 →
       b ∈ dispatched (Resubmit.resubmit env w keys).1.
Proof.
  intros Hok. revert w. induction keys as [|k rest IH]; intros w b Hb Hpos.
  { by apply elem_of_nil in Hb. }
  assert (∀ w0, b ∈ dispatched w0 → b ∈ dispatched (Resubmit.resubmit env w0 rest).1) as Hkeep.
  { intros w0 Hin.
    destruct (resubmit_spec env w0 rest) as (_ & created & sent & _ & -> & _).
    apply elem_of_app. by left. }
  simpl. destruct (IsAssetInScope env (scope w) k) as [a conf] eqn:Hk.
  destruct (Hok k) as [Hst Hdf].
  pose proof (CreateAsset_frame env w k) as (_ & _ & _ & Hsc & Hdi & _).
  apply elem_of_cons in Hb as [->|Hb].
  - rewrite Hk in Hpos. simpl in Hpos. apply Z.ltb_lt in Hpos. rewrite Hpos.
    unfold CreateAsset in *. rewrite Hst in *. rewrite Hdf.
    destruct (bool_decide (k ∈ cache w)); simpl; apply Hkeep; simpl;
      apply elem_of_app; right; apply list_elem_of_here.
  - destruct (0 <? conf); [|by apply IH].
    unfold CreateAsset in *. rewrite Hst in *. rewrite Hdf.
    destruct (bool_decide (k ∈ cache w)); simpl in *; apply IH; done.
Qed.

(** C5. [Run] creates nodes and dispatches events only for bare domains
    of the response whose scope check gives a positive confidence: the
    cache and the list of dispatched events grow by such domains only, a
    dispatched domain has its node, and a domain with confidence zero is
    neither created nor dispatched. When nothing fails on the way, every
    bare domain with a positive confidence is dispatched. *)
Theorem Run_resubmits_only_in_scope (env : Env) (w : World) (e : Event) :
  let w' := (Resubmit.Run env w e).1 in
  let produced :=
    match soap env (EName e) with
    | Domains ds => range_keys env (Resubmit.bare_domains env ds ∅)
    | _ => []
    end in
  let conf b := (IsAssetInScope env (scope w) b).2 in
  ∃ created sent,
    cache w' = cache w ++ created ∧
    dispatched w' = dispatched w ++ sent ∧
    Forall (λ b, b ∈ produced ∧ 0 < conf b) created ∧
    Forall (λ b, b ∈ produced ∧ 0 < conf b ∧ b ∈ cache w') sent ∧
    (∀ b, conf b = 0 → (b ∉ created) ∧ (b ∉ sent)) ∧
    ((∀ b, store_fails env b = false ∧ dispatch_fails env b = false) →
     ∀ b, b ∈ produced → 0 < conf b → b ∈ dispatched w').
Proof.
  cbv zeta. unfold Resubmit.Run.
  destruct (soap env (EName e)) as [err|err|ds]; simpl.
  1,2: exists [], []; rewrite !app_nil_r; repeat split; try done;
       try constructor; try (by intros ?%elem_of_nil);
       by intros _ b ?%elem_of_nil.
  destruct (resubmit_spec env (add_soap_call w (EName e))
              (range_keys env (Resubmit.bare_domains env ds ∅)))
    as (_ & created & sent & Hc & Hd & Hcr & Hse).
  change (cache (add_soap_call w (EName e))) with (cache w) in Hc.
  change (dispatched (add_soap_call w (EName e))) with (dispatched w) in Hd.
  change (scope (add_soap_call w (EName e))) with (scope w) in Hcr, Hse.
  exists created, sent. split; [done|]. split; [done|]. split; [done|].
  split; [done|]. split.
  - intros b Hb. rewrite Forall_forall in Hcr, Hse.
    split; intros Hin; [apply Hcr in Hin as [_ ?]|apply Hse in Hin as (_ & ? & _)];
      lia.
  - intros Hok b Hb Hpos.
    by apply (resubmit_all_in_scope env (add_soap_call w (EName e))).
Qed.

(** The seed [example.com] and a response that names a host below it and
    a host of [partner.org]: only [example.com] is dispatched. *)
Example Run_sample :
  let env := sample_env (λ _, Domains ["www.example.com"; "mail.partner.org"]) in
  let w' := (Resubmit.Run env start_world seed_event).1 in
  cache w' = ["example.com"] ∧ dispatched w' = ["example.com"].
Proof. by vm_compute. Qed.

End LetItGoFacts.

(** ** The prefixes of an autonomous system *)

Module PrefixesFacts.
Import OAM Prefixes.

(** What the loop adds: the netblocks at the far end of the edges. *)
Lemma prefixes_loop_elem (db : AssetDB) (edges : list Edge) (acc : list string)
    (p : string) :
  p ∈ prefixes_loop db edges acc ↔
  p ∈ acc ∨
  ∃ edge a, edge ∈ edges ∧
            FindEntityById (Repo db) (ID (ToEntity edge)) = Some a ∧
            EAsset a = Netblock p.
Proof.
  revert acc. induction edges as [|edge rest IH]; intros acc; simpl.
  - split; [by left|]. intros [?|(? & ? & ?%elem_of_nil & _)]; done.
  - assert ((∃ edge0 a, edge0 ∈ edge :: rest ∧
                FindEntityById (Repo db) (ID (ToEntity edge0)) = Some a ∧
                EAsset a = Netblock p)
            ↔ (∃ a, FindEntityById (Repo db) (ID (ToEntity edge)) = Some a ∧
                    EAsset a = Netblock p)
              ∨ ∃ edge0 a, edge0 ∈ rest ∧
                  FindEntityById (Repo db) (ID (ToEntity edge0)) = Some a ∧
                  EAsset a = Netblock p) as ->.
    { split.
      - intros (e0 & a & [->|Hin]%elem_of_cons & Hrest); [left|right]; eauto.
      - intros [(a & Ha)|(e0 & a & Hin & Hrest)].
        + exists edge, a. split; [apply list_elem_of_here|done].
        + exists e0, a. split; [by apply list_elem_of_further|done]. }
    destruct (FindEntityById (Repo db) (ID (ToEntity edge))) as [a|] eqn:Ha.
    + destruct (EAsset a) as [n|ip|cidr|d] eqn:Hasset; rewrite IH.
      1,2,4: split; [tauto|]; intros [?|[(a' & [= <-] & Hn)|?]]; [tauto| |tauto];
             congruence.
      rewrite elem_of_app, list_elem_of_singleton. split.
      * intros [[?| ->]|?]; [tauto| |tauto]. right. left. eauto.
      * intros [?|[(a' & [= <-] & Hn)|?]]; [tauto| |tauto].
        left. right. congruence.
    + rewrite IH. split; [tauto|]. intros [?|[(a' & [=] & _)|?]]; tauto.
Qed.

(** The prefixes come in the order of the edges, one for each edge that
    leads to a netblock. *)
Lemma prefixes_loop_order (db : AssetDB) (edges : list Edge) (acc : list string) :
  prefixes_loop db edges acc =
  acc ++ omap (λ edge,
                 match FindEntityById (Repo db) (ID (ToEntity edge)) with
                 | Some {| EAsset := Netblock cidr |} => Some cidr
                 | _ => None
                 end) edges.
Proof.
  revert acc. induction edges as [|edge rest IH]; intros acc; simpl.
  - by rewrite app_nil_r.
  - destruct (FindEntityById (Repo db) (ID (ToEntity edge))) as [[i a]|]; simpl;
      [|apply IH].
    destruct a; rewrite IH; [done..| |done]. by rewrite <- app_assoc.
Qed.

(** [ReadASPrefixes] lists a prefix exactly when the store knows one node
    for the autonomous system, this node has an [announces] edge, the
    target of the edge can be fetched, and it is a netblock with that
    prefix. A store that errs, or that knows no node or several nodes for
    the number, gives no prefix at all. *)
Theorem ReadASPrefixes_announced (db : AssetDB) (asn since : Z) (p : string) :
  p ∈ ReadASPrefixes db asn since ↔
  ∃ node edges edge a,
    FindByContent_AS db asn since = Some [node] ∧
    OutgoingEdges (Repo db) node since "announces" = Some edges ∧
    edge ∈ edges ∧
    FindEntityById (Repo db) (ID (ToEntity edge)) = Some a ∧
    EAsset a = Netblock p.
Proof.
  unfold ReadASPrefixes. split.
  - destruct (FindByContent_AS db asn since) as [[|node [|? ?]]|] eqn:Hn;
      try by intros ?%elem_of_nil.
    destruct (OutgoingEdges (Repo db) node since "announces") as [edges|] eqn:He;
      [|by intros ?%elem_of_nil].
    intros [?%elem_of_nil|(edge & a & Hin & Ha & Hp)]%prefixes_loop_elem; [done|].
    by exists node, edges, edge, a.
  - intros (node & edges & edge & a & -> & -> & Hin & Ha & Hp).
    apply prefixes_loop_elem. right. eauto.
Qed.

(** The sample system: the two netblocks, in the order of the edges; the
    edge to the missing node and the edge to the name give nothing. *)
Example ReadASPrefixes_sample :
  ReadASPrefixes sample_as_db 64500 0 = ["192.0.2.0/24"; "198.51.100.0/24"] ∧
  ReadASPrefixes sample_as_db 64501 0 = [].
Proof. by vm_compute. Qed.

End PrefixesFacts.

(** ** The names and addresses of cmd/amass/subs.go *)

Module SubsDataFacts.
Import GoStrings OAM Addr Prefixes SubsData.

(** *** [getNames] *)

Lemma names_of_spec (assets : list Entity) (filter : gset string)
    (names : list Output) :
  (∀ x, x ∈ filter ↔ x ∈ lowered names) →
  NoDup (lowered names) →
  NoDup (lowered (names_of assets filter names)) ∧
  (∃ more, names_of assets filter names = names ++ more ∧
           ∀ o, o ∈ more →
             Addresses o = [] ∧ ∃ a, a ∈ assets ∧ EAsset a = FQDN (Name o)) ∧
  (∀ a n, a ∈ assets → EAsset a = FQDN n →
     ToLower n ∈ lowered (names_of assets filter names)).
Proof.
  revert filter names. induction assets as [|a rest IH]; intros filter names Hf Hnd.
  { simpl. split; [done|]. split.
    - exists []. rewrite app_nil_r. split; [done|]. by intros o ?%elem_of_nil.
    - by intros a n ?%elem_of_nil. }
  assert (∀ res : list Output,
    (NoDup (lowered res) ∧
     (∃ more, res = names ++ more ∧
              ∀ o, o ∈ more →
                Addresses o = [] ∧ ∃ a0, a0 ∈ rest ∧ EAsset a0 = FQDN (Name o)) ∧
     (∀ a0 n, a0 ∈ rest → EAsset a0 = FQDN n → ToLower n ∈ lowered res)) →
    (∀ n, EAsset a = FQDN n → ToLower n ∈ lowered names) →
    NoDup (lowered res) ∧
    (∃ more, res = names ++ more ∧
             ∀ o, o ∈ more →
               Addresses o = [] ∧ ∃ a0, a0 ∈ a :: rest ∧ EAsset a0 = FQDN (Name o)) ∧
    (∀ a0 n, a0 ∈ a :: rest → EAsset a0 = FQDN n → ToLower n ∈ lowered res))
    as Hskip.
  { intros res (Hnd' & (more & -> & Hmore) & Hall) Hseen. split; [done|]. split.
    - exists more. split; [done|]. intros o Ho.
      destruct (Hmore o Ho) as (Hnil & a0 & Ha0 & Hname). split; [done|].
      exists a0. split; [by apply list_elem_of_further|done].
    - intros a0 n [->|Ha0]%elem_of_cons Hn; [|by apply (Hall a0)].
      unfold lowered. rewrite fmap_app, elem_of_app. left. by apply Hseen. }
  simpl. destruct (EAsset a) as [n|ip|cidr|d] eqn:Ha.
  2-4: apply Hskip; [by apply IH|done].
  destruct (StringSet.Has filter n) eqn:Hhas; simpl.
  - apply Hskip; [by apply IH|]. intros n' [= <-].
    apply bool_decide_eq_true in Hhas. by apply Hf.
  - apply bool_decide_eq_false in Hhas.
    assert (ToLower n ∉ lowered names) as Hfresh by (by rewrite <- Hf).
    destruct (IH (StringSet.Insert filter n)
                 (names ++ [{| Name := n; Addresses := [] |}]))
      as (Hnd' & (more & Hres & Hmore) & Hall).
    { intros x. unfold StringSet.Insert, lowered.
      rewrite elem_of_union, elem_of_singleton, fmap_app, elem_of_app, Hf. simpl.
      rewrite list_elem_of_singleton. tauto. }
    { unfold lowered. rewrite fmap_app. simpl. apply NoDup_app. split; [done|].
      split; [|apply NoDup_singleton].
      intros x Hx ->%list_elem_of_singleton. done. }
    split; [done|]. split.
    + exists ({| Name := n; Addresses := [] |} :: more).
      split; [by rewrite Hres, <- app_assoc|].
      intros o [->|Ho]%elem_of_cons.
      * split; [done|]. exists a. split; [apply list_elem_of_here|done].
      * destruct (Hmore o Ho) as (Hnil & a0 & Ha0 & Hname). split; [done|].
        exists a0. split; [by apply list_elem_of_further|done].
    + intros a0 n' [->|Ha0]%elem_of_cons Hn'; [|by apply (Hall a0)].
      rewrite Ha in Hn'. injection Hn' as <-. rewrite Hres. unfold lowered.
      rewrite !fmap_app, !elem_of_app. left. right. simpl. apply list_elem_of_here.
Qed.

(** [getNames] lists the names of the FQDN nodes that the scope query
    finds, each once: no two outputs have the same name when letter case
    is ignored, every output carries the name of an FQDN node found and no
    address yet, and every FQDN node found has an output with its name up
    to letter case. *)
Theorem getNames_each_name_once (db : AssetDB) (domains : list string)
    (asninfo : bool) (assets : list Entity) :
  domains ≠ [] →
  FindByScope db (FQDN <$> domains) qtime = Some assets →
  NoDup ((λ o, ToLower (Name o)) <$> getNames db domains asninfo) ∧
  (∀ o, o ∈ getNames db domains asninfo →
     Addresses o = [] ∧ ∃ a, a ∈ assets ∧ EAsset a = FQDN (Name o)) ∧
  (∀ a n, a ∈ assets → EAsset a = FQDN n →
     ∃ o, o ∈ getNames db domains asninfo ∧ ToLower (Name o) = ToLower n).
Proof.
  intros Hd Hfind. unfold getNames. rewrite Hfind.
  destruct domains as [|d0 domains]; [done|]. simpl.
  destruct (names_of_spec assets StringSet.New [])
    as (Hnd & (more & Hres & Hmore) & Hall).
  { intros x. unfold StringSet.New, lowered. simpl.
    rewrite elem_of_empty, elem_of_nil. done. }
  { constructor. }
  split; [done|]. split.
  - intros o Ho. apply Hmore. by rewrite Hres in Ho.
  - intros a n Ha Hn. specialize (Hall a n Ha Hn).
    apply list_elem_of_fmap in Hall as (o & Ho & Hin). by exists o.
Qed.

Lemma getNames_each_name_once_witness :
  ["example.com"] ≠ [] ∧
  ∃ assets,
    FindByScope sample_names_db (FQDN <$> ["example.com"]) qtime = Some assets ∧
    NoDup ((λ o, ToLower (Name o)) <$> getNames sample_names_db ["example.com"] false) ∧
    (∀ o, o ∈ getNames sample_names_db ["example.com"] false →
       Addresses o = [] ∧ ∃ a, a ∈ assets ∧ EAsset a = FQDN (Name o)) ∧
    (∀ a n, a ∈ assets → EAsset a = FQDN n →
       ∃ o, o ∈ getNames sample_names_db ["example.com"] false ∧
            ToLower (Name o) = ToLower n).
Proof.
  split; [done|]. eexists. split; [reflexivity|].
  apply (getNames_each_name_once sample_names_db ["example.com"] false);
    [done|reflexivity].
Defined.

(** The second spelling of [www.example.com] is left out; without a
    domain nothing is asked and nothing listed. *)
Example getNames_sample :
  Name <$> getNames sample_names_db ["example.com"] false
  = ["www.example.com"; "mail.example.com"; "www.example.org"] ∧
  getNames sample_names_db [] false = [].
Proof. by vm_compute. Qed.

(** *** [addAddresses] *)

Lemma index_names_spec (names : list Output) (lookup : gmap string Output)
    (strs : list string) :
  index_names names lookup strs = (indexed names lookup, strs ++ (Name <$> names)).
Proof.
  revert lookup strs. induction names as [|n rest IH]; intros lookup strs; simpl.
  - by rewrite app_nil_r.
  - rewrite IH. by rewrite <- app_assoc.
Qed.

Lemma indexed_keyed (names : list Output) (lookup : gmap string Output) :
  keyed lookup → keyed (indexed names lookup).
Proof.
  revert lookup. induction names as [|n rest IH]; intros lookup Hk; [done|].
  apply IH. intros k o. destruct (decide (k = Name n)) as [->|Hne].
  - rewrite lookup_insert_eq. by intros [= <-].
  - rewrite lookup_insert_ne by done. apply Hk.
Qed.

Lemma indexed_lookup (names : list Output) (lookup : gmap string Output)
    (k : string) (o : Output) :
  indexed names lookup !! k = Some o → o ∈ names ∨ lookup !! k = Some o.
Proof.
  revert lookup. induction names as [|n rest IH]; intros lookup; [by right|].
  intros [Hin|Hl]%IH; [left; by apply list_elem_of_further|].
  destruct (decide (k = Name n)) as [->|Hne].
  - rewrite lookup_insert_eq in Hl. injection Hl as <-. left. apply list_elem_of_here.
  - rewrite lookup_insert_ne in Hl by done. by right.
Qed.

Lemma indexed_keeps (names : list Output) (lookup : gmap string Output) (k : string) :
  is_Some (lookup !! k) → is_Some (indexed names lookup !! k).
Proof.
  revert lookup. induction names as [|n rest IH]; intros lookup Hs; [done|].
  apply IH. destruct (decide (k = Name n)) as [->|Hne].
  - rewrite lookup_insert_eq. eauto.
  - by rewrite lookup_insert_ne.
Qed.

Lemma indexed_has (names : list Output) (lookup : gmap string Output) (n : Output) :
  n ∈ names → is_Some (indexed names lookup !! Name n).
Proof.
  revert lookup. induction names as [|n0 rest IH]; intros lookup.
  - by intros ?%elem_of_nil.
  - intros [->|Hin]%elem_of_cons; [|by apply IH].
    change (indexed (n0 :: rest) lookup)
      with (indexed rest (<[Name n0 := n0]> lookup)).
    apply indexed_keeps. rewrite lookup_insert_eq. eauto.
Qed.

Lemma with_Addresses_same (o : Output) : with_Addresses o (Addresses o) = o.
Proof. by destruct o. Qed.

Lemma add_pairs_lookup (env : Env) (pairs : list NameAddrPair)
    (lookup : gmap string Output) (k : string) :
  add_pairs env pairs lookup !! k
  = (λ o, with_Addresses o (Addresses o ++ found env pairs k)) <$> lookup !! k.
Proof.
  revert lookup. induction pairs as [|p rest IH]; intros lookup; simpl.
  { destruct (lookup !! k) as [o|]; simpl; [|done].
    by rewrite app_nil_r, with_Addresses_same. }
  unfold found. simpl. fold (found env rest k).
  destruct (String.eqb (PFQDN p) "" || String.eqb (PAddr p) "") eqn:Hskip;
    [apply IH|].
  destruct (String.eqb (PFQDN p) k) eqn:Hk.
  - apply String.eqb_eq in Hk as <-.
    destruct (lookup !! PFQDN p) as [o|] eqn:Ho; simpl.
    + rewrite IH, lookup_insert_eq. simpl. unfold with_Addresses. simpl.
      by rewrite <- app_assoc.
    + by rewrite IH, Ho.
  - apply String.eqb_neq in Hk.
    destruct (lookup !! PFQDN p) as [o|] eqn:Ho; simpl; [|apply IH].
    by rewrite IH, lookup_insert_ne.
Qed.

Lemma found_elem (env : Env) (pairs : list NameAddrPair) (k : string)
    (a : AddressInfo) :
  a ∈ found env pairs k →
  ∃ p, p ∈ pairs ∧ PFQDN p = k ∧ Address a = ParseIP env (PAddr p).
Proof.
  unfold found. intros (p & Hp & Ha)%list_elem_of_omap. exists p. split; [done|].
  destruct (String.eqb (PFQDN p) "" || String.eqb (PAddr p) ""); [done|].
  destruct (String.eqb (PFQDN p) k) eqn:Hk; [|done].
  apply String.eqb_eq in Hk. by injection Ha as <-.
Qed.

Lemma found_has (env : Env) (pairs : list NameAddrPair) (p : NameAddrPair) :
  p ∈ pairs → PFQDN p ≠ "" → PAddr p ≠ "" →
  parsed env p ∈ found env pairs (PFQDN p).
Proof.
  intros Hp Hn Ha. unfold found. apply list_elem_of_omap. exists p. split; [done|].
  apply String.eqb_neq in Hn, Ha. by rewrite Hn, Ha, String.eqb_refl.
Qed.

Lemma has_address_iff (o : Output) : has_address o = true ↔ Addresses o ≠ [].
Proof. unfold has_address. destruct (Addresses o); simpl; split; done. Qed.

Lemma with_addresses_spec (entries : list (string * Output)) (acc : list Output) :
  with_addresses entries acc = acc ++ List.filter has_address (entries.*2).
Proof.
  revert acc. induction entries as [|[k o] rest IH]; intros acc; simpl.
  - by rewrite app_nil_r.
  - fold (has_address o). destruct (has_address o); rewrite IH; [|done].
    by rewrite <- app_assoc.
Qed.

Lemma range_elem (env : Env) (m : gmap string Output) (k : string) (o : Output) :
  map_order env → (k, o) ∈ range_lookup env m ↔ m !! k = Some o.
Proof. intros Hord. by rewrite (Hord m), elem_of_map_to_list. Qed.

Lemma range_names_NoDup (env : Env) (m : gmap string Output) :
  map_order env → keyed m → NoDup (Name <$> (range_lookup env m).*2).
Proof.
  intros Hord Hk.
  assert (Name <$> (range_lookup env m).*2 = (range_lookup env m).*1) as ->.
  { rewrite <- list_fmap_compose. apply list_fmap_ext.
    intros i [k o] Hi. simpl. apply (Hk k o).
    apply (range_elem env m k o Hord). by apply list_elem_of_lookup_2 in Hi. }
  rewrite (Hord m). apply NoDup_fst_map_to_list.
Qed.

(** The map as [addAddresses] leaves it: every given name, with the
    addresses of its pairs behind the ones it had. *)
Lemma add_pairs_keyed (env : Env) (pairs : list NameAddrPair)
    (lookup : gmap string Output) :
  keyed lookup → keyed (add_pairs env pairs lookup).
Proof.
  intros Hk k o. rewrite add_pairs_lookup.
  destruct (lookup !! k) as [o0|] eqn:Ho; simpl; [|done].
  intros [= <-]. simpl. by apply Hk.
Qed.

Lemma filter_names_NoDup (l : list Output) (P : Output → bool) :
  NoDup (Name <$> l) → NoDup (Name <$> List.filter P l).
Proof.
  induction l as [|o l IH]; simpl; [done|].
  intros [Hnot Hnd]%NoDup_cons. destruct (P o); simpl; [|by apply IH].
  apply NoDup_cons. split; [|by apply IH].
  intros (o' & Heq & Hin)%list_elem_of_fmap. apply Hnot.
  apply list_elem_of_fmap. exists o'. split; [done|].
  apply list_elem_of_In, filter_In in Hin as [Hin _]. by apply list_elem_of_In.
Qed.

(** Without the ASN table, [addAddresses] hands back each name at most
    once and only with an address: an output is one of the given names,
    with the addresses it had followed by the parsed addresses of pairs
    of [NamesToAddrs] that carry its name, and it has at least one; every
    pair with a name and an address whose name was given shows in the
    output of that name. A given name without any address is left out. *)
Theorem addAddresses_only_with_address (env : Env) (db : AssetDB)
    (names : list Output) (asninfo : bool) (cache : option ASNCache)
    (pairs : list NameAddrPair) :
  map_order env →
  asninfo = false ∨ cache = None →
  NamesToAddrs (Repo db) qtime (Name <$> names) = Done pairs →
  ∃ out,
    addAddresses env db names asninfo cache = Done out ∧
    NoDup (Name <$> out) ∧
    (∀ o, o ∈ out →
       Addresses o ≠ [] ∧
       ∃ n more, n ∈ names ∧ Name n = Name o ∧
                 Addresses o = Addresses n ++ more ∧
                 ∀ a, a ∈ more →
                   ∃ p, p ∈ pairs ∧ PFQDN p = Name o ∧
                        Address a = ParseIP env (PAddr p)) ∧
    (∀ p, p ∈ pairs → PFQDN p ≠ "" → PAddr p ≠ "" → PFQDN p ∈ Name <$> names →
       ∃ o a, o ∈ out ∧ Name o = PFQDN p ∧ a ∈ Addresses o ∧
              Address a = ParseIP env (PAddr p)).
Proof.
  intros Hord Hplain Hpairs. unfold addAddresses.
  rewrite index_names_spec. simpl. rewrite Hpairs.
  set (lookup := add_pairs env pairs (indexed names ∅)).
  assert (keyed (indexed names ∅)) as Hk0 by (by apply indexed_keyed).
  assert (keyed lookup) as Hk by (by apply add_pairs_keyed).
  exists (List.filter has_address (range_lookup env lookup).*2).
  split.
  { destruct Hplain as [-> | ->]; [|destruct asninfo];
      by rewrite with_addresses_spec. }
  split; [by apply filter_names_NoDup, range_names_NoDup|]. split.
  - intros o Ho. apply list_elem_of_In, filter_In in Ho as [Ho Hhas].
    apply list_elem_of_In, list_elem_of_fmap in Ho as ([k o'] & -> & Hin).
    simpl in *. apply (range_elem env lookup k o' Hord) in Hin.
    split; [by apply has_address_iff|].
    unfold lookup in Hin. rewrite add_pairs_lookup in Hin.
    destruct (indexed names ∅ !! k) as [n|] eqn:Hn; [|done].
    simpl in Hin. injection Hin as <-. simpl.
    exists n, (found env pairs k).
    apply indexed_lookup in Hn as Hin; destruct Hin as [Hin|Hin]; [|done].
    rewrite (Hk0 k n Hn). repeat split; try done.
    intros a (p & Hp & Hname & Ha)%found_elem. eauto.
  - intros p Hp Hname Haddr (n & Hn & Hin)%list_elem_of_fmap.
    destruct (indexed_has names ∅ n Hin) as [o0 Ho0]. rewrite <- Hn in Ho0.
    set (o := with_Addresses o0 (Addresses o0 ++ found env pairs (PFQDN p))).
    assert (lookup !! PFQDN p = Some o) as Ho.
    { unfold lookup. by rewrite add_pairs_lookup, Ho0. }
    assert (parsed env p ∈ Addresses o) as Hparsed.
    { simpl. apply elem_of_app. right. by apply found_has. }
    exists o, (parsed env p). split; [|split; [by apply (Hk _ _ Ho)|done]].
    apply list_elem_of_In, filter_In. split.
    + apply list_elem_of_In, list_elem_of_fmap. exists (PFQDN p, o). split; [done|].
      by apply (range_elem env lookup _ _ Hord).
    + apply has_address_iff. intros Hnil. rewrite Hnil in Hparsed.
      by apply elem_of_nil in Hparsed.
Qed.

Lemma sample_env_order : map_order sample_env.
Proof. intros m. done. Qed.

Lemma addAddresses_only_with_address_witness :
  let names := getNames sample_names_db ["example.com"] false in
  map_order sample_env ∧
  (false = false ∨ (None : option ASNCache) = None) ∧
  ∃ pairs,
    NamesToAddrs (Repo sample_names_db) qtime (Name <$> names) = Done pairs ∧
    ∃ out,
      addAddresses sample_env sample_names_db names false None = Done out ∧
      NoDup (Name <$> out) ∧
      (∀ o, o ∈ out →
         Addresses o ≠ [] ∧
         ∃ n more, n ∈ names ∧ Name n = Name o ∧
                   Addresses o = Addresses n ++ more ∧
                   ∀ a, a ∈ more →
                     ∃ p, p ∈ pairs ∧ PFQDN p = Name o ∧
                          Address a = ParseIP sample_env (PAddr p)) ∧
      (∀ p, p ∈ pairs → PFQDN p ≠ "" → PAddr p ≠ "" → PFQDN p ∈ Name <$> names →
         ∃ o a, o ∈ out ∧ Name o = PFQDN p ∧ a ∈ Addresses o ∧
                Address a = ParseIP sample_env (PAddr p)).
Proof.
  cbv zeta. split; [exact sample_env_order|]. split; [by left|].
  eexists. split; [by vm_compute|].
  apply (addAddresses_only_with_address sample_env sample_names_db
           (getNames sample_names_db ["example.com"] false) false None).
  - exact sample_env_order.
  - by left.
  - by vm_compute.
Defined.

(** *** [addInfrastructureInfo] *)

Lemma infra_addrs_spec (env : Env) (cache : ASNCache) (addrs acc : list AddressInfo) :
  infra_addrs env cache addrs acc
  = acc ++ omap (λ a, enriched env a <$> AddrSearch cache (IP_String (Address a)))
                addrs.
Proof.
  revert acc. induction addrs as [|a rest IH]; intros acc; simpl.
  - by rewrite app_nil_r.
  - destruct (AddrSearch cache (IP_String (Address a))) as [i|]; simpl; rewrite IH;
      [|done].
    by rewrite <- app_assoc.
Qed.

Lemma infra_loop_spec (env : Env) (cache : ASNCache)
    (entries : list (string * Output)) (acc : list Output) :
  infra_loop env cache entries acc
  = acc ++ List.filter has_address (searched env cache <$> entries.*2).
Proof.
  revert acc. induction entries as [|[k o] rest IH]; intros acc.
  - simpl. by rewrite app_nil_r.
  - change (infra_loop env cache ((k, o) :: rest) acc)
      with (if has_address (searched env cache o)
            then infra_loop env cache rest (acc ++ [searched env cache o])
            else infra_loop env cache rest acc).
    change (List.filter has_address (searched env cache <$> ((k, o) :: rest).*2))
      with (if has_address (searched env cache o)
            then searched env cache o
                 :: List.filter has_address (searched env cache <$> rest.*2)
            else List.filter has_address (searched env cache <$> rest.*2)).
    destruct (has_address (searched env cache o)); rewrite IH; [|done].
    by rewrite <- app_assoc.
Qed.

Lemma searched_elem (env : Env) (cache : ASNCache) (o : Output) (a : AddressInfo) :
  a ∈ Addresses (searched env cache o) ↔
  ∃ a0 i, a0 ∈ Addresses o ∧ AddrSearch cache (IP_String (Address a0)) = Some i ∧
          a = enriched env a0 i.
Proof.
  unfold searched. simpl. rewrite infra_addrs_spec. simpl. rewrite list_elem_of_omap.
  split.
  - intros (a0 & Ha0 & Hs). exists a0.
    destruct (AddrSearch cache (IP_String (Address a0))) as [i|]; [|done].
    exists i. by injection Hs as <-.
  - intros (a0 & i & Ha0 & Hs & ->). exists a0. by rewrite Hs.
Qed.

(** [addInfrastructureInfo] keeps of every output the addresses that the
    ASN cache knows, each with the number, prefix and description that the
    cache gives for it, and hands back the outputs that have an address
    left: whatever is in the result has an address, every address in it
    comes from an address of the same output in the map with the data of
    its cache entry, and every address in the map that the cache knows
    shows in the result under the name of its output. *)
Theorem addInfrastructureInfo_keeps_known (env : Env) (lookup : gmap string Output)
    (cache : ASNCache) :
  map_order env →
  (∀ o, o ∈ addInfrastructureInfo env lookup cache →
     Addresses o ≠ [] ∧
     ∃ k o0, lookup !! k = Some o0 ∧ Name o = Name o0 ∧
       ∀ a, a ∈ Addresses o →
         ∃ a0 i, a0 ∈ Addresses o0 ∧
                 AddrSearch cache (IP_String (Address a0)) = Some i ∧
                 Address a = Address a0 ∧ ASN a = ReqASN i ∧
                 CIDRStr a = Prefix i ∧ Description a = ReqDescription i) ∧
  (∀ k o0 a0 i,
     lookup !! k = Some o0 → a0 ∈ Addresses o0 →
     AddrSearch cache (IP_String (Address a0)) = Some i →
     ∃ o a, o ∈ addInfrastructureInfo env lookup cache ∧ Name o = Name o0 ∧
            a ∈ Addresses o ∧ Address a = Address a0 ∧ CIDRStr a = Prefix i).
Proof.
  intros Hord. unfold addInfrastructureInfo. rewrite infra_loop_spec. simpl. split.
  - intros o [Ho Hhas]%list_elem_of_In%filter_In.
    apply list_elem_of_In, list_elem_of_fmap in Ho as (o0 & -> & Ho0).
    apply list_elem_of_fmap in Ho0 as ([k o0'] & -> & Hin). simpl in *.
    apply (range_elem env lookup k o0' Hord) in Hin.
    split; [exact (proj1 (has_address_iff (searched env cache o0')) Hhas)|].
    exists k, o0'. split; [done|].
    split; [done|].
    intros a (a0 & i & Ha0 & Hs & ->)%searched_elem. exists a0, i. done.
  - intros k o0 a0 i Hk Ha0 Hs.
    assert (enriched env a0 i ∈ Addresses (searched env cache o0)) as Hin.
    { apply searched_elem. eauto. }
    exists (searched env cache o0), (enriched env a0 i).
    split; [|done]. apply list_elem_of_In, filter_In. split.
    + apply list_elem_of_In, list_elem_of_fmap. exists o0. split; [done|].
      apply list_elem_of_fmap. exists (k, o0). split; [done|].
      by apply (range_elem env lookup k o0 Hord).
    + apply has_address_iff. intros Hnil. rewrite Hnil in Hin.
      by apply elem_of_nil in Hin.
Qed.

Lemma addInfrastructureInfo_keeps_known_witness :
  map_order sample_env ∧
  (∀ o, o ∈ addInfrastructureInfo sample_env doc_lookup doc_cache →
     Addresses o ≠ [] ∧
     ∃ k o0, doc_lookup !! k = Some o0 ∧ Name o = Name o0 ∧
       ∀ a, a ∈ Addresses o →
         ∃ a0 i, a0 ∈ Addresses o0 ∧
                 AddrSearch doc_cache (IP_String (Address a0)) = Some i ∧
                 Address a = Address a0 ∧ ASN a = ReqASN i ∧
                 CIDRStr a = Prefix i ∧ Description a = ReqDescription i) ∧
  (∀ k o0 a0 i,
     doc_lookup !! k = Some o0 → a0 ∈ Addresses o0 →
     AddrSearch doc_cache (IP_String (Address a0)) = Some i →
     ∃ o a, o ∈ addInfrastructureInfo sample_env doc_lookup doc_cache ∧
            Name o = Name o0 ∧
            a ∈ Addresses o ∧ Address a = Address a0 ∧ CIDRStr a = Prefix i).
Proof.
  split; [exact sample_env_order|].
  apply (addInfrastructureInfo_keeps_known sample_env doc_lookup doc_cache).
  exact sample_env_order.
Defined.

(** The name with one known address stays, with that address only; the
    name whose address the cache does not know goes. *)
Example addInfrastructureInfo_sample :
  addInfrastructureInfo sample_env doc_lookup doc_cache
  = [ {| Name := "www.example.com";
         Addresses := [ {| Address := Some "192.0.2.1"; ASN := 64500;
                           CIDRStr := "192.0.2.0/24";
                           AINetblock := Some "192.0.2.0/24";
                           Description := "DOC-NET" |} ] |} ].
Proof. by vm_compute. Qed.

(** *** [showData] *)

Lemma show_loop_spec (env : Env) (opts : Options) (domains : list string)
    (outfile : bool) (names : list Output) (total : Z) (asns : list Output)
    (ev : list io) :
  show_loop env opts domains outfile names total asns ev
  = (total + Z.of_nat (length (listed env opts domains names)),
     asns ++ List.filter has_address (listed env opts domains names),
     ev ++ mjoin (print_name env opts outfile <$> listed env opts domains names)).
Proof.
  revert total asns ev. induction names as [|out rest IH]; intros total asns ev.
  { simpl. by rewrite Z.add_0_r, !app_nil_r. }
  simpl.
  destruct ((0 <? length domains)%nat
            && negb (Subs.domainNameInScope (Name out) domains)); [apply IH|].
  destruct ((IPv4 opts || IPv6 opts)
            && (length (Addresses (desired env opts out)) =? 0)%nat); [apply IH|].
  rewrite IH. simpl. fold (has_address (desired env opts out)).
  f_equal; [f_equal|].
  - lia.
  - destruct (has_address (desired env opts out)); [|done]. by rewrite <- app_assoc.
  - by rewrite <- app_assoc.
Qed.

Lemma desired_Name (env : Env) (opts : Options) (out : Output) :
  Name (desired env opts out) = Name out.
Proof. unfold desired. by destruct (IPv4 opts || IPv6 opts). Qed.

Lemma print_name_line (env : Env) (opts : Options) (outfile : bool) (out : Output)
    (w : writer) (name ips : string) :
  NameLine w name ips ∈ print_name env opts outfile out →
  print_name env opts outfile out = [NameLine w name ips].
Proof.
  unfold print_name.
  destruct (OutputLineParts env out (IPv4 opts || IPv6 opts) (DemoMode opts))
    as [n i].
  destruct (DiscoveredNames opts); [|by intros ?%elem_of_nil].
  destruct outfile; by intros ->%list_elem_of_singleton.
Qed.

Lemma listed_elem (env : Env) (opts : Options) (domains : list string)
    (names : list Output) (o : Output) :
  o ∈ listed env opts domains names →
  ∃ out, out ∈ names ∧ o = desired env opts out ∧
         (domains ≠ [] → Subs.domainNameInScope (Name out) domains = true).
Proof.
  unfold listed. intros (out & Hout & Hsome)%list_elem_of_omap. exists out.
  split; [done|].
  destruct ((0 <? length domains)%nat
            && negb (Subs.domainNameInScope (Name out) domains)) eqn:Hscope; [done|].
  destruct ((IPv4 opts || IPv6 opts)
            && (length (Addresses (desired env opts out)) =? 0)%nat); [done|].
  injection Hsome as <-. split; [done|]. intros Hd.
  apply andb_false_iff in Hscope as [Hlen|Hin].
  - destruct domains; [done|]. done.
  - by apply negb_false_iff in Hin.
Qed.

(** What [addAddresses] hands back carries names that were given. *)
Lemma addAddresses_names (env : Env) (db : AssetDB) (names : list Output)
    (asninfo : bool) (cache : option ASNCache) (out : list Output) :
  map_order env →
  addAddresses env db names asninfo cache = Done out →
  ∀ o, o ∈ out → ∃ n, n ∈ names ∧ Name n = Name o.
Proof.
  intros Hord. unfold addAddresses. rewrite index_names_spec. simpl.
  destruct (NamesToAddrs (Repo db) qtime (Name <$> names)) as [pairs|]; [|done].
  set (lookup := add_pairs env pairs (indexed names ∅)).
  assert (keyed (indexed names ∅)) as Hk0 by (by apply indexed_keyed).
  assert (∀ k o, lookup !! k = Some o → ∃ n, n ∈ names ∧ Name n = Name o) as Hval.
  { intros k o. unfold lookup. rewrite add_pairs_lookup.
    destruct (indexed names ∅ !! k) as [n|] eqn:Hn; [|done].
    simpl. intros [= <-]. exists n. split; [|done].
    by apply indexed_lookup in Hn as [Hin|Hin]. }
  assert (Done (with_addresses (range_lookup env lookup) []) = Done out →
          ∀ o, o ∈ out → ∃ n, n ∈ names ∧ Name n = Name o) as Hplain.
  { intros [= <-] o. rewrite with_addresses_spec. simpl.
    intros [Ho _]%list_elem_of_In%filter_In.
    apply list_elem_of_In, list_elem_of_fmap in Ho as ([k o'] & -> & Hin).
    apply (range_elem env lookup k o' Hord) in Hin. by apply (Hval k). }
  destruct asninfo; [|done]. destruct cache as [cache|]; [|done].
  intros [= <-] o Ho.
  destruct (addInfrastructureInfo_keeps_known env lookup cache Hord) as [Hs _].
  destruct (Hs o Ho) as (_ & k & o0 & Hk & Hname & _).
  destruct (Hval k o0 Hk) as (n & Hn & Hnn). exists n. split; [done|]. congruence.
Qed.

Lemma show_names_line (env : Env) (args : subsArgs) (asninfo : bool) (db : AssetDB)
    (nocolor : bool) (domains : list string) (outfile : bool)
    (w : writer) (name ips : string) :
  map_order env →
  NameLine w name ips ∈ show_names env args asninfo db nocolor domains outfile →
  ∃ out assets a,
    FindByScope db (FQDN <$> domains) qtime = Some assets ∧
    a ∈ assets ∧ EAsset a = FQDN (Name out) ∧
    Subs.domainNameInScope (Name out) domains = true ∧
    print_name env (Opts args) outfile out = [NameLine w name ips].
Proof.
  intros Hord. unfold show_names.
  set (names0 := getNames db domains asninfo).
  assert (∀ cache,
    NameLine w name ips ∈
      match
        (if negb (length names0 =? 0)%nat
            && (asninfo || IPv4 (Opts args) || IPv6 (Opts args))
         then addAddresses env db names0 asninfo cache else Done names0)
      with
      | Panicked => [GoPanic]
      | Done names =>
          let '(total, asns, ev) :=
            show_loop env (Opts args) domains outfile names 0 [] [] in
          if total =? 0
          then ev ++ [Fprint ColorOutput ("No names were discovered" +:+ nl)]
          else if ASNTableSummary (Opts args)
          then ev ++ [EnumerationSummary
                        (if outfile then Outfile
                         else if ShowAll (Opts args) then ColorError
                         else ColorOutput)
                        total asns (DemoMode (Opts args))
                        (if outfile then true else nocolor)]
          else ev
      end →
    ∃ out assets a,
      FindByScope db (FQDN <$> domains) qtime = Some assets ∧
      a ∈ assets ∧ EAsset a = FQDN (Name out) ∧
      Subs.domainNameInScope (Name out) domains = true ∧
      print_name env (Opts args) outfile out = [NameLine w name ips]) as Hcont.
  { intros cache.
    destruct (if negb (length names0 =? 0)%nat
                 && (asninfo || IPv4 (Opts args) || IPv6 (Opts args))
              then addAddresses env db names0 asninfo cache else Done names0)
      as [names|] eqn:Hnames.
    2: { intros [=]%list_elem_of_singleton. }
    assert (∀ o, o ∈ names → ∃ n, n ∈ names0 ∧ Name n = Name o) as Hfrom.
    { destruct (negb (length names0 =? 0)%nat
                && (asninfo || IPv4 (Opts args) || IPv6 (Opts args))).
      - by apply (addAddresses_names env db names0 asninfo cache).
      - injection Hnames as <-. eauto. }
    rewrite show_loop_spec. simpl.
    assert (NameLine w name ips ∈
              mjoin (print_name env (Opts args) outfile
                        <$> listed env (Opts args) domains names) →
            ∃ out assets a,
              FindByScope db (FQDN <$> domains) qtime = Some assets ∧
              a ∈ assets ∧ EAsset a = FQDN (Name out) ∧
              Subs.domainNameInScope (Name out) domains = true ∧
              print_name env (Opts args) outfile out = [NameLine w name ips])
      as Hlines.
    { intros (l & Hin & Hl)%list_elem_of_join.
      apply list_elem_of_fmap in Hl as (o & -> & Ho).
      apply listed_elem in Ho as (out & Hout & -> & Hscope).
      destruct (Hfrom out Hout) as (n & Hn & Hname).
      unfold names0, getNames in Hn.
      destruct domains as [|d0 domains]; [by apply elem_of_nil in Hn|].
      change ((length (d0 :: domains) =? 0)%nat) with false in Hn.
      cbv beta iota in Hn.
      destruct (FindByScope db (FQDN <$> d0 :: domains) qtime) as [assets|] eqn:Hfind;
        [|by apply elem_of_nil in Hn].
      destruct (names_of_spec assets StringSet.New [])
        as (_ & (more & Hres & Hmore) & _).
      { intros x. unfold StringSet.New, lowered. simpl.
        rewrite elem_of_empty, elem_of_nil. done. }
      { constructor. }
      rewrite Hres in Hn. destruct (Hmore n Hn) as (_ & a & Ha & Hasset).
      exists (desired env (Opts args) out), assets, a.
      rewrite desired_Name, <- Hname. split; [done|]. split; [done|].
      split; [done|]. split; [|by apply print_name_line].
      rewrite Hname. by apply Hscope. }
    destruct (0 + Z.of_nat (length (listed env (Opts args) domains names)) =? 0).
    - intros [Hin|[=]%list_elem_of_singleton]%elem_of_app. by apply Hlines.
    - destruct (ASNTableSummary (Opts args)); [|exact Hlines].
      intros [Hin|[=]%list_elem_of_singleton]%elem_of_app. by apply Hlines. }
  destruct asninfo; [|apply Hcont].
  destruct (FillCache env db) as [cache|err]; [apply Hcont|].
  intros [=]%list_elem_of_singleton.
Qed.

(** Every name that [showData] writes, to the file or to the terminal, is
    the name of an FQDN node that the scope query for the given domains
    found, and it is in the scope of these domains by [domainNameInScope];
    the line is the one [print_name] makes for it. *)
Theorem showData_lists_names_in_scope (env : Env) (args : subsArgs)
    (asninfo : bool) (db : AssetDB) (nocolor : bool)
    (w : writer) (name ips : string) :
  map_order env →
  NameLine w name ips ∈ showData env args asninfo db nocolor →
  ∃ out assets a,
    FindByScope db (FQDN <$> Slice env (Domains args)) qtime = Some assets ∧
    a ∈ assets ∧ EAsset a = FQDN (Name out) ∧
    Subs.domainNameInScope (Name out) (Slice env (Domains args)) = true ∧
    print_name env (Opts args) (negb (String.eqb (TermOut args) "")) out
    = [NameLine w name ips].
Proof.
  intros Hord. unfold showData.
  destruct (negb (String.eqb (TermOut args) "")); [|by apply show_names_line].
  destruct (open_error env (TermOut args)) as [err|].
  - intros Hin. repeat (apply elem_of_cons in Hin as [[=]|Hin]).
    by apply elem_of_nil in Hin.
  - intros Hin. apply elem_of_cons in Hin as [[=]|Hin].
    apply elem_of_cons in Hin as [[=]|Hin].
    apply elem_of_app in Hin as [Hin|[=]%list_elem_of_singleton].
    by apply (show_names_line env args asninfo db nocolor _ true).
Qed.

Lemma showData_lists_names_in_scope_witness :
  map_order sample_env ∧
  NameLine ColorOutput "mail.example.com" ""
    ∈ showData sample_env names_args false sample_names_db false ∧
  ∃ out assets a,
    FindByScope sample_names_db (FQDN <$> Slice sample_env (Domains names_args)) qtime
    = Some assets ∧
    a ∈ assets ∧ EAsset a = FQDN (Name out) ∧
    Subs.domainNameInScope (Name out) (Slice sample_env (Domains names_args)) = true ∧
    print_name sample_env (Opts names_args)
               (negb (String.eqb (TermOut names_args) "")) out
    = [NameLine ColorOutput "mail.example.com" ""].
Proof.
  split; [exact sample_env_order|].
  assert (NameLine ColorOutput "mail.example.com" ""
            ∈ showData sample_env names_args false sample_names_db false) as Hin.
  { vm_compute. apply list_elem_of_further, list_elem_of_here. }
  split; [exact Hin|].
  exact (showData_lists_names_in_scope sample_env names_args false sample_names_db
           false ColorOutput "mail.example.com" "" sample_env_order Hin).
Defined.

(** The names of [example.com] on the terminal; with [-ip] and a file,
    the one name that has an address. The name under [example.org] is
    found by the store and listed in neither case. *)
Example showData_sample :
  showData sample_env names_args false sample_names_db false
  = [NameLine ColorOutput "www.example.com" "";
     NameLine ColorOutput "mail.example.com" ""] ∧
  showData sample_env addrs_args false sample_names_db false
  = [OpenFile "out.txt"; TruncateSeek;
     NameLine Outfile "www.example.com" " 192.0.2.1"; SyncClose].
Proof. by vm_compute. Qed.

End SubsDataFacts.

(** ** The rest of the session manager *)

Module ManagerFacts.
Import Sessions SessionsFacts Manager.

(** [AddSession] and [GetSession]: a [*Session] is found afterwards under
    its own id, which is also what [AddSession] answers, and it takes the
    place of a session that was registered under this id; every other id
    is found as before. Nil, and a session of a foreign type, register
    nothing and are answered with the zero UUID. *)
Theorem AddSession_then_GetSession (r : manager) (s : Session) (sid : string) :
  GetSession (AddSession r (EngineSession s)).1 sid
  = (if decide (sid = id s) then Some s else GetSession r sid) ∧
  (AddSession r (EngineSession s)).2 = id s ∧
  AddSession r NilSession = (r, zero_uuid) ∧
  AddSession r ForeignSession = (r, zero_uuid).
Proof.
  split; [|done]. unfold GetSession. simpl.
  destruct (decide (sid = id s)) as [->|Hne].
  - apply lookup_insert_eq.
  - by apply lookup_insert_ne.
Qed.

(** *** [CancelSession] and the other sessions *)

Lemma release_other (r : manager) (sid sid' : string) (s : Session) :
  sid' ≠ sid →
  GetSession (release r sid s).1.2 sid' = GetSession r sid'.
Proof.
  intros Hne. unfold release, GetSession.
  destruct (sessions r !! sid) as [s'|]; simpl; [|done].
  by apply lookup_delete_ne.
Qed.

Lemma cancel_frame (Delete : delete_model) (r : manager)
    (sid sid' : string) (ticks : list SessionStats) :
  sid' ≠ sid →
  GetSession (CancelSession Delete r sid ticks).1.2 sid' = GetSession r sid'.
Proof.
  intros Hne. unfold CancelSession.
  destruct (GetSession r sid) as [s|]; [|done].
  destruct (Kill_fields s) as (s1 & -> & _).
  set (r1 := with_sessions r (<[sid := s1]> (sessions r))).
  assert (GetSession r1 sid' = GetSession r sid') as Hr1.
  { unfold GetSession, r1. simpl. by apply lookup_insert_ne. }
  destruct (wait_quiescent ticks); [|done].
  pose proof (release_other r1 sid sid' s1 Hne) as Hrel.
  destruct (release r1 sid s1) as [[p r2] ev]. simpl in *. congruence.
Qed.

Lemma cancel_gone (Delete : delete_model) (r r' : manager) (sid : string)
    (ticks : list SessionStats) (ev : list effect) :
  CancelSession Delete r sid ticks = (Returned, r', ev) → GetSession r' sid = None.
Proof.
  unfold CancelSession.
  destruct (GetSession r sid) as [s|] eqn:Hs; [|by intros [= <- _]].
  destruct (Kill_fields s) as (s1 & -> & _).
  destruct (wait_quiescent ticks); [|done].
  unfold release. simpl. rewrite lookup_insert_eq.
  intros [= <- _]. unfold GetSession. simpl. apply lookup_delete_eq.
Qed.

(** Whatever the counters read, and whether or not the call has
    returned, [CancelSession] leaves every session with another id
    registered as it was. *)
Theorem CancelSession_other_sessions (Delete : delete_model) (r : manager)
    (sid sid' : string) (ticks : list SessionStats) :
  sid' ≠ sid →
  GetSession (CancelSession Delete r sid ticks).1.2 sid' = GetSession r sid'.
Proof. intros Hne. by apply cancel_frame. Qed.

Lemma CancelSession_other_sessions_witness :
  "a2b7" ≠ "6f1c" ∧
  GetSession
    (CancelSession sample_delete two_sessions "6f1c"
       [ {| WorkItemsCompleted := 3; WorkItemsTotal := 3 |} ]).1.2 "a2b7"
  = GetSession two_sessions "a2b7".
Proof.
  split; [done|].
  by apply (CancelSession_other_sessions sample_delete two_sessions "6f1c" "a2b7").
Defined.

(** A [CancelSession] that has returned leaves no session under the id.
    A second call for the same id, whatever the counters read, returns at
    once: it changes nothing, broadcasts nothing and releases nothing. *)
Theorem CancelSession_again (Delete : delete_model) (r r' : manager) (sid : string)
    (ticks ticks' : list SessionStats) (ev : list effect) :
  CancelSession Delete r sid ticks = (Returned, r', ev) →
  GetSession r' sid = None ∧
  CancelSession Delete r' sid ticks' = (Returned, r', []).
Proof.
  intros Hgone%cancel_gone. split; [done|].
  unfold CancelSession. by rewrite Hgone.
Qed.

Lemma CancelSession_again_witness :
  let ticks := [ {| WorkItemsCompleted := 3; WorkItemsTotal := 3 |} ] in
  let busy_ticks := [ {| WorkItemsCompleted := 0; WorkItemsTotal := 9 |} ] in
  ∃ r' ev,
    CancelSession sample_delete two_sessions "6f1c" ticks = (Returned, r', ev) ∧
    GetSession r' "6f1c" = None ∧
    CancelSession sample_delete r' "6f1c" busy_ticks = (Returned, r', []).
Proof.
  cbv zeta. eexists _, _. split; [reflexivity|].
  eapply (CancelSession_again sample_delete two_sessions _ "6f1c"
            [ {| WorkItemsCompleted := 3; WorkItemsTotal := 3 |} ]).
  reflexivity.
Defined.

(** *** [Shutdown] *)

Lemma shutdown_loop_spec (Delete : delete_model) (entries : list (string * Session))
    (m : gmap string Session) :
  (∀ s0, Forall (λ e, is_release e = false) (Delete s0)) →
  ∃ m' ev,
    shutdown_loop Delete entries m = Some (m', ev) ∧
    (∀ k, m' !! k = if bool_decide (k ∈ entries.*1) then None else m !! k) ∧
    (∀ sid s, (sid, s) ∈ entries →
       SessionDelete sid ∈ ev ∧ (Done s = false → DoneBroadcast (id s) ∈ ev)) ∧
    Forall (λ e, is_release e = false) ev.
Proof.
  intros Hdel. revert m. induction entries as [|[sid s] rest IH]; intros m.
  { exists m, []. split; [done|]. split; [done|]. split; [|constructor].
    by intros ?? ?%elem_of_nil. }
  simpl. destruct (Kill_fields s) as (s1 & -> & _).
  destruct (IH (delete sid m)) as (m' & ev & -> & Hm' & Hev & Hrel).
  eexists _, _. split; [done|]. split; [|split].
  - intros k. rewrite Hm'.
    destruct (bool_decide (k ∈ _ :: _)) eqn:Hk.
    + apply bool_decide_eq_true in Hk.
      destruct (bool_decide (k ∈ rest.*1)) eqn:Hk'; [done|].
      apply bool_decide_eq_false in Hk'.
      apply elem_of_cons in Hk as [->|Hk]; [apply lookup_delete_eq|done].
    + apply bool_decide_eq_false in Hk.
      rewrite (bool_decide_eq_false_2 (k ∈ rest.*1)).
      * apply lookup_delete_ne. intros ->. apply Hk, list_elem_of_here.
      * intros Hin. by apply Hk, list_elem_of_further.
  - intros sid' s' [[= -> ->]|Hin]%elem_of_cons.
    + split.
      * apply elem_of_app. right. apply list_elem_of_here.
      * intros Hlive. rewrite Hlive. apply elem_of_app. left.
        apply list_elem_of_here.
    + destruct (Hev sid' s' Hin) as [Hd Hb]. split.
      * apply elem_of_app. right. apply list_elem_of_further, elem_of_app. by right.
      * intros Hlive. apply elem_of_app. right.
        apply list_elem_of_further, elem_of_app. right. by apply Hb.
  - apply Forall_app. split; [by destruct (Done s); repeat constructor|].
    constructor; [done|]. apply Forall_app. split; [apply Hdel|done].
Qed.

(** Provided that [Session.Delete] itself gives no resource back,
    [Shutdown] ends without a panic with an empty registry; on the way
    every registered session was handed to [Delete], and every one that
    was not done got the done-signal. Unlike [CancelSession], it waits for
    no counter and closes no cache, graph store or event set and removes
    no directory. *)
Theorem Shutdown_empties_registry
    (range_sessions : gmap string Session → list (string * Session))
    (Delete : delete_model) (r : manager) :
  (∀ m, range_sessions m ≡ₚ map_to_list m) →
  (∀ s0, Forall (λ e, is_release e = false) (Delete s0)) →
  ∃ ev,
    Shutdown range_sessions Delete r = Some (with_sessions r ∅, ev) ∧
    (∀ sid s, GetSession r sid = Some s →
       SessionDelete sid ∈ ev ∧ (Done s = false → DoneBroadcast (id s) ∈ ev)) ∧
    Forall (λ e, is_release e = false) ev.
Proof.
  intros Hord Hdel. unfold Shutdown.
  destruct (shutdown_loop_spec Delete (range_sessions (sessions r)) (sessions r) Hdel)
    as (m' & ev & -> & Hm' & Hev & Hrel).
  assert (∀ k s, sessions r !! k = Some s ↔ (k, s) ∈ range_sessions (sessions r))
    as Hin.
  { intros k s. by rewrite (Hord (sessions r)), elem_of_map_to_list. }
  assert (m' = ∅) as ->.
  { apply map_eq. intros k. rewrite Hm', lookup_empty.
    destruct (bool_decide (k ∈ (range_sessions (sessions r)).*1)) eqn:Hk; [done|].
    apply bool_decide_eq_false in Hk.
    destruct (sessions r !! k) as [s|] eqn:Hs; [|done].
    exfalso. apply Hk. apply list_elem_of_fmap. exists (k, s).
    split; [done|]. by apply Hin. }
  exists ev. split; [done|]. split; [|done].
  intros sid s Hs. apply Hev. by apply Hin.
Qed.

Lemma Shutdown_empties_registry_witness :
  (∀ m : gmap string Session, map_to_list m ≡ₚ map_to_list m) ∧
  (∀ s0, Forall (λ e, is_release e = false) (sample_delete s0)) ∧
  ∃ ev,
    Shutdown map_to_list sample_delete two_sessions
    = Some (with_sessions two_sessions ∅, ev) ∧
    (∀ sid s, GetSession two_sessions sid = Some s →
       SessionDelete sid ∈ ev ∧ (Done s = false → DoneBroadcast (id s) ∈ ev)) ∧
    Forall (λ e, is_release e = false) ev.
Proof.
  split; [done|]. split; [intros s0; repeat constructor|].
  apply (Shutdown_empties_registry map_to_list sample_delete two_sessions).
  - done.
  - intros s0. repeat constructor.
Defined.

(** Two sessions, one of them done before: one broadcast, two calls of
    [Delete], nothing left. *)
Example Shutdown_sample :
  Shutdown map_to_list sample_delete two_sessions
  = Some (with_sessions two_sessions ∅,
          [SessionDelete "a2b7"; LogInfo "session a2b7 deleted";
           DoneBroadcast "6f1c"; SessionDelete "6f1c";
           LogInfo "session 6f1c deleted"]).
Proof. by vm_compute. Qed.

(** *** [NewSession] *)

(** The life of a session in the registry. A session that the
    constructor makes is registered under its id by [NewSession]; when
    the constructor fails, the manager stays as it was and the error is
    passed on. A [CancelSession] for the new session that reads equal
    counters returns with the id free again and with every other session
    as it was before [NewSession]. *)
Theorem NewSession_then_CancelSession (Delete : delete_model) (r : manager)
    (s : Session) (ticks : list SessionStats) :
  wait_quiescent ticks = true →
  (∀ err, NewSession (Err err) r
          = (r, Err err, [LogError "Failed to create new session"])) ∧
  ∃ r1,
    NewSession (Ok s) r = (r1, Ok s, []) ∧
    GetSession r1 (id s) = Some s ∧
    ∃ r2 ev,
      CancelSession Delete r1 (id s) ticks = (Returned, r2, ev) ∧
      GetSession r2 (id s) = None ∧
      ∀ sid, sid ≠ id s → GetSession r2 sid = GetSession r sid.
Proof.
  intros Hq. split; [done|].
  set (r1 := with_sessions r (<[id s := s]> (<[id s := s]> (sessions r)))).
  exists r1. split; [done|].
  assert (GetSession r1 (id s) = Some s) as Hget.
  { unfold GetSession, r1. simpl. apply lookup_insert_eq. }
  split; [done|].
  pose proof (cancel_frame Delete r1 (id s)) as Hother.
  destruct (CancelSession Delete r1 (id s) ticks) as [[p r2] ev] eqn:Hc.
  assert (p = Returned) as ->.
  { revert Hc. unfold CancelSession. rewrite Hget, Hq.
    destruct (Kill_fields s) as (s1 & -> & _).
    unfold release. simpl. rewrite lookup_insert_eq. by intros [= <- _ _]. }
  exists r2, ev. split; [done|].
  split; [by apply (cancel_gone Delete r1 r2 (id s) ticks ev)|].
  intros sid Hne. specialize (Hother sid ticks Hne). rewrite Hc in Hother.
  simpl in Hother. rewrite Hother. unfold GetSession, r1. simpl.
  by rewrite !lookup_insert_ne.
Qed.

Lemma NewSession_then_CancelSession_witness :
  let ticks := [ {| WorkItemsCompleted := 0; WorkItemsTotal := 0 |} ] in
  wait_quiescent ticks = true ∧
  (∀ err, NewSession (Err err) sample_manager
          = (sample_manager, Err err, [LogError "Failed to create new session"])) ∧
  ∃ r1,
    NewSession (Ok second_session) sample_manager = (r1, Ok second_session, []) ∧
    GetSession r1 (id second_session) = Some second_session ∧
    ∃ r2 ev,
      CancelSession sample_delete r1 (id second_session) ticks = (Returned, r2, ev) ∧
      GetSession r2 (id second_session) = None ∧
      ∀ sid, sid ≠ id second_session →
        GetSession r2 sid = GetSession sample_manager sid.
Proof.
  cbv zeta. split; [reflexivity|].
  apply (NewSession_then_CancelSession sample_delete sample_manager second_session
           [ {| WorkItemsCompleted := 0; WorkItemsTotal := 0 |} ]).
  reflexivity.
Defined.

End ManagerFacts.

(** ** The graph store of a session *)

Module SessionDBFacts.
Import GoStrings SessionDB.

(** The loop stops at the first primary entry: what comes after it is
    handed back as it is and has no part in the result. *)
Lemma primary_loop_first (env : Env) (dir : string) (pre : list Database)
    (d : Database) (post : list Database) (dsn : string) (dbtype : option DBType) :
  Forall (λ x, Primary x = false) pre →
  Primary d = true →
  primary_loop env dir (pre ++ d :: post) dsn dbtype
  = let d' := with_System d (ToLower (System d)) in
    (pre ++ d' :: post,
     if String.eqb (System d') "postgres" then postgres_dsn d'
     else if String.eqb (System d') "sqlite" || String.eqb (System d') "sqlite3"
     then sqlite_path env dir else dsn,
     if String.eqb (System d') "postgres" then Some Postgres
     else if String.eqb (System d') "sqlite" || String.eqb (System d') "sqlite3"
     then Some SQLite else dbtype).
Proof.
  intros Hpre Hd. induction Hpre as [|x pre Hx _ IH]; simpl.
  - rewrite Hd.
    destruct (String.eqb (ToLower (System d)) "postgres"); [done|].
    by destruct (String.eqb (ToLower (System d)) "sqlite"
                 || String.eqb (ToLower (System d)) "sqlite3").
  - rewrite Hx, IH. simpl. done.
Qed.

Lemma primary_loop_none (env : Env) (dir : string) (dbs : list Database)
    (dsn : string) (dbtype : option DBType) :
  Forall (λ x, Primary x = false) dbs →
  primary_loop env dir dbs dsn dbtype = (dbs, dsn, dbtype).
Proof.
  induction 1 as [|x rest Hx _ IH]; simpl; [done|]. by rewrite Hx, IH.
Qed.

(** On a fresh session the first primary entry of the configuration
    decides alone. When its system, in lower case, is none of [postgres],
    [sqlite] and [sqlite3], [selectDBMS] fails with "no primary database
    specified in the configuration" and the session gets no store, whatever
    entries follow, a supported primary one included. *)
Theorem selectDBMS_unsupported_first_primary (env : Env) (dir : string)
    (pre : list Database) (d : Database) (post : list Database) :
  Forall (λ x, Primary x = false) pre →
  Primary d = true →
  ¬ supported (ToLower (System d)) →
  let s := fresh {| GraphDBs := Some (pre ++ d :: post); Dir := dir |} in
  (selectDBMS env s).2 = Err no_primary ∧
  db (selectDBMS env s).1 = None ∧
  GraphDBs (cfg (selectDBMS env s).1)
  = Some (pre ++ with_System d (ToLower (System d)) :: post).
Proof.
  intros Hpre Hd Hsys. cbv zeta. unfold selectDBMS, fresh. simpl.
  rewrite (primary_loop_first env dir pre d post "" None Hpre Hd). simpl.
  destruct (String.eqb (ToLower (System d)) "postgres") eqn:Hpg.
  { exfalso. apply Hsys. left. by apply String.eqb_eq. }
  destruct (String.eqb (ToLower (System d)) "sqlite") eqn:Hs1.
  { exfalso. apply Hsys. right. left. by apply String.eqb_eq. }
  destruct (String.eqb (ToLower (System d)) "sqlite3") eqn:Hs3.
  { exfalso. apply Hsys. right. right. by apply String.eqb_eq. }
  done.
Qed.

Lemma selectDBMS_unsupported_first_primary_witness :
  let mysql := with_System pg "MySQL" in
  Forall (λ x, Primary x = false) [] ∧
  Primary mysql = true ∧
  ¬ supported (ToLower (System mysql)) ∧
  let s := fresh {| GraphDBs := Some ([] ++ mysql :: [pg]); Dir := "/data" |} in
  (selectDBMS sample_env s).2 = Err no_primary ∧
  db (selectDBMS sample_env s).1 = None ∧
  GraphDBs (cfg (selectDBMS sample_env s).1)
  = Some ([] ++ with_System mysql (ToLower (System mysql)) :: [pg]).
Proof.
  cbv zeta.
  assert (¬ supported (ToLower (System (with_System pg "MySQL")))) as Hno.
  { intros [H|[H|H]]; by vm_compute in H. }
  split; [constructor|]. split; [done|]. split; [exact Hno|].
  exact (selectDBMS_unsupported_first_primary sample_env "/data" []
           (with_System pg "MySQL") [pg] (List.Forall_nil _) eq_refl Hno).
Defined.

(** The system of the first primary entry is compared in lower case. When
    it spells [postgres] in any letter case and [assetdb.New] makes a
    store, [selectDBMS] succeeds on a fresh session with a Postgres store
    whose connection string is built from the host, port, user, password
    and database name of that entry, and the entry is left in the
    configuration with its system in lower case. *)
Theorem selectDBMS_postgres_any_case (env : Env) (dir : string)
    (pre : list Database) (d : Database) (post : list Database) :
  Forall (λ x, Primary x = false) pre →
  Primary d = true →
  ToLower (System d) = "postgres" →
  let s := fresh {| GraphDBs := Some (pre ++ d :: post); Dir := dir |} in
  let dsn' := "host=" +:+ Host d +:+ " port=" +:+ Port d +:+ " user=" +:+ Username d
              +:+ " password=" +:+ Password d +:+ " dbname=" +:+ DBName d in
  GraphDBs (cfg (selectDBMS env s).1) = Some (pre ++ with_System d "postgres" :: post) ∧
  if New_is_nil env Postgres dsn'
  then (selectDBMS env s).2 = Err "failed to initialize database store" ∧
       db (selectDBMS env s).1 = None
  else (selectDBMS env s).2 = Ok tt ∧
       db (selectDBMS env s).1 = Some {| store_type := Postgres; store_dsn := dsn' |}.
Proof.
  intros Hpre Hd Hsys. cbv zeta. unfold selectDBMS, fresh. simpl.
  rewrite (primary_loop_first env dir pre d post "" None Hpre Hd). simpl.
  rewrite Hsys. simpl. unfold postgres_dsn. simpl.
  by destruct (New_is_nil env Postgres _).
Qed.

Lemma selectDBMS_postgres_any_case_witness :
  let lite := with_System (with_System default_db "sqlite") "sqlite" in
  let second := {| Primary := false; System := "sqlite"; Host := ""; Port := "";
                   Username := ""; Password := ""; DBName := "" |} in
  Forall (λ x, Primary x = false) [second] ∧
  Primary pg = true ∧
  ToLower (System pg) = "postgres" ∧
  let s := fresh {| GraphDBs := Some ([second] ++ pg :: [lite]); Dir := "/data" |} in
  let dsn' := "host=" +:+ Host pg +:+ " port=" +:+ Port pg +:+ " user="
              +:+ Username pg +:+ " password=" +:+ Password pg +:+ " dbname="
              +:+ DBName pg in
  GraphDBs (cfg (selectDBMS sample_env s).1)
  = Some ([second] ++ with_System pg "postgres" :: [lite]) ∧
  if New_is_nil sample_env Postgres dsn'
  then (selectDBMS sample_env s).2 = Err "failed to initialize database store" ∧
       db (selectDBMS sample_env s).1 = None
  else (selectDBMS sample_env s).2 = Ok tt ∧
       db (selectDBMS sample_env s).1
       = Some {| store_type := Postgres; store_dsn := dsn' |}.
Proof.
  cbv zeta. split; [by repeat constructor|]. split; [done|]. split; [done|].
  apply (selectDBMS_postgres_any_case sample_env "/data"
           [{| Primary := false; System := "sqlite"; Host := ""; Port := "";
               Username := ""; Password := ""; DBName := "" |}]
           pg [with_System (with_System default_db "sqlite") "sqlite"]).
  - by repeat constructor.
  - done.
  - done.
Defined.

(** The primary entry of the sample configuration, spelled [Postgres]. *)
Example selectDBMS_sample :
  let s := fresh {| GraphDBs := Some [pg]; Dir := "/data" |} in
  selectDBMS sample_env s
  = ({| cfg := {| GraphDBs := Some [with_System pg "postgres"]; Dir := "/data" |};
        dsn := "host=db port=5432 user=amass password=secret dbname=assets";
        dbtype := Some Postgres;
        db := Some {| store_type := Postgres;
                      store_dsn :=
                        "host=db port=5432 user=amass password=secret dbname=assets" |}
     |}, Ok tt).
Proof. by vm_compute. Qed.

(** A configuration without a list of graph databases gets the default,
    a primary SQLite entry, and [selectDBMS] then makes an SQLite store at
    the path under the output directory. A configuration whose list is
    there but has no primary entry, the empty list included, gets no
    default: on a fresh session [selectDBMS] fails with "no primary
    database specified in the configuration". *)
Theorem selectDBMS_default_only_for_nil (env : Env) (dir : string)
    (dbs : list Database) :
  sqlite_path env dir ≠ "" →
  New_is_nil env SQLite (sqlite_path env dir) = false →
  Forall (λ x, Primary x = false) dbs →
  selectDBMS env (fresh {| GraphDBs := None; Dir := dir |})
  = ({| cfg := {| GraphDBs := Some [default_db]; Dir := dir |};
        dsn := sqlite_path env dir;
        dbtype := Some SQLite;
        db := Some {| store_type := SQLite; store_dsn := sqlite_path env dir |} |},
     Ok tt) ∧
  selectDBMS env (fresh {| GraphDBs := Some dbs; Dir := dir |})
  = (fresh {| GraphDBs := Some dbs; Dir := dir |}, Err no_primary).
Proof.
  intros Hpath Hnew Hnone. split.
  - unfold selectDBMS, fresh. simpl.
    apply String.eqb_neq in Hpath. by rewrite Hpath, Hnew.
  - unfold selectDBMS, fresh. simpl.
    by rewrite (primary_loop_none env dir dbs "" None Hnone).
Qed.

Lemma selectDBMS_default_only_for_nil_witness :
  sqlite_path sample_env "/data" ≠ "" ∧
  New_is_nil sample_env SQLite (sqlite_path sample_env "/data") = false ∧
  Forall (λ x, Primary x = false) [] ∧
  selectDBMS sample_env (fresh {| GraphDBs := None; Dir := "/data" |})
  = ({| cfg := {| GraphDBs := Some [default_db]; Dir := "/data" |};
        dsn := sqlite_path sample_env "/data";
        dbtype := Some SQLite;
        db := Some {| store_type := SQLite;
                      store_dsn := sqlite_path sample_env "/data" |} |},
     Ok tt) ∧
  selectDBMS sample_env (fresh {| GraphDBs := Some []; Dir := "/data" |})
  = (fresh {| GraphDBs := Some []; Dir := "/data" |}, Err no_primary).
Proof.
  split; [done|]. split; [done|]. split; [constructor|].
  apply (selectDBMS_default_only_for_nil sample_env "/data" []).
  - done.
  - done.
  - constructor.
Defined.

End SessionDBFacts.

(** ** The RDAP plugin *)

Module RDAPFacts.
Import GoStrings RDAP.

(** Induction on an entity, with the property at hand for the entities
    below it. *)
Lemma Entity_nested_ind (P : Entity → Prop) :
  (∀ Roles Links v ents, Forall P ents → P (MkEntity Roles Links v ents)) →
  ∀ e, P e.
Proof.
  intros Hstep. fix IH 1. intros [Roles Links v ents]. apply Hstep.
  induction ents as [|e rest IHrest]; constructor; [apply IH|apply IHrest].
Qed.

(** *** [getJSONLink] *)

(** The first link of type [application/rdap+json] decides alone: its
    address is what [support.RawURLToOAM] makes of it, nil included, and no
    later link is looked at. Without such a link the result is nil. *)
Theorem getJSONLink_first_rdap_link {S} (env : Env S) (links : list Link) :
  (Forall (λ x, LType x ≠ "application/rdap+json") links →
   getJSONLink env links = None) ∧
  (∀ pre l post,
     links = pre ++ l :: post →
     Forall (λ x, LType x ≠ "application/rdap+json") pre →
     LType l = "application/rdap+json" →
     getJSONLink env links = RawURLToOAM env (Href l)).
Proof.
  split.
  - induction 1 as [|x rest Hx _ IH]; simpl; [done|].
    apply String.eqb_neq in Hx. by rewrite Hx.
  - intros pre l post -> Hpre Hl.
    induction Hpre as [|x pre Hx _ IH]; simpl.
    + by rewrite Hl.
    + apply String.eqb_neq in Hx. by rewrite Hx.
Qed.

(** A link whose address does not convert hides the good one behind it. *)
Example getJSONLink_sample :
  getJSONLink counting_env
    [ {| LType := "text/html"; Href := "https://example.net/" |};
      rdap_link ""; rdap_link "https://rdap.example/e/1" ] = None ∧
  getJSONLink counting_env
    [ {| LType := "text/html"; Href := "https://example.net/" |};
      rdap_link "https://rdap.example/e/1"; rdap_link "" ]
  = Some "https://rdap.example/e/1".
Proof. by vm_compute. Qed.

(** *** The roles *)

Lemma role_set_elem (Roles : list string) (acc : gset string) (x : string) :
  x ∈ foldl StringSet.Insert acc Roles ↔ x ∈ acc ∨ has_role Roles x.
Proof.
  unfold has_role. revert acc. induction Roles as [|r rest IH]; intros acc; simpl.
  - split; [by left|]. intros [?|(? & ?%elem_of_nil & _)]; done.
  - rewrite IH. unfold StringSet.Insert.
    rewrite elem_of_union, elem_of_singleton. split.
    + intros [[-> | ?]|(r' & Hr' & Heq)].
      * right. exists r. split; [apply list_elem_of_here|done].
      * by left.
      * right. exists r'. split; [by apply list_elem_of_further|done].
    + intros [?|(r' & [->|Hr']%elem_of_cons & Heq)]; [tauto|by left; left|].
      right. by exists r'.
Qed.

Lemma Has_role_set (Roles : list string) (x : string) :
  StringSet.Has (role_set Roles) x = true ↔ has_role Roles (ToLower x).
Proof.
  unfold StringSet.Has, role_set. rewrite bool_decide_eq_true, role_set_elem.
  unfold StringSet.New. rewrite elem_of_empty. tauto.
Qed.

Lemma Has_role_set_false (Roles : list string) (x : string) :
  StringSet.Has (role_set Roles) x = false ↔ ¬ has_role Roles (ToLower x).
Proof.
  rewrite <- Has_role_set. by destruct (StringSet.Has (role_set Roles) x).
Qed.

(** The relation of a contact follows from its roles, read without
    regard to letter case, in a fixed order of precedence: registrant, but
    only for an entity at level 1; else administrative; else abuse; else
    technical. An entity with none of these gets no relation: the
    registrant of a deeper level counts for nothing. *)
Theorem role_relation_precedence (Roles : list string) (level : Z) :
  let rel := role_relation (role_set Roles) level in
  (has_role Roles "registrant" ∧ level = 1 → rel = Some "registrant") ∧
  (¬ (has_role Roles "registrant" ∧ level = 1) →
     (has_role Roles "administrative" → rel = Some "admin_contact") ∧
     (¬ has_role Roles "administrative" →
        (has_role Roles "abuse" → rel = Some "abuse_contact") ∧
        (¬ has_role Roles "abuse" →
           (has_role Roles "technical" → rel = Some "technical_contact") ∧
           (¬ has_role Roles "technical" → rel = None)))).
Proof.
  cbv zeta. unfold role_relation.
  destruct (StringSet.Has (role_set Roles) "registrant") eqn:Hreg;
    [apply Has_role_set in Hreg|apply Has_role_set_false in Hreg];
    (destruct (StringSet.Has (role_set Roles) "administrative") eqn:Hadm;
     [apply Has_role_set in Hadm|apply Has_role_set_false in Hadm]);
    (destruct (StringSet.Has (role_set Roles) "abuse") eqn:Habu;
     [apply Has_role_set in Habu|apply Has_role_set_false in Habu]);
    (destruct (StringSet.Has (role_set Roles) "technical") eqn:Htec;
     [apply Has_role_set in Htec|apply Has_role_set_false in Htec]);
    change (ToLower "registrant") with "registrant" in Hreg;
    change (ToLower "administrative") with "administrative" in Hadm;
    change (ToLower "abuse") with "abuse" in Habu;
    change (ToLower "technical") with "technical" in Htec;
    (destruct (level =? 1) eqn:Hl;
     [apply Z.eqb_eq in Hl|apply Z.eqb_neq in Hl]);
    simpl; intuition congruence.
Qed.

(** *** [storeEntity] *)

Lemma store_loop_eq {S} (env : Env S) (m : asset_type → bool) (asset : DBEntity)
    (level : Z) (ents : list Entity) (st : S) (findings : list Finding) :
  (fix loop (st : S) (ents : list Entity) (findings : list Finding)
     : S * list Finding :=
     match ents with
     | [] => (st, findings)
     | ent :: rest =>
         let '(st, fs) := storeEntity env m asset st level ent (source env) in
         loop st rest (findings ++ fs)
     end) st ents findings
  = store_all env m asset level st ents findings.
Proof.
  revert st findings. induction ents as [|ent rest IH]; intros st findings; [done|].
  simpl. destruct (storeEntity env m asset st level ent (source env)) as [st1 fs].
  apply IH.
Qed.

(** [storeEntity] on an entity, step by step. *)
Lemma storeEntity_eq {S} (env : Env S) (m : asset_type → bool) (asset : DBEntity)
    (st : S) (level : Z) (Roles : list string) (Links : list Link) (v : VCard)
    (ents : list Entity) (src : LetItGo.Source) :
  storeEntity env m asset st level (MkEntity Roles Links v ents) src
  = match getJSONLink env Links with
    | None => (st, [])
    | Some u =>
        match role_relation (role_set Roles) level with
        | None => (st, [])
        | Some rel =>
            match CreateAsset env st (ContactRecord u) with
            | (st1, Made cr) =>
                match store_url env m src st1 cr u with
                | (st2, false) => (st2, [])
                | (st2, true) =>
                    match kind_values v with
                    | None => (st2, [])
                    | Some values =>
                        store_all env m asset (level + 1)
                          (store_vcard env m src st2 cr v values) ents
                          [own_finding asset cr u rel]
                    end
                end
            | (st1, _) => (st1, [])
            end
        end
    end.
Proof.
  simpl. destruct (getJSONLink env Links) as [u|]; [|done].
  destruct (role_relation (role_set Roles) level) as [rel|]; [|done].
  destruct (CreateAsset env st (ContactRecord u)) as [st1 [| |cr]]; [done..|].
  destruct (store_url env m src st1 cr u) as [st2 []]; [|done].
  destruct (kind_values v) as [values|]; [|done].
  apply store_loop_eq.
Qed.

Lemma store_all_prefix {S} (env : Env S) (m : asset_type → bool) (asset : DBEntity)
    (level : Z) (st : S) (ents : list Entity) (acc : list Finding) :
  ∃ more, (store_all env m asset level st ents acc).2 = acc ++ more.
Proof.
  revert st acc. induction ents as [|ent rest IH]; intros st acc; simpl.
  - exists []. by rewrite app_nil_r.
  - destruct (storeEntity env m asset st level ent (source env)) as [st1 fs].
    destruct (IH st1 (acc ++ fs)) as [more ->]. exists (fs ++ more).
    by rewrite <- app_assoc.
Qed.

Lemma store_all_Forall {S} (env : Env S) (m : asset_type → bool) (asset : DBEntity)
    (level : Z) (P : Finding → Prop) (ents : list Entity) (st : S)
    (acc : list Finding) :
  Forall (λ e, ∀ st, Forall P (storeEntity env m asset st level e (source env)).2)
         ents →
  Forall P acc →
  Forall P (store_all env m asset level st ents acc).2.
Proof.
  intros Hents. revert st acc.
  induction Hents as [|ent rest Hent _ IH]; intros st acc Hacc; simpl; [done|].
  specialize (Hent st).
  destruct (storeEntity env m asset st level ent (source env)) as [st1 fs].
  apply IH. apply Forall_app. done.
Qed.

Lemma role_relation_in (roles : gset string) (level : Z) (rel : string) :
  role_relation roles level = Some rel →
  rel ∈ contact_relations ∧ (rel = "registrant" → level = 1).
Proof.
  unfold role_relation, contact_relations.
  destruct (StringSet.Has roles "registrant" && (level =? 1)) eqn:Hreg.
  { apply andb_true_iff in Hreg as [_ Hl%Z.eqb_eq]. intros [= <-].
    split; [apply list_elem_of_here|done]. }
  destruct (StringSet.Has roles "administrative").
  { intros [= <-]. split; [|done]. apply list_elem_of_further, list_elem_of_here. }
  destruct (StringSet.Has roles "abuse").
  { intros [= <-]. split; [|done].
    do 2 apply list_elem_of_further. apply list_elem_of_here. }
  destruct (StringSet.Has roles "technical"); [|done].
  intros [= <-]. split; [|done].
  do 3 apply list_elem_of_further. apply list_elem_of_here.
Qed.

(** For a finding to come back at all, the entity itself must have a
    link of the RDAP type that converts, one of the roles that give a
    relation at its level, a contact record made by the cache, and a
    [kind] in its vCard. The first finding is then the one of the entity
    itself, from the record to the contact record under the relation of
    the roles. An entity that lacks one of these gives no finding, nor do
    the entities below it, whatever they hold. *)
Theorem storeEntity_first_finding {S} (env : Env S) (m : asset_type → bool)
    (asset : DBEntity) (st st' : S) (level : Z) (Roles : list string)
    (Links : list Link) (v : VCard) (ents : list Entity) (src : LetItGo.Source)
    (f : Finding) (fs : list Finding) :
  storeEntity env m asset st level (MkEntity Roles Links v ents) src = (st', f :: fs) →
  ∃ u rel st1 cr,
    getJSONLink env Links = Some u ∧
    role_relation (role_set Roles) level = Some rel ∧
    CreateAsset env st (ContactRecord u) = (st1, Made cr) ∧
    is_Some (kind_values v) ∧
    f = {| From := asset; FromName := from_name asset; To := cr;
           ToName := "ContactRecord: " +:+ u; Rel := rel |}.
Proof.
  rewrite storeEntity_eq.
  destruct (getJSONLink env Links) as [u|]; [|done].
  destruct (role_relation (role_set Roles) level) as [rel|]; [|done].
  destruct (CreateAsset env st (ContactRecord u)) as [st1 [| |cr]] eqn:Hcr;
    [done..|].
  destruct (store_url env m src st1 cr u) as [st2 []]; [|done].
  destruct (kind_values v) as [values|]; [|done].
  intros Hall. exists u, rel, st1, cr.
  split; [done|]. split; [done|]. split; [done|]. split; [eauto|].
  destruct (store_all_prefix env m asset (level + 1)
              (store_vcard env m src st2 cr v values) ents
              [own_finding asset cr u rel]) as [more Hmore].
  rewrite Hall in Hmore. simpl in Hmore. by injection Hmore as -> _.
Qed.

Lemma storeEntity_first_finding_witness :
  let entity :=
    MkEntity ["Technical"] [rdap_link "https://rdap.example/e/9"] no_vcard_data [] in
  let f :=
    {| From := sample_record; FromName := "AutnumRecord: AS64500";
       To := {| EID := "node"; EAsset := ContactRecord "https://rdap.example/e/9" |};
       ToName := "ContactRecord: https://rdap.example/e/9";
       Rel := "technical_contact" |} in
  storeEntity counting_env (λ _, false) sample_record 0%nat 1 entity
    (source counting_env) = (1%nat, [f]) ∧
  ∃ u rel st1 cr,
    getJSONLink counting_env [rdap_link "https://rdap.example/e/9"] = Some u ∧
    role_relation (role_set ["Technical"]) 1 = Some rel ∧
    CreateAsset counting_env 0%nat (ContactRecord u) = (st1, Made cr) ∧
    is_Some (kind_values no_vcard_data) ∧
    f = {| From := sample_record; FromName := from_name sample_record; To := cr;
           ToName := "ContactRecord: " +:+ u; Rel := rel |}.
Proof.
  cbv zeta. split; [by vm_compute|].
  apply (storeEntity_first_finding counting_env (λ _, false) sample_record
           0%nat 1%nat 1 ["Technical"] [rdap_link "https://rdap.example/e/9"]
           no_vcard_data [] (source counting_env) _ []).
  by vm_compute.
Defined.

(** Every finding that [storeEntity] returns, for the entity or for one
    below it at any depth, starts at the record that was handed in, bears
    one of the four contact relations, and names a contact record. *)
Theorem storeEntity_findings_shape {S} (env : Env S) (m : asset_type → bool)
    (asset : DBEntity) (st : S) (level : Z) (entity : Entity)
    (src : LetItGo.Source) (f : Finding) :
  f ∈ (storeEntity env m asset st level entity src).2 →
  From f = asset ∧ FromName f = from_name asset ∧
  Rel f ∈ contact_relations ∧
  ∃ u, ToName f = "ContactRecord: " +:+ u.
Proof.
  set (good := λ f : Finding,
         From f = asset ∧ FromName f = from_name asset ∧
         Rel f ∈ contact_relations ∧ ∃ u, ToName f = "ContactRecord: " +:+ u).
  assert (∀ e st level src,
            Forall good (storeEntity env m asset st level e src).2) as Hall.
  { clear. intros e. induction e as [Roles Links v ents IH] using Entity_nested_ind.
    intros st level src. rewrite storeEntity_eq.
    destruct (getJSONLink env Links) as [u|]; [|constructor].
    destruct (role_relation (role_set Roles) level) as [rel|] eqn:Hrel;
      [|constructor].
    destruct (CreateAsset env st (ContactRecord u)) as [st1 [| |cr]];
      [constructor..|].
    destruct (store_url env m src st1 cr u) as [st2 []]; [|constructor].
    destruct (kind_values v) as [values|]; [|constructor].
    apply store_all_Forall.
    - eapply Forall_impl; [exact IH|]. intros e He st0. apply He.
    - constructor; [|constructor]. unfold good. simpl.
      apply role_relation_in in Hrel as [Hin _]. eauto. }
  intros Hf. specialize (Hall entity st level src).
  rewrite Forall_forall in Hall. by apply Hall.
Qed.

Lemma storeEntity_findings_shape_witness :
  let f := {| From := sample_record; FromName := "AutnumRecord: AS64500";
              To := {| EID := "node";
                       EAsset := ContactRecord "https://rdap.example/e/2" |};
              ToName := "ContactRecord: https://rdap.example/e/2";
              Rel := "abuse_contact" |} in
  f ∈ (storeEntity counting_env (λ _, true) sample_record 0%nat 1 sample_entity
         (source counting_env)).2 ∧
  From f = sample_record ∧ FromName f = from_name sample_record ∧
  Rel f ∈ contact_relations ∧
  ∃ u, ToName f = "ContactRecord: " +:+ u.
Proof.
  cbv zeta.
  set (f := {| From := sample_record; FromName := "AutnumRecord: AS64500";
               To := {| EID := "node";
                        EAsset := ContactRecord "https://rdap.example/e/2" |};
               ToName := "ContactRecord: https://rdap.example/e/2";
               Rel := "abuse_contact" |}).
  assert (f ∈ (storeEntity counting_env (λ _, true) sample_record 0%nat 1
                 sample_entity (source counting_env)).2) as Hin.
  { vm_compute. apply list_elem_of_further, list_elem_of_here. }
  split; [exact Hin|].
  exact (storeEntity_findings_shape counting_env (λ _, true) sample_record 0%nat 1
           sample_entity (source counting_env) f Hin).
Defined.

(** The relation [registrant] is kept for the entity at the top: called
    at a level of at least 1, [storeEntity] returns it on no finding but
    the first one, and on that one only when the level is 1. A registrant
    among the entities below is stored under another of its roles, or not
    at all. *)
Theorem storeEntity_registrant_on_top {S} (env : Env S) (m : asset_type → bool)
    (asset : DBEntity) (st : S) (level : Z) (entity : Entity)
    (src : LetItGo.Source) (i : nat) (f : Finding) :
  1 ≤ level →
  (storeEntity env m asset st level entity src).2 !! i = Some f →
  Rel f = "registrant" →
  level = 1 ∧ i = 0%nat.
Proof.
  assert (∀ e st level src, 1 < level →
            Forall (λ f, Rel f ≠ "registrant")
                   (storeEntity env m asset st level e src).2) as Hdeep.
  { clear. intros e. induction e as [Roles Links v ents IH] using Entity_nested_ind.
    intros st level src Hlevel. rewrite storeEntity_eq.
    destruct (getJSONLink env Links) as [u|]; [|constructor].
    destruct (role_relation (role_set Roles) level) as [rel|] eqn:Hrel;
      [|constructor].
    destruct (CreateAsset env st (ContactRecord u)) as [st1 [| |cr]];
      [constructor..|].
    destruct (store_url env m src st1 cr u) as [st2 []]; [|constructor].
    destruct (kind_values v) as [values|]; [|constructor].
    apply store_all_Forall.
    - eapply Forall_impl; [exact IH|]. intros e He st0. apply He. lia.
    - constructor; [|constructor]. simpl.
      apply role_relation_in in Hrel as [_ Htop]. intros ->%Htop. lia. }
  intros Hlevel. destruct entity as [Roles Links v ents]. rewrite storeEntity_eq.
  destruct (getJSONLink env Links) as [u|]; [|done].
  destruct (role_relation (role_set Roles) level) as [rel|] eqn:Hrel; [|done].
  destruct (CreateAsset env st (ContactRecord u)) as [st1 [| |cr]]; [done..|].
  destruct (store_url env m src st1 cr u) as [st2 []]; [|done].
  destruct (kind_values v) as [values|]; [|done].
  set (st3 := store_vcard env m src st2 cr v values).
  assert (Forall (λ f, Rel f ≠ "registrant")
                 (store_all env m asset (level + 1) st3 ents []).2) as Hbelow.
  { apply store_all_Forall; [|constructor].
    apply Forall_forall. intros e _ st0. apply Hdeep. lia. }
  assert (∀ (acc : list Finding) st0,
            (store_all env m asset (level + 1) st0 ents acc).2
            = acc ++ (store_all env m asset (level + 1) st0 ents []).2) as Hsplit.
  { clear. induction ents as [|ent rest IH]; intros acc st0; simpl.
    - by rewrite app_nil_r.
    - destruct (storeEntity env m asset st0 (level + 1) ent (source env))
        as [st1 fs].
      rewrite (IH (acc ++ fs)), (IH fs). by rewrite <- app_assoc. }
  rewrite Hsplit. destruct i as [|i]; simpl.
  - intros [= <-]. simpl. intros ->.
    apply role_relation_in in Hrel as [_ Htop]. split; [by apply Htop|done].
  - intros Hi Hreg. exfalso. rewrite Forall_forall in Hbelow.
    apply (Hbelow f); [|done]. by apply list_elem_of_lookup_2 in Hi.
Qed.

Lemma storeEntity_registrant_on_top_witness :
  1 ≤ 1 ∧
  ∃ f,
    (storeEntity counting_env (λ _, true) sample_record 0%nat 1 sample_entity
       (source counting_env)).2 !! 0%nat = Some f ∧
    Rel f = "registrant" ∧
    (1 = 1 ∧ 0%nat = 0%nat).
Proof.
  split; [lia|]. eexists. split; [by vm_compute|]. split; [reflexivity|].
  eapply (storeEntity_registrant_on_top counting_env (λ _, true) sample_record
            0%nat 1 sample_entity (source counting_env) 0).
  - lia.
  - by vm_compute.
  - reflexivity.
Defined.

(** The sample: the registrant at the top, the abuse contact below it,
    and the registrant of the third level as a technical contact. *)
Example storeEntity_sample :
  Rel <$> (storeEntity counting_env (λ _, false) sample_record 0%nat 1 sample_entity
             (source counting_env)).2
  = ["registrant"; "abuse_contact"; "technical_contact"] ∧
  (storeEntity counting_env (λ _, false) sample_record 0%nat 2 sample_entity
     (source counting_env)).2 !! 0%nat
  = Some {| From := sample_record; FromName := "AutnumRecord: AS64500";
            To := {| EID := "node";
                     EAsset := ContactRecord "https://rdap.example/e/1" |};
            ToName := "ContactRecord: https://rdap.example/e/1";
            Rel := "admin_contact" |}.
Proof. by vm_compute. Qed.

End RDAPFacts.

(** ** The scrape plugin with its second request *)

Module RetryFacts.
Import GoStrings GoStringsFacts LetItGo Retry.

Lemma posts_app (a b : list effect) : posts (a ++ b) = posts a ++ posts b.
Proof. apply omap_app. Qed.

Lemma new_names_posts (InScope : string → bool) (src domain : string)
    (keys : list string) :
  posts (new_names InScope src domain keys) = [].
Proof.
  induction keys as [|k rest IH]; simpl; [done|]. by destruct (InScope k).
Qed.

(** A name glued in front of the suffix ends with the suffix. *)
Lemma HasSuffix_glued (label : string) :
  HasSuffix (label +:+ "." +:+ suffix) suffix = true.
Proof. apply HasSuffix_iff. exists (label +:+ "."). by rewrite str_app_assoc. Qed.

(** One turn of the loop, spelled out. *)
Lemma retry_loop_S (env : Env) (fuel : nat) (domain : string)
    (bareDomains : gset string) (ev : list effect) :
  retry_loop env (S fuel) domain bareDomains ev =
  match soap env domain with
  | PostFailed err => Some (Err err, ev ++ [Post domain])
  | DecodeFailed err =>
      Some (Err ("failed to parse XML: " +:+ err), ev ++ [Post domain])
  | Domains ds =>
      let bare := Resubmit.bare_domains env ds bareDomains in
      if (size bare =? 0)%nat && negb (HasSuffix domain suffix) then
        let parts := SplitDot (default "" (EffectiveTLDPlusOne env domain)) in
        if (1 <? length parts)%nat
        then retry_loop env fuel (second_last parts +:+ "." +:+ suffix) bare
               ((ev ++ [Post domain])
                  ++ [Println "Retrying with onmicrosoft.com suffix"])
        else Some (Ok (domain, bare),
                   (ev ++ [Post domain])
                     ++ [Println "Retrying with onmicrosoft.com suffix"])
      else Some (Ok (domain, bare), ev ++ [Post domain])
  end.
Proof. reflexivity. Qed.

(** A request for a name under the suffix is the last one. *)
Lemma retry_loop_last (env : Env) (fuel : nat) (domain : string)
    (bareDomains : gset string) (ev : list effect) :
  HasSuffix domain suffix = true →
  retry_loop env (S fuel) domain bareDomains ev =
  Some (match soap env domain with
        | PostFailed err => Err err
        | DecodeFailed err => Err ("failed to parse XML: " +:+ err)
        | Domains ds => Ok (domain, Resubmit.bare_domains env ds bareDomains)
        end, ev ++ [Post domain]).
Proof.
  intros Hsuf. rewrite retry_loop_S. destruct (soap env domain); [done..|].
  cbv zeta. by rewrite Hsuf, andb_false_r.
Qed.

Lemma retry_loop_fuel (env : Env) (fuel : nat) (domain : string)
    (bareDomains : gset string) (ev : list effect) :
  retry_loop env (S (S fuel)) domain bareDomains ev
  = retry_loop env 2 domain bareDomains ev.
Proof.
  rewrite !(retry_loop_S env (S _)). destruct (soap env domain); [done..|].
  cbv zeta.
  destruct ((size (Resubmit.bare_domains env ds bareDomains) =? 0)%nat
            && negb (HasSuffix domain suffix)); [|done].
  destruct (1 <? length (SplitDot (default "" (EffectiveTLDPlusOne env domain))))%nat;
    [|done].
  by rewrite !retry_loop_last by apply HasSuffix_glued.
Qed.

(** [Run] ends after one request or two, whatever the service answers: a
    bound of two turns is enough for the loop, and any larger bound gives
    the same result. The second request follows a first one that brought
    no domain, for a name that does not end with [onmicrosoft.com]; it
    asks for a name that does, and so it is never followed by a third. *)
Theorem Run_at_most_two_requests (env : Env) (InScope : string → bool)
    (fuel : nat) (domain : string) :
  (2 ≤ fuel)%nat →
  ∃ r ev,
    Run env InScope fuel domain = Some (r, ev) ∧
    Run env InScope 2 domain = Some (r, ev) ∧
    (posts ev = [domain] ∨
     ∃ label, posts ev = [domain; label +:+ ".onmicrosoft.com"] ∧
              HasSuffix domain "onmicrosoft.com" = false).
Proof.
  intros Hfuel. destruct fuel as [|[|fuel]]; [lia..|].
  unfold Run. rewrite retry_loop_fuel, (retry_loop_S env 1).
  destruct (soap env domain) as [err|err|ds] eqn:Hsoap.
  1,2: eexists _, _; split; [done|]; split; [done|]; by left.
  cbv zeta.
  destruct ((size (Resubmit.bare_domains env ds ∅) =? 0)%nat
            && negb (HasSuffix domain suffix)) eqn:Hretry.
  2: { eexists _, _. split; [done|]. split; [done|]. left.
       by rewrite posts_app, new_names_posts. }
  apply andb_true_iff in Hretry as [_ Hsuf%negb_true_iff].
  destruct (1 <? length (SplitDot (default "" (EffectiveTLDPlusOne env domain))))%nat.
  2: { eexists _, _. split; [done|]. split; [done|]. left.
       by rewrite posts_app, new_names_posts. }
  rewrite retry_loop_last by apply HasSuffix_glued.
  destruct (soap env (_ +:+ _)) as [e1|e2|ds2];
    eexists _, _; (split; [done|]); (split; [done|]); right;
    eexists; (split; [|exact Hsuf]);
    rewrite ?posts_app, ?new_names_posts; done.
Qed.

Lemma Run_at_most_two_requests_witness :
  (2 ≤ 5)%nat ∧
  ∃ r ev,
    Run (sample_env tenant_reply) (λ _, true) 5 "www.example.com" = Some (r, ev) ∧
    Run (sample_env tenant_reply) (λ _, true) 2 "www.example.com" = Some (r, ev) ∧
    (posts ev = ["www.example.com"] ∨
     ∃ label, posts ev = ["www.example.com"; label +:+ ".onmicrosoft.com"] ∧
              HasSuffix "www.example.com" "onmicrosoft.com" = false).
Proof.
  split; [lia|].
  apply (Run_at_most_two_requests (sample_env tenant_reply) (λ _, true) 5
           "www.example.com").
  lia.
Defined.

(** When the first answer brings no domain and the name asked for does
    not end with [onmicrosoft.com], [Run] asks once more, for the label
    before the last one of the registrable domain of that name, followed by
    [.onmicrosoft.com]; this needs a registrable domain of two labels at
    least. In every other case the first request is the only one. *)
Theorem Run_second_request (env : Env) (InScope : string → bool) (domain : string)
    (ds : list string) :
  soap env domain = Domains ds →
  let parts := SplitDot (default "" (EffectiveTLDPlusOne env domain)) in
  let again :=
    Resubmit.bare_domains env ds ∅ = ∅ ∧
    HasSuffix domain "onmicrosoft.com" = false ∧
    (2 ≤ length parts)%nat in
  ∃ r ev,
    Run env InScope 2 domain = Some (r, ev) ∧
    (again →
       posts ev = [domain; nth (length parts - 2) parts "" +:+ ".onmicrosoft.com"]) ∧
    (¬ again → posts ev = [domain]).
Proof.
  intros Hsoap. cbv zeta. unfold Run. rewrite (retry_loop_S env 1), Hsoap. cbv zeta.
  destruct (size (Resubmit.bare_domains env ds ∅) =? 0)%nat eqn:Hsize.
  2: { eexists _, _. split; [done|]. rewrite posts_app, new_names_posts.
       split; [|done]. intros (Hempty & _). rewrite Hempty in Hsize. done. }
  apply Nat.eqb_eq, size_empty_iff in Hsize. apply leibniz_equiv in Hsize.
  destruct (HasSuffix domain suffix) eqn:Hsuf.
  { eexists _, _. split; [done|]. rewrite posts_app, new_names_posts.
    split; [|done]. intros (_ & Hno & _). unfold suffix in Hsuf. congruence. }
  simpl negb. cbv iota.
  destruct (1 <? length (SplitDot (default "" (EffectiveTLDPlusOne env domain))))%nat
    eqn:Hparts.
  2: { eexists _, _. split; [done|]. rewrite posts_app, new_names_posts.
       split; [|done]. intros (_ & _ & Hlen). apply Nat.ltb_ge in Hparts. lia. }
  rewrite retry_loop_last by apply HasSuffix_glued.
  destruct (soap env (_ +:+ _)) as [e1|e2|ds2];
    eexists _, _; (split; [done|]);
    rewrite ?posts_app, ?new_names_posts;
    (split; [done|]); intros Hnot; exfalso; apply Hnot;
    apply Nat.ltb_lt in Hparts; (split; [done|]); (split; [done|]); lia.
Qed.

Lemma Run_second_request_witness :
  soap uk_env "www.example.co.uk" = Domains [] ∧
  let parts :=
    SplitDot (default "" (EffectiveTLDPlusOne uk_env "www.example.co.uk")) in
  let again :=
    Resubmit.bare_domains uk_env [] ∅ = ∅ ∧
    HasSuffix "www.example.co.uk" "onmicrosoft.com" = false ∧
    (2 ≤ length parts)%nat in
  ∃ r ev,
    Run uk_env (λ _, true) 2 "www.example.co.uk" = Some (r, ev) ∧
    (again →
       posts ev = ["www.example.co.uk";
                   nth (length parts - 2) parts "" +:+ ".onmicrosoft.com"]) ∧
    (¬ again → posts ev = ["www.example.co.uk"]).
Proof.
  split; [reflexivity|].
  apply (Run_second_request uk_env (λ _, true) "www.example.co.uk" []).
  reflexivity.
Defined.

(** The label before the last one: for [www.example.com] the second
    request asks for [example.onmicrosoft.com], for [www.example.co.uk],
    whose registrable domain is [example.co.uk], for [co.onmicrosoft.com]. *)
Example Run_second_request_sample :
  posts (default [] (snd <$> Run (sample_env tenant_reply) (λ _, true) 2
                                 "www.example.com"))
  = ["www.example.com"; "example.onmicrosoft.com"] ∧
  posts (default [] (snd <$> Run uk_env (λ _, true) 2 "www.example.co.uk"))
  = ["www.example.co.uk"; "co.onmicrosoft.com"].
Proof. by vm_compute. Qed.

(** *** The names that [Run] reports *)

Lemma retry_loop_ok (env : Env) (fuel : nat) (domain : string) (ev : list effect)
    (d' : string) (bare' : gset string) (ev' : list effect) :
  retry_loop env fuel domain ∅ ev = Some (Ok (d', bare'), ev') →
  ∃ ds more,
    soap env d' = Domains ds ∧
    bare' = Resubmit.bare_domains env ds ∅ ∧
    ev' = ev ++ more ∧ Forall quiet more ∧ last (posts more) = Some d'.
Proof.
  revert domain ev. induction fuel as [|fuel IH]; intros domain ev; [done|].
  rewrite retry_loop_S. destruct (soap env domain) as [err|err|ds] eqn:Hsoap;
    [done..|].
  cbv zeta.
  destruct (size (Resubmit.bare_domains env ds ∅) =? 0)%nat eqn:Hsize.
  2: { simpl. intros [= <- <- <-]. exists ds, [Post domain].
       repeat split; try done. by repeat constructor. }
  destruct (HasSuffix domain suffix).
  { simpl. intros [= <- <- <-]. exists ds, [Post domain].
    repeat split; try done. by repeat constructor. }
  simpl negb. cbv iota.
  destruct (1 <? length (SplitDot (default "" (EffectiveTLDPlusOne env domain))))%nat.
  2: { intros [= <- <- <-].
       exists ds, [Post domain; Println "Retrying with onmicrosoft.com suffix"].
       rewrite <- app_assoc. repeat split; try done. by repeat constructor. }
  apply Nat.eqb_eq, size_empty_iff in Hsize. apply leibniz_equiv in Hsize.
  rewrite Hsize. intros (ds2 & more & Hs2 & -> & -> & Hquiet & Hlast)%IH.
  exists ds2, ([Post domain; Println "Retrying with onmicrosoft.com suffix"] ++ more).
  split; [done|]. split; [done|]. split; [by rewrite <- !app_assoc|]. split.
  - apply Forall_app. split; [by repeat constructor|done].
  - rewrite posts_app, last_app, Hlast. done.
Qed.

Lemma new_names_elem (InScope : string → bool) (src domain : string)
    (keys : list string) (e : effect) :
  e ∈ new_names InScope src domain keys →
  ∃ k, k ∈ keys ∧ InScope k = true ∧
       e = NewName {| RName := k; RDomain := domain; RTag := src; RSource := src;
                      RConfidence := 90 |}.
Proof.
  induction keys as [|k rest IH]; simpl; [by intros ?%elem_of_nil|].
  destruct (InScope k) eqn:Hk.
  - intros [->|Hin]%elem_of_cons.
    + exists k. split; [apply list_elem_of_here|done].
    + destruct (IH Hin) as (k' & Hk' & Hrest). exists k'.
      split; [by apply list_elem_of_further|done].
  - intros Hin. destruct (IH Hin) as (k' & Hk' & Hrest). exists k'.
    split; [by apply list_elem_of_further|done].
Qed.

(** Every name that [Run] reports to the session is in scope, is among
    the bare domains of the answer to the last request that [Run] made,
    and is reported with that last request as its domain: after a second
    request this is the [onmicrosoft.com] name, not the domain [Run] was
    called with. Tag and source are the name of the plugin and the
    confidence is 90. *)
Theorem Run_reports_in_scope (env : Env) (InScope : string → bool) (fuel : nat)
    (domain : string) (r : result unit) (ev : list effect) (req : DNSRequest) :
  Run env InScope fuel domain = Some (r, ev) →
  NewName req ∈ ev →
  InScope (RName req) = true ∧
  last (posts ev) = Some (RDomain req) ∧
  (∃ ds, soap env (RDomain req) = Domains ds ∧
         RName req ∈ range_keys env (Resubmit.bare_domains env ds ∅)) ∧
  RTag req = "LetItGo" ∧ RSource req = "LetItGo" ∧ RConfidence req = 90.
Proof.
  unfold Run.
  destruct (retry_loop env fuel domain ∅ []) as [[[[d' bare']|err] ev']|] eqn:Hloop;
    [| |done].
  - apply retry_loop_ok in Hloop as (ds & more & Hsoap & -> & -> & Hquiet & Hlast).
    intros [= <- <-] [Hin|Hin]%elem_of_app.
    { exfalso. rewrite Forall_forall in Hquiet. by apply (Hquiet _ Hin req). }
    apply new_names_elem in Hin as (k & Hk & Hscope & [= ->]). simpl.
    split; [done|]. split.
    + rewrite posts_app, new_names_posts, app_nil_r. done.
    + split; [by exists ds|done].
  - intros [= <- <-] Hin. exfalso. revert Hin. clear -Hloop.
    assert (∀ fuel domain bare ev0 err ev',
              retry_loop env fuel domain bare ev0 = Some (Err err, ev') →
              ∃ more, ev' = ev0 ++ more ∧ Forall quiet more) as Herr.
    { clear. induction fuel as [|fuel IH]; intros domain bare ev0 err ev'; [done|].
      rewrite retry_loop_S. destruct (soap env domain) as [e1|e2|ds].
      - intros [= <- <-]. exists [Post domain]. split; [done|]. by repeat constructor.
      - intros [= <- <-]. exists [Post domain]. split; [done|]. by repeat constructor.
      - cbv zeta.
        destruct ((size (Resubmit.bare_domains env ds bare) =? 0)%nat
                  && negb (HasSuffix domain suffix)); [|done].
        destruct (1 <? length (SplitDot (default "" (EffectiveTLDPlusOne env domain))))%nat;
          [|done].
        intros (more & -> & Hquiet)%IH.
        exists ([Post domain; Println "Retrying with onmicrosoft.com suffix"] ++ more).
        split; [by rewrite <- !app_assoc|].
        apply Forall_app. split; [by repeat constructor|done]. }
    destruct (Herr _ _ _ _ _ _ Hloop) as (more & -> & Hquiet).
    simpl. intros Hin. rewrite Forall_forall in Hquiet. by apply (Hquiet _ Hin req).
Qed.

Lemma Run_reports_in_scope_witness :
  let env := sample_env tenant_reply in
  let InScope := λ n, String.eqb n "example.net" in
  let req := {| RName := "example.net"; RDomain := "example.onmicrosoft.com";
                RTag := "LetItGo"; RSource := "LetItGo"; RConfidence := 90 |} in
  let ev := [Post "www.example.com";
             Println "Retrying with onmicrosoft.com suffix";
             Post "example.onmicrosoft.com"; NewName req] in
  Run env InScope 2 "www.example.com" = Some (Ok tt, ev) ∧
  NewName req ∈ ev ∧
  InScope (RName req) = true ∧
  last (posts ev) = Some (RDomain req) ∧
  (∃ ds, soap env (RDomain req) = Domains ds ∧
         RName req ∈ range_keys env (Resubmit.bare_domains env ds ∅)) ∧
  RTag req = "LetItGo" ∧ RSource req = "LetItGo" ∧ RConfidence req = 90.
Proof.
  cbv zeta.
  set (req := {| RName := "example.net"; RDomain := "example.onmicrosoft.com";
                 RTag := "LetItGo"; RSource := "LetItGo"; RConfidence := 90 |}).
  set (ev := [Post "www.example.com";
              Println "Retrying with onmicrosoft.com suffix";
              Post "example.onmicrosoft.com"; NewName req]).
  assert (Run (sample_env tenant_reply) (λ n, String.eqb n "example.net") 2
              "www.example.com" = Some (Ok tt, ev)) as Hrun by (by vm_compute).
  assert (NewName req ∈ ev) as Hin.
  { do 3 apply list_elem_of_further. apply list_elem_of_here. }
  split; [exact Hrun|]. split; [exact Hin|].
  exact (Run_reports_in_scope (sample_env tenant_reply)
           (λ n, String.eqb n "example.net") 2 "www.example.com" (Ok tt) ev req
           Hrun Hin).
Defined.

End RetryFacts.

(** ** More on the traversal of utils/addr.go *)

Module TraversalFacts.
Import GoStrings OAM Addr AddrFacts AddrSamples.

(** In [oneMoreName] the first address record of the name decides alone.
    The answer is whatever [getAddr] says about its target; when that
    target cannot be fetched or is no address, the call fails with "failed
    to extract the IP address" and no later record is tried. Without any
    address record, or when the edges cannot be read, the call fails with
    "failed to traverse the FQDN". *)
Theorem oneMoreName_first_address_record (db : Repository) (name : Entity)
    (since : Z) (pre : list Edge) (e : Edge) (post : list Edge) :
  OutgoingEdges db name since "dns_record" = Some (pre ++ e :: post) →
  Forall (λ x, ¬ address_record x) pre →
  address_record e →
  oneMoreName db name since = getAddr db (ToEntity e) since ∧
  ((∀ ip, ¬ AddressOf db (ToEntity e) ip) →
   oneMoreName db name since = Err "failed to extract the IP address").
Proof.
  intros Hedges Hpre He.
  assert (oneMoreName db name since = getAddr db (ToEntity e) since) as Hfirst.
  { unfold oneMoreName. rewrite Hedges.
    assert (oneMoreName_edges db since (pre ++ e :: post)
            = Some (getAddr db (ToEntity e) since)) as ->; [|done].
    apply oneMoreName_edges_Some. exists e. split; [|done]. by exists pre, post. }
  split; [done|]. intros Hno. rewrite Hfirst.
  destruct (getAddr db (ToEntity e) since) as [ip|msg] eqn:Hg.
  - exfalso. by apply getAddr_Ok, Hno in Hg.
  - revert Hg. unfold getAddr.
    destruct (FindEntityById db (ID (ToEntity e))) as [entity|]; [|by intros [= <-]].
    by destruct (EAsset entity); intros [= <-].
Qed.

Lemma oneMoreName_first_address_record_witness :
  OutgoingEdges hidden_repo ns_node 0 "dns_record"
  = Some ([dns_edge (basic 5) ns_node web_node]
            ++ dns_edge (basic 1) ns_node web_node
            :: [dns_edge (basic 28) ns_node ip_node]) ∧
  Forall (λ x, ¬ address_record x) [dns_edge (basic 5) ns_node web_node] ∧
  address_record (dns_edge (basic 1) ns_node web_node) ∧
  oneMoreName hidden_repo ns_node 0
  = getAddr hidden_repo (ToEntity (dns_edge (basic 1) ns_node web_node)) 0 ∧
  ((∀ a, ¬ AddressOf hidden_repo (ToEntity (dns_edge (basic 1) ns_node web_node)) a) →
   oneMoreName hidden_repo ns_node 0 = Err "failed to extract the IP address").
Proof.
  assert (Forall (λ x, ¬ address_record x) [dns_edge (basic 5) ns_node web_node])
    as Hpre.
  { constructor; [|constructor]. intros (h & [= <-] & [H|H]); by vm_compute in H. }
  assert (address_record (dns_edge (basic 1) ns_node web_node)) as He.
  { exists {| RRType := 1 |}. split; [done|]. by left. }
  split; [reflexivity|]. split; [exact Hpre|]. split; [exact He|].
  exact (oneMoreName_first_address_record hidden_repo ns_node 0
           [dns_edge (basic 5) ns_node web_node]
           (dns_edge (basic 1) ns_node web_node)
           [dns_edge (basic 28) ns_node ip_node] eq_refl Hpre He).
Defined.

(** The address record that points at a name hides the one behind it
    that points at an address. *)
Example oneMoreName_sample :
  oneMoreName hidden_repo ns_node 0 = Err "failed to extract the IP address".
Proof. by vm_compute. Qed.

(** *** The edge that gives a name its address *)

Lemma edges_loop_first (db : Repository) (since : Z) (edges : list Edge)
    (ip : string) :
  edges_loop db since edges = Some ip →
  ∃ e, first_edge (λ x, ∃ a, Resolves db since x a) edges e ∧
       Resolves db since e ip.
Proof.
  induction edges as [|x rest IH]; simpl; [done|].
  destruct (edge_addr db since x) as [a|] eqn:Hx.
  - intros [= ->]. apply edge_addr_Resolves in Hx. exists x. split; [|done].
    apply (first_edge_here (λ x, ∃ a, Resolves db since x a)). eauto.
  - intros (e & Hfirst & Hres)%IH. exists e. split; [|done].
    apply (first_edge_later (λ x, ∃ a, Resolves db since x a)); [|done].
    intros [a Ha]. apply edge_addr_Resolves in Ha. congruence.
Qed.

Lemma names_loop_first (db : Repository) (since : Z) (fqdns : list Entity)
    (acc res : list NameAddrPair) :
  names_loop db since fqdns acc = Done res →
  ∀ p, p ∈ res →
    p ∈ acc ∨
    ∃ f edges e, f ∈ fqdns ∧ EAsset f = FQDN (PFQDN p) ∧
                 OutgoingEdges db f since "dns_record" = Some edges ∧
                 first_edge (λ x, ∃ a, Resolves db since x a) edges e ∧
                 Resolves db since e (PAddr p).
Proof.
  revert acc. induction fqdns as [|f rest IH]; intros acc; simpl.
  { intros [= <-] p Hp. by left. }
  assert (∀ acc', names_loop db since rest acc' = Done res →
            (∀ p, p ∈ acc' → p ∈ acc ∨
               ∃ f0 edges e, f0 ∈ f :: rest ∧ EAsset f0 = FQDN (PFQDN p) ∧
                 OutgoingEdges db f0 since "dns_record" = Some edges ∧
                 first_edge (λ x, ∃ a, Resolves db since x a) edges e ∧
                 Resolves db since e (PAddr p)) →
            ∀ p, p ∈ res → p ∈ acc ∨
               ∃ f0 edges e, f0 ∈ f :: rest ∧ EAsset f0 = FQDN (PFQDN p) ∧
                 OutgoingEdges db f0 since "dns_record" = Some edges ∧
                 first_edge (λ x, ∃ a, Resolves db since x a) edges e ∧
                 Resolves db since e (PAddr p)) as Hnext.
  { intros acc' Hl Hacc p Hp. destruct (IH acc' Hl p Hp) as [Hin|Hex].
    - by apply Hacc.
    - right. destruct Hex as (f0 & edges & e & Hf0 & Hrest).
      exists f0, edges, e. split; [by apply list_elem_of_further|done]. }
  destruct (OutgoingEdges db f since "dns_record") as [edges|] eqn:He;
    [|intros Hl; apply (Hnext acc Hl); auto].
  destruct (edges_loop db since edges) as [ip|] eqn:Hip;
    [|intros Hl; apply (Hnext acc Hl); auto].
  destruct (EAsset f) as [n| | |] eqn:Hn; try done.
  intros Hl. apply (Hnext _ Hl). intros p [Hp|Hp]%elem_of_app; [by left|].
  apply list_elem_of_singleton in Hp as ->. right.
  apply edges_loop_first in Hip as (e & Hfirst & Hres).
  exists f, edges, e. split; [apply list_elem_of_here|done].
Qed.

(** A name gets the address of the first of its [dns_record] edges, in
    the order of the store, that resolves at all: every pair that
    [NamesToAddrs] returns comes from the located node of one of the
    names, and its address is the one that the first resolving edge of
    that node resolves to. Edges before it do not resolve; edges after it
    are not looked at. *)
Theorem NamesToAddrs_first_resolving_edge (db : Repository) (since : Z)
    (names : list string) (res : list NameAddrPair) (p : NameAddrPair) :
  NamesToAddrs db since names = Done res →
  p ∈ res →
  ∃ name f pre e post,
    name ∈ names ∧ Located db since name f ∧ EAsset f = FQDN (PFQDN p) ∧
    OutgoingEdges db f since "dns_record" = Some (pre ++ e :: post) ∧
    Forall (λ x, ∀ a, ¬ Resolves db since x a) pre ∧
    Resolves db since e (PAddr p).
Proof.
  unfold NamesToAddrs. intros Hres Hp.
  destruct (names_loop_first db since _ _ _ Hres p Hp)
    as [Hnil|(f & edges & e & Hf & Hn & He & Hfirst & Hr)].
  { by apply elem_of_nil in Hnil. }
  apply locate_elem in Hf as (name & Hname & Hloc).
  destruct Hfirst as (pre & post & -> & _ & Hpre).
  exists name, f, pre, e, post. repeat split; try done.
  eapply Forall_impl; [exact Hpre|]. intros x Hx a Ha. apply Hx. eauto.
Qed.

Lemma NamesToAddrs_first_resolving_edge_witness :
  let p := {| PFQDN := "www.example.com"; PAddr := "192.0.2.1" |} in
  NamesToAddrs sample_repo 0 ["www.example.com"] = Done [p] ∧
  p ∈ [p] ∧
  ∃ name f pre e post,
    name ∈ ["www.example.com"] ∧ Located sample_repo 0 name f ∧
    EAsset f = FQDN (PFQDN p) ∧
    OutgoingEdges sample_repo f 0 "dns_record" = Some (pre ++ e :: post) ∧
    Forall (λ x, ∀ a, ¬ Resolves sample_repo 0 x a) pre ∧
    Resolves sample_repo 0 e (PAddr p).
Proof.
  cbv zeta.
  assert (NamesToAddrs sample_repo 0 ["www.example.com"]
          = Done [{| PFQDN := "www.example.com"; PAddr := "192.0.2.1" |}]) as Hrun
    by (by vm_compute).
  split; [exact Hrun|]. split; [apply list_elem_of_here|].
  exact (NamesToAddrs_first_resolving_edge sample_repo 0 ["www.example.com"] _ _
           Hrun (list_elem_of_here _ _)).
Defined.

End TraversalFacts.

(** ** More on the scope test *)

Module ScopeFacts.
Import GoStrings GoStringsFacts Subs SubsFacts.

Lemma ToLower_app (a b : string) : ToLower (a +:+ b) = ToLower a +:+ ToLower b.
Proof.
  induction a as [|c a IH]; [done|]. rewrite str_app_cons. simpl.
  by rewrite IH, str_app_cons.
Qed.

(** The answer of [domainNameInScope] depends on which root domains are
    given, not on their order or on how often each is given: two lists
    with the same elements give the same answer. The command takes the
    list from a set, which hands its elements out in no fixed order. *)
Theorem domainNameInScope_same_roots (name : string) (scope1 scope2 : list string) :
  (∀ r, r ∈ scope1 ↔ r ∈ scope2) →
  domainNameInScope name scope1 = domainNameInScope name scope2.
Proof.
  intros Hsame.
  assert (domainNameInScope name scope1 = true ↔ domainNameInScope name scope2 = true)
    as Hiff.
  { rewrite !domainNameInScope_true_iff. unfold in_scope_spec.
    split; intros (r & Hr & Hm); exists r; (split; [by apply Hsame|done]). }
  destruct (domainNameInScope name scope1), (domainNameInScope name scope2);
    try done.
  - symmetry. by apply Hiff.
  - by apply Hiff.
Qed.

Lemma domainNameInScope_same_roots_witness :
  (∀ r, r ∈ ["example.com"; "example.org"]
        ↔ r ∈ ["example.org"; "example.com"; "example.org"]) ∧
  domainNameInScope "api.example.org" ["example.com"; "example.org"]
  = domainNameInScope "api.example.org" ["example.org"; "example.com"; "example.org"].
Proof.
  assert (∀ r, r ∈ ["example.com"; "example.org"]
               ↔ r ∈ ["example.org"; "example.com"; "example.org"]) as Hsame.
  { intros r. rewrite !elem_of_cons, !elem_of_nil. tauto. }
  split; [exact Hsame|].
  exact (domainNameInScope_same_roots "api.example.org" _ _ Hsame).
Defined.

(** What is below a name in scope is in scope: when a name without white
    space around it passes the test, so does every name made of a label,
    a dot and that name. *)
Theorem domainNameInScope_subdomain (label name : string) (scope : list string) :
  TrimSpace name = name →
  TrimSpace (label +:+ "." +:+ name) = label +:+ "." +:+ name →
  domainNameInScope name scope = true →
  domainNameInScope (label +:+ "." +:+ name) scope = true.
Proof.
  intros Hname Hsub. rewrite !domainNameInScope_true_iff, Hname, Hsub.
  intros (r & Hr & Hm). exists r. split; [done|]. right.
  rewrite !ToLower_app. change (ToLower ".") with ".".
  destruct Hm as [->|[p ->]].
  - by exists (ToLower label).
  - exists (ToLower label +:+ "." +:+ p). by rewrite !str_app_assoc.
Qed.

Lemma domainNameInScope_subdomain_witness :
  TrimSpace "example.com" = "example.com" ∧
  TrimSpace ("api" +:+ "." +:+ "example.com") = "api" +:+ "." +:+ "example.com" ∧
  domainNameInScope "example.com" ["Example.COM"] = true ∧
  domainNameInScope ("api" +:+ "." +:+ "example.com") ["Example.COM"] = true.
Proof.
  split; [reflexivity|]. split; [reflexivity|]. split; [reflexivity|].
  apply (domainNameInScope_subdomain "api" "example.com" ["Example.COM"]);
    reflexivity.
Defined.

End ScopeFacts.

(** ** More on the scrape plugin with the TTL gate *)

Module GatedFacts.
Import GoStrings OAM LetItGo.

(** The node that the cache makes for a name. *)
Lemma store_step (env : Env) (w : World) (name : string) :
  store_fails env name = false →
  ∃ w3,
    (∀ rest acc,
       Gated.store env w (name :: rest) acc
       = Gated.store env w3 rest (acc ++ [{| ID := name; EAsset := FQDN name |}])) ∧
    (∀ r, r ∈ scope w3 ↔ r ∈ scope w ∨ r = name) ∧
    (∀ c, c ∈ cache w3 ↔ c ∈ cache w ∨ c = name).
Proof.
  intros Hok. unfold Gated.store at 1. fold Gated.store.
  unfold CreateAsset. rewrite Hok.
  destruct (bool_decide (name ∈ cache w)) eqn:Hc;
    [apply bool_decide_eq_true in Hc|apply bool_decide_eq_false in Hc];
    unfold AddDomain; simpl;
    (destruct (bool_decide (name ∈ scope w)) eqn:Hs;
     [apply bool_decide_eq_true in Hs|apply bool_decide_eq_false in Hs]);
    eexists; (split; [intros rest acc; reflexivity|]); simpl;
    split; intros x; rewrite ?elem_of_app, ?list_elem_of_singleton;
    split; try tauto; intros [?| ->]; tauto.
Qed.

Lemma store_step_fail (env : Env) (w : World) (name : string)
    (rest : list string) (acc : list Entity) :
  store_fails env name = true →
  Gated.store env w (name :: rest) acc
  = Gated.store env (add_log w "store error") rest acc.
Proof. intros Hfail. simpl. unfold CreateAsset. by rewrite Hfail. Qed.

(** [store] widens the scope of the session by what it stores: for every
    name whose node the cache makes, the name is a root domain of the scope
    afterwards and a node of the cache, and the entities returned are the
    nodes of these names in the order given, behind the ones handed in.
    Nothing leaves the scope, and nothing else enters it. *)
Theorem store_widens_scope (env : Env) (w : World) (names : list string)
    (acc : list Entity) :
  let w' := (Gated.store env w names acc).1 in
  (∀ r, r ∈ scope w' ↔
        r ∈ scope w ∨ (r ∈ names ∧ store_fails env r = false)) ∧
  (∀ c, c ∈ cache w' ↔
        c ∈ cache w ∨ (c ∈ names ∧ store_fails env c = false)) ∧
  (Gated.store env w names acc).2
  = acc ++ ((λ n, {| ID := n; EAsset := FQDN n |})
              <$> List.filter (λ n, negb (store_fails env n)) names).
Proof.
  cbv zeta. revert w acc. induction names as [|name rest IH]; intros w acc.
  { simpl. rewrite app_nil_r. split; [|split; [|done]]; intros x; split;
      try tauto; intros [?|[?%elem_of_nil _]]; done. }
  destruct (store_fails env name) eqn:Hfail.
  - rewrite store_step_fail by done.
    destruct (IH (add_log w "store error") acc) as (Hscope & Hcache & Hres).
    simpl List.filter. rewrite Hfail. simpl negb. cbv iota.
    split; [|split; [|done]]; intros x.
    + rewrite Hscope. simpl. rewrite elem_of_cons. split; [tauto|].
      intros [?|[[->|?] ?]]; [tauto|congruence|tauto].
    + rewrite Hcache. simpl. rewrite elem_of_cons. split; [tauto|].
      intros [?|[[->|?] ?]]; [tauto|congruence|tauto].
  - destruct (store_step env w name Hfail) as (w3 & Hstep & Hs3 & Hc3).
    rewrite Hstep.
    destruct (IH w3 (acc ++ [{| ID := name; EAsset := FQDN name |}]))
      as (Hscope & Hcache & Hres).
    simpl List.filter. rewrite Hfail. simpl negb. cbv iota.
    split; [|split]; [intros x..|].
    + rewrite Hscope, Hs3, elem_of_cons. split.
      * intros [[?| ->]|[? ?]]; [by left|right; split; [by left|done]|].
        right. split; [by right|done].
      * intros [?|[[->|?] ?]]; tauto.
    + rewrite Hcache, Hc3, elem_of_cons. split.
      * intros [[?| ->]|[? ?]]; [by left|right; split; [by left|done]|].
        right. split; [by right|done].
      * intros [?|[[->|?] ?]]; tauto.
    + rewrite Hres. by rewrite <- app_assoc.
Qed.

(** Two names from an answer, one of them new to the scope. *)
Example store_sample :
  let w' := (Gated.store (sample_env (λ _, Domains [])) start_world
               ["example.com"; "example.org"] []).1 in
  scope w' = ["example.com"; "example.org"] ∧
  cache w' = ["example.com"; "example.org"] ∧
  log w' = ["Domain added to scope"].
Proof. by vm_compute. Qed.

(** An event that fails the scope test goes no further. When the scope
    gives confidence 0 or no asset for the name of the event, or an asset
    that is no FQDN or whose name differs from it in more than letter
    case, [check] returns nil and leaves everything as it was: no request
    is sent, the asset is not marked, nothing is stored or logged. An
    event whose entity is no FQDN is answered with the error "failed to
    extract the FQDN asset", with the same nothing done. *)
Theorem check_out_of_scope_untouched (env : Env) (w : World) (e : Event) :
  (∀ name, EAsset (EEntity e) = FQDN name →
     match IsAssetInScope env (scope w) name with
     | (Some (FQDN f), conf) =>
         conf = 0 ∨ EqualFold name f = false → Gated.check env w e = (w, Ok tt)
     | _ => Gated.check env w e = (w, Ok tt)
     end) ∧
  ((∀ name, EAsset (EEntity e) ≠ FQDN name) →
   Gated.check env w e = (w, Err "failed to extract the FQDN asset")).
Proof.
  split.
  - intros name Hname. unfold Gated.check. rewrite Hname.
    destruct (IsAssetInScope env (scope w) name) as [[[f| | |]|] conf]; try done.
    intros [->|Hfold]; [done|].
    rewrite Hfold. by rewrite orb_true_r.
  - intros Hno. unfold Gated.check.
    destruct (EAsset (EEntity e)) as [name| | |] eqn:Ha; try done.
    by destruct (Hno name).
Qed.

End GatedFacts.

(** ** The edges that [store] of letitgo.go adds *)

Module AssociatedFacts.
Import OAM Associated.

Lemma edges_asked_app (a b : list call) :
  edges_asked (a ++ b) = edges_asked a ++ edges_asked b.
Proof. apply omap_app. Qed.

Lemma edges_marked_app (a b : list call) :
  edges_marked (a ++ b) = edges_marked a ++ edges_marked b.
Proof. apply omap_app. Qed.

(** [store] hands back the entities as it got them and asks the cache
    for one [associated_with] edge from the entity of the event to every
    entity that is not nil, in the order of the entities: a nil entity, an
    edge that cannot be made or a property that cannot be set is logged
    and the loop goes on with the next entity. The source property is set
    on exactly the edges that the cache made. With no entity on the event
    no edge is asked for at all. *)
Theorem store_links_every_entity (env : Env) (event_entity : option Entity)
    (stored : list (option Entity)) :
  (store env event_entity stored).1 = stored ∧
  edges_asked (store env event_entity stored).2
  = match event_entity with
    | Some from => associated_with from <$> omap id stored
    | None => []
    end ∧
  edges_marked (store env event_entity stored).2
  = omap (λ e, match CreateEdge env e with RDAP.Made edge => Some edge | _ => None end)
         (edges_asked (store env event_entity stored).2).
Proof.
  split; [done|]. unfold store. simpl. split.
  - induction stored as [|[entity|] rest IH]; simpl; [by destruct event_entity|..].
    + destruct event_entity as [from|]; simpl; [|done]. f_equal.
      destruct (CreateEdge env (associated_with from entity)) as [| |edge];
        simpl; [done..|].
      rewrite edges_asked_app.
      by destruct (CreateEdgeProperty_fails env edge).
    + done.
  - induction stored as [|[entity|] rest IH]; simpl; [done|..].
    + destruct event_entity as [from|]; simpl; [|done].
      destruct (CreateEdge env (associated_with from entity)) as [| |edge] eqn:Hc;
        simpl; [exact IH..|].
      rewrite edges_asked_app, edges_marked_app. f_equal.
      by destruct (CreateEdgeProperty_fails env edge).
    + done.
Qed.

(** Three entities, the second one nil, the edge to the third failing:
    two edges are asked for, one gets its property, two lines are logged,
    and the entities come back as they were. *)
Example store_links_sample :
  let from := Addr.name_entity "example.com" in
  let good := Addr.name_entity "good.example.com" in
  let bad := Addr.name_entity "bad.example.com" in
  store moody_env (Some from) [Some good; None; Some bad]
  = ([Some good; None; Some bad],
     [CallCreateEdge (associated_with from good);
      CallCreateEdgeProperty (associated_with from good) LetItGo.source;
      CallLogError "Entity is nil";
      CallCreateEdge (associated_with from bad);
      CallLogError "Failed to create edge"]).
Proof. by vm_compute. Qed.

End AssociatedFacts.

(** ** The query of letitgo.go, without filter *)

Module PlainFacts.
Import GoStrings GoStringsFacts OAM LetItGo LetItGoFacts PlainSamples.

Lemma collect_plain_iff (ds : list string) (subs : gset string) (n : string) :
  n ∈ Plain.collect ds subs ↔ n ∈ subs ∨ ∃ d, d ∈ ds ∧ n = ToLower d.
Proof.
  revert subs. induction ds as [|x rest IH]; intros subs; simpl.
  - split; [by left|]. intros [?|(d & Hd & _)]; [done|]. by apply elem_of_nil in Hd.
  - rewrite IH. unfold StringSet.Insert. rewrite ToLower_idem. split.
    + intros [[->%elem_of_singleton|?]%elem_of_union|(d & Hd & ->)].
      * right. exists x. split; [apply list_elem_of_here|done].
      * by left.
      * right. exists d. split; [by apply list_elem_of_further|done].
    + intros [?|(d & [->|Hd]%elem_of_cons & ->)].
      * left. apply elem_of_union. by right.
      * left. apply elem_of_union. left. by apply elem_of_singleton.
      * right. by exists d.
Qed.

(** The names that [query] of letitgo.go hands to [store], and [store] to
    [support.StoreFQDNsWithSource], are the domains of the response in
    lower case, each of them once and nothing else: no domain is dropped
    for ending in onmicrosoft.com and none is cut down to its registrable
    part. When the response has a domain, the query succeeds with the
    entities the helper gives for these names, and the cache is as the
    helper leaves it. *)
Theorem plain_query_keeps_every_domain (helper : Plain.store_helper) (env : Env)
    (w : World) (e : Event) (name : string) (ds : list string)
    (Hreply : soap env name = Domains ds) (Hsome : ds ≠ []) :
  (∀ n, n ∈ Plain.stored_names ds ↔ ∃ d, d ∈ ds ∧ n = ToLower d) ∧
  NoDup (Plain.stored_names ds) ∧
  Plain.query helper env w (Some e) name
  = (set_cache (add_soap_call w name)
       (helper (cache w) (Plain.stored_names ds)).1,
     Ok (helper (cache w) (Plain.stored_names ds)).2).
Proof.
  split; [|split].
  - intros n. unfold Plain.stored_names, StringSet.Slice.
    rewrite elem_of_elements, collect_plain_iff. split.
    + intros [Hn|Hn]; [by apply elem_of_empty in Hn|done].
    + intros Hn. by right.
  - unfold Plain.stored_names, StringSet.Slice. apply NoDup_elements.
  - unfold Plain.query. rewrite Hreply.
    destruct (StringSet.Len _ =? 0)%nat eqn:Hlen.
    { apply Len_zero in Hlen. destruct ds as [|d rest]; [done|].
      pose proof (collect_plain_elem (d :: rest) StringSet.New d
                    (list_elem_of_here _ _)) as Hin.
      rewrite Hlen in Hin. by apply elem_of_empty in Hin. }
    unfold Plain.store, Plain.stored_names. simpl.
    by destruct (helper (cache w) _).
Qed.

Lemma plain_query_keeps_every_domain_witness :
  let env := sample_env (λ _, Domains tenant_domains) in
  (∀ n, n ∈ Plain.stored_names tenant_domains
        ↔ ∃ d, d ∈ tenant_domains ∧ n = ToLower d) ∧
  NoDup (Plain.stored_names tenant_domains) ∧
  Plain.query sample_helper env start_world (Some seed_event) "example.com"
  = (set_cache (add_soap_call start_world "example.com")
       (sample_helper (cache start_world) (Plain.stored_names tenant_domains)).1,
     Ok (sample_helper (cache start_world)
           (Plain.stored_names tenant_domains)).2).
Proof.
  apply (plain_query_keeps_every_domain sample_helper
           (sample_env (λ _, Domains tenant_domains)) start_world seed_event
           "example.com" tenant_domains); [reflexivity|discriminate].
Defined.

(** A tenant name and a host name of a partner are both handed on, in
    lower case and otherwise as they were sent, the tenant name once. *)
Example plain_query_sample :
  Plain.stored_names tenant_domains
  ≡ₚ ["contoso.onmicrosoft.com"; "mail.partner.co.uk"].
Proof. vm_compute. first [ reflexivity | apply perm_swap ]. Qed.

End PlainFacts.
